(** * PFS-FAHP / PFS-FTOPSIS: the numeric core of [fahpftopss.py]

    A shallow embedding of the computation layer of the program:
    the [PFS] value type, [fahp_weights], [ftopsis],
    [statistical_summary], [expert_agreement_analysis] and the expert
    averaging loops of [App.compute].

    Numbers.  Python's [float] is embedded as the real numbers [R] of the
    Standard Library: every arithmetic operation is the exact one, so the
    statements below speak about the algorithms, not about binary64
    rounding.  Control flow that depends on a comparison ([== 0], [>],
    [<]) is kept, and so is every place where Python raises.

    Failure.  A Python computation either returns a value, raises an
    exception, or (for a fractional power of a negative number) leaves the
    floats for the complex numbers; [result] has one constructor for each.

    Libraries.  [ftopsis] sorts its table with pandas.  The embedding of
    [ftopsis] takes the sort as a parameter, and most statements need only
    what pandas documents about it ([sort_values_contract]).  The routines
    that the call runs inside pandas and numpy are embedded as well
    ([pandas_sort_values]), shown to meet that contract, and used where a
    statement depends on the order of rows with equal keys. *)

From Stdlib Require Import String.
From Stdlib Require Import Reals Lra Lia List ZArith Permutation Sorted.
From Stdlib Require Import FunctionalExtensionality.
Import ListNotations.
Open Scope R_scope.

(* ================================================================== *)
(** ** Python results *)
(* ================================================================== *)

(** The built-in exceptions the core can raise. *)
Inductive exn : Set :=
| ValueError
| IndexError
| ZeroDivisionError.

Inductive result (A : Type) : Type :=
| Ok (a : A)
| Raise (e : exn)
| ComplexValue.

Arguments Ok {A} a.
Arguments Raise {A} e.
Arguments ComplexValue {A}.

Definition bind {A B : Type} (r : result A) (k : A -> result B) : result B :=
  match r with
  | Ok a => k a
  | Raise e => Raise e
  | ComplexValue => ComplexValue
  end.

Notation "x <- c ;; k" := (bind c (fun x => k))
  (at level 61, c at next level, right associativity).

(** A list comprehension or [for] loop whose body may raise: elements are
    evaluated left to right and the first failure aborts. *)
Fixpoint mapM {A B : Type} (f : A -> result B) (l : list A) : result (list B) :=
  match l with
  | [] => Ok []
  | x :: t => y <- f x ;; ys <- mapM f t ;; Ok (y :: ys)
  end.

(** A [for] loop that threads an accumulator. *)
Fixpoint foldM {A S : Type} (f : S -> A -> result S) (l : list A) (s : S)
  : result S :=
  match l with
  | [] => Ok s
  | x :: t => s' <- f s x ;; foldM f t s'
  end.

(** [range(n)] *)
Definition range (n : nat) : list nat := seq 0 n.

Arguments range : simpl never.

(** [l[i]] for an index coming from [range]: [IndexError] out of range. *)
Definition index {A : Type} (l : list A) (i : nat) : result A :=
  match nth_error l i with
  | Some x => Ok x
  | None => Raise IndexError
  end.

(** [sum(l)]: left to right, from [0]. *)
Definition sum (l : list R) : R := fold_left Rplus l 0.

(** [x / y] on floats. *)
Definition true_div (x y : R) : result R :=
  if Req_dec_T y 0 then Raise ZeroDivisionError else Ok (x / y).

(** [x ** y] on floats (CPython's [float_pow]): [y == 0] gives [1.0]; a zero
    base gives [0.0] for a positive exponent and raises for a negative one;
    a negative base with a fractional exponent gives a complex number. *)
Definition float_pow (x y : R) : result R :=
  if Req_dec_T y 0 then Ok 1
  else if Req_dec_T x 0 then
         (if Rlt_dec y 0 then Raise ZeroDivisionError else Ok 0)
  else if Rlt_dec 0 x then Ok (Rpower x y)
  else if Req_dec_T y (IZR (Int_part y)) then Ok (powerRZ x (Int_part y))
  else ComplexValue.

(** [math.sqrt(x)] *)
Definition math_sqrt (x : R) : result R :=
  if Rlt_dec x 0 then Raise ValueError else Ok (sqrt x).

(** [max(...)] and [min(...)] of a sequence: [ValueError] when it is empty. *)
Definition py_max (l : list R) : result R :=
  match l with
  | [] => Raise ValueError
  | x :: t => Ok (fold_left Rmax t x)
  end.

Definition py_min (l : list R) : result R :=
  match l with
  | [] => Raise ValueError
  | x :: t => Ok (fold_left Rmin t x)
  end.

(* ================================================================== *)
(** ** The PFS value *)
(* ================================================================== *)

Record PFS : Type := mkPFS { mu : R; nu : R }.

(** The Pythagorean tolerance of [__post_init__]. *)
Definition EPS : R := 1e-9.

(** [PFS(mu, nu)]: the dataclass constructor followed by [__post_init__]. *)
Definition PFS_new (m n : R) : result PFS :=
  if Rlt_dec (1 + EPS) (m ^ 2 + n ^ 2) then Raise ValueError
  else Ok (mkPFS m n).

Definition score (p : PFS) : R := mu p ^ 2 - nu p ^ 2.

Definition matrix : Type := list (list PFS).

(** The two linguistic scales. *)
Definition AHP_SCALE (label : string) : option (R * R) :=
  if String.eqb label "EQ" then Some (0.70, 0.70)
  else if String.eqb label "LI" then Some (0.30, 0.80)
  else if String.eqb label "MI" then Some (0.50, 0.70)
  else if String.eqb label "HI" then Some (0.70, 0.50)
  else if String.eqb label "VHI" then Some (0.90, 0.30)
  else None.

Definition TOPSIS_SCALE (label : string) : option (R * R) :=
  if String.eqb label "VL" then Some (0.10, 0.90)
  else if String.eqb label "L" then Some (0.30, 0.80)
  else if String.eqb label "M" then Some (0.50, 0.70)
  else if String.eqb label "H" then Some (0.70, 0.50)
  else if String.eqb label "VH" then Some (0.90, 0.30)
  else None.

(* ================================================================== *)
(** ** FAHP weights *)
(* ================================================================== *)

(** [fahp_weights(pfs_matrix)] *)
Definition fahp_weights (pfs_matrix : matrix) : result (list R) :=
  let n := length pfs_matrix in
  S <- mapM (fun i =>
         mapM (fun j =>
           row <- index pfs_matrix i ;;
           c <- index row j ;;
           Ok (mu c)) (range n)) (range n) ;;
  g <- mapM (fun i =>
         prod <- foldM (fun prod j =>
                   row <- index S i ;;
                   s <- index row j ;;
                   Ok (prod * s)) (range n) 1 ;;
         e <- true_div 1 (INR n) ;;
         float_pow prod e) (range n) ;;
  let total := sum g in
  if Req_dec_T total 0 then
    u <- true_div 1 (INR n) ;; Ok (repeat u n)
  else
    Ok (map (fun gi => gi / total) g).

(* ================================================================== *)
(** ** FTOPSIS ranking *)
(* ================================================================== *)

(** One row of the result table: the columns ["Alternative"], ["D+"],
    ["D-"] and ["CC"] of the data frame. *)
Record RankingRow : Type := mkRow {
  Alternative : string;
  D_plus : R;
  D_minus : R;
  CC : R
}.

(** A data frame is embedded as the list of its rows, top to bottom. *)
Definition DataFrame : Type := list RankingRow.

Fixpoint zip_rows (alts : list string) (dp dm cc : list R) : DataFrame :=
  match alts, dp, dm, cc with
  | a :: alts', p :: dp', q :: dm', c :: cc' =>
      mkRow a p q c :: zip_rows alts' dp' dm' cc'
  | _, _, _, _ => []
  end.

(** [pd.DataFrame({"Alternative": ..., "D+": ..., "D-": ..., "CC": ...})]:
    the constructor raises [ValueError] unless all columns have one length. *)
Definition new_DataFrame (alts : list string) (dp dm cc : list R)
  : result DataFrame :=
  if (Nat.eqb (length alts) (length dp) && Nat.eqb (length dp) (length dm)
      && Nat.eqb (length dm) (length cc))%bool
  then Ok (zip_rows alts dp dm cc)
  else Raise ValueError.

(** [l] with entry [i] replaced by [x]; [R[i].append(c)] turns [R] into
    [set_nth R i (R[i] ++ [c])].  The model reaches it only after [R[i]] has
    been read, so the index is in range. *)
Fixpoint set_nth {A : Type} (l : list A) (i : nat) (x : A) : list A :=
  match l, i with
  | [], _ => []
  | _ :: t, O => x :: t
  | y :: t, S i' => y :: set_nth t i' x
  end.

Section Ftopsis.

(** [df.sort_values(by="CC", ascending=False)] is a call into pandas, made
    with the default [kind].  It is a parameter of the embedding; what the
    library promises about it is stated as [sort_values_contract] below,
    and the routine the libraries run is [pandas_sort_values].
    [reset_index(drop=True)] only renumbers the row labels, which the list
    of rows does not carry. *)
Variable sort_values : DataFrame -> DataFrame.

(** [ftopsis(pfs_matrix, weights, alternatives)] *)
Definition ftopsis (pfs_matrix : matrix) (weights : list R)
           (alternatives : list string) : result DataFrame :=
  let m := length pfs_matrix in
  row0 <- index pfs_matrix 0 ;;
  let n := length row0 in
  (* score matrix *)
  S <- mapM (fun i =>
         mapM (fun j =>
           row <- index pfs_matrix i ;;
           c <- index row j ;;
           Ok (score c)) (range n)) (range m) ;;
  (* column-wise vector normalisation *)
  R <- foldM (fun R j =>
         sq <- mapM (fun i =>
                 row <- index S i ;; s <- index row j ;; Ok (s ^ 2))
               (range m) ;;
         d <- math_sqrt (sum sq) ;;
         let denom := if Req_dec_T d 0 then 1 else d in
         col <- mapM (fun i =>
                  row <- index S i ;; s <- index row j ;; true_div s denom)
                (range m) ;;
         if Nat.eqb j 0 then
           mapM (fun i => c <- index col i ;; Ok [c]) (range m)
         else
           foldM (fun R i =>
             Ri <- index R i ;;
             c <- index col i ;;
             Ok (set_nth R i (Ri ++ [c]))) (range m) R)
       (range n) [] ;;
  (* weighted normalised matrix *)
  V <- mapM (fun i =>
         mapM (fun j =>
           Ri <- index R i ;;
           r <- index Ri j ;;
           w <- index weights j ;;
           Ok (r * w)) (range n)) (range m) ;;
  (* positive and negative ideal *)
  v_plus <- mapM (fun j =>
              col <- mapM (fun i => Vi <- index V i ;; index Vi j)
                       (range m) ;;
              py_max col) (range n) ;;
  v_minus <- mapM (fun j =>
               col <- mapM (fun i => Vi <- index V i ;; index Vi j)
                        (range m) ;;
               py_min col) (range n) ;;
  (* distances *)
  D <- mapM (fun i =>
         sp <- mapM (fun j =>
                 Vi <- index V i ;; v <- index Vi j ;;
                 vp <- index v_plus j ;;
                 Ok ((v - vp) ^ 2)) (range n) ;;
         dp <- math_sqrt (sum sp) ;;
         sm <- mapM (fun j =>
                 Vi <- index V i ;; v <- index Vi j ;;
                 vm <- index v_minus j ;;
                 Ok ((v - vm) ^ 2)) (range n) ;;
         dm <- math_sqrt (sum sm) ;;
         Ok (dp, dm)) (range m) ;;
  let D_plus := map fst D in
  let D_minus := map snd D in
  (* closeness coefficients *)
  CC <- mapM (fun i =>
          dp <- index D_plus i ;;
          dm <- index D_minus i ;;
          if Req_dec_T (dp + dm) 0 then Ok 0
          else (dm' <- index D_minus i ;;
                dp' <- index D_plus i ;;
                dm'' <- index D_minus i ;;
                true_div dm' (dp' + dm''))) (range m) ;;
  df <- new_DataFrame alternatives D_plus D_minus CC ;;
  Ok (sort_values df).

End Ftopsis.

(** What pandas documents for [sort_values(by="CC", ascending=False)]: the
    rows come back rearranged, in descending order of the key.  The default
    [kind] is ['quicksort'], for which the library promises nothing about the
    order of rows with equal keys (only ['mergesort'] and ['stable'] do). *)
Definition CC_desc (r1 r2 : RankingRow) : Prop := CC r2 <= CC r1.

Definition sort_values_contract (sort_values : DataFrame -> DataFrame) : Prop :=
  forall df, Permutation df (sort_values df) /\ Sorted CC_desc (sort_values df).

(* ================================================================== *)
(** ** The library's sort *)
(* ================================================================== *)

(** [df.sort_values(by="CC", ascending=False)] with the default [kind] runs,
    inside the libraries, pandas' [nargsort] (pandas/core/sorting.py) on the
    key column and numpy's [argsort] with [kind="quicksort"]; the frame is
    then reordered with [take].  The definitions below follow these
    routines: they are library code, not code of the program, and are
    embedded from the libraries' sources.  For numpy it is the generic
    routine of [npysort/quicksort.cpp] ([aquicksort_]) with its fallback
    [aheapsort_] of [npysort/heapsort.cpp]; a build of numpy that hands the
    array to a vectorised sort on some processors runs another routine
    there, equally free to reorder equal keys. *)

Section NumpyArgsort.

(** [less x y] is [Tag::less(v[x], v[y])] for the array [v] being sorted:
    the routine moves indices only and reads [v] through comparisons. *)
Variable less : nat -> nat -> bool.

(** [tosort[k]] *)
Definition intp_at (a : list nat) (k : nat) : nat := nth k a 0%nat.

(** [INTP_SWAP(tosort[i], tosort[j])] *)
Definition INTP_SWAP (a : list nat) (i j : nat) : list nat :=
  set_nth (set_nth a i (intp_at a j)) j (intp_at a i).

(** The inner loop of [aheapsort_]: [a = tosort + b - 1] is the heap with
    entries [a[1] .. a[n]], so that [a[k]] is position [b + k - 1] of the
    index array; [tmp] sinks from [a[i]], [j] being its first child. *)
Fixpoint sift_down (fuel : nat) (b n tmp : nat) (a : list nat) (i j : nat)
  : list nat :=
  match fuel with
  | O => set_nth a (b + i - 1) tmp
  | S fuel' =>
      if (j <=? n)%nat then
        let j' := if ((j <? n)%nat
                      && less (intp_at a (b + j - 1))
                              (intp_at a (b + (j + 1) - 1)))%bool
                  then (j + 1)%nat else j in
        if less tmp (intp_at a (b + j' - 1)) then
          sift_down fuel' b n tmp
                    (set_nth a (b + i - 1) (intp_at a (b + j' - 1)))
                    j' (j' + j')%nat
        else set_nth a (b + i - 1) tmp
      else set_nth a (b + i - 1) tmp
  end.

(** [aheapsort_(vv, tosort + b, n)]: build the heap for [l = n >> 1] down
    to [1], then move the largest entry behind the heap until one entry is
    left. *)
Definition aheapsort (a : list nat) (b n : nat) : list nat :=
  let a1 := fold_left
              (fun a l => sift_down n b n (intp_at a (b + l - 1)) a l (2 * l))
              (rev (seq 1 (n / 2))) a in
  fold_left
    (fun a m =>
       let tmp := intp_at a (b + m - 1) in
       let a' := set_nth a (b + m - 1) (intp_at a (b + 1 - 1)) in
       sift_down n b (m - 1) tmp a' 1 2)
    (rev (seq 2 (n - 1))) a1.

(** [do { ++pi; } while (less(v[*pi], vp))], entered after the first
    increment, and [do { --pj; } while (less(vp, v[*pj]))]; [vp] is given by
    an index whose entry of [v] is the pivot. *)
Fixpoint scan_up (fuel : nat) (a : list nat) (vp pi : nat) : nat :=
  match fuel with
  | O => pi
  | S fuel' =>
      if less (intp_at a pi) vp then scan_up fuel' a vp (S pi) else pi
  end.

Fixpoint scan_down (fuel : nat) (a : list nat) (vp pj : nat) : nat :=
  match fuel with
  | O => pj
  | S fuel' =>
      if less vp (intp_at a pj) then scan_down fuel' a vp (pred pj) else pj
  end.

(** The [for (;;)] loop of the partition. *)
Fixpoint exchange (fuel : nat) (a : list nat) (vp pi pj : nat)
  : list nat * nat :=
  match fuel with
  | O => (a, pi)
  | S fuel' =>
      let pi' := scan_up (length a) a vp (S pi) in
      let pj' := scan_down (length a) a vp (pred pj) in
      if (pj' <=? pi')%nat then (a, pi')
      else exchange fuel' (INTP_SWAP a pi' pj') vp pi' pj'
  end.

(** One round of the [while ((pr - pl) > SMALL_QUICKSORT)] loop up to the
    push: median of three, the pivot parked at [pr - 1], the exchanges, the
    pivot put in its place [pi]. *)
Definition median_partition (a : list nat) (pl pr : nat) : list nat * nat :=
  let pm := (pl + Nat.div2 (pr - pl))%nat in
  let a := if less (intp_at a pm) (intp_at a pl) then INTP_SWAP a pm pl else a in
  let a := if less (intp_at a pr) (intp_at a pm) then INTP_SWAP a pr pm else a in
  let a := if less (intp_at a pm) (intp_at a pl) then INTP_SWAP a pm pl else a in
  let vp := intp_at a pm in
  let a := INTP_SWAP a pm (pr - 1) in
  let '(a, pi) := exchange (length a) a vp pl (pr - 1) in
  (INTP_SWAP a pi (pr - 1), pi).

(** The insertion sort of the slice [pl .. pr]:
    [while (pj > pl && less(vp, v[*pk])) { *pj-- = *pk--; }]. *)
Fixpoint shift_right (fuel : nat) (a : list nat) (vi pl pj : nat)
  : list nat * nat :=
  match fuel with
  | O => (a, pj)
  | S fuel' =>
      if ((pl <? pj)%nat && less vi (intp_at a (pj - 1)))%bool
      then shift_right fuel' (set_nth a pj (intp_at a (pj - 1))) vi pl (pj - 1)
      else (a, pj)
  end.

Definition insertion (a : list nat) (pl pr : nat) : list nat :=
  fold_left
    (fun a pi =>
       let vi := intp_at a pi in
       let '(a', pj) := shift_right (length a) a vi pl pi in
       set_nth a' pj vi)
    (seq (S pl) (pr - pl)) a.

Definition SMALL_QUICKSORT : nat := 16.

(** The variables of [aquicksort_]: the index array, the slice at hand, the
    depth left before the routine falls back on heapsort, and the two
    stacks of pending slices and of their depths. *)
Record qs_state : Type := mkQs {
  qs_tosort : list nat;
  qs_pl : nat;
  qs_pr : nat;
  qs_cdepth : Z;
  qs_stack : list (nat * nat);
  qs_psdepth : list Z
}.

(** [while ((pr - pl) > SMALL_QUICKSORT)]: partition, push the larger part,
    go on with the smaller one. *)
Fixpoint partitions (fuel : nat) (s : qs_state) : qs_state :=
  match fuel with
  | O => s
  | S fuel' =>
      let '(mkQs a pl pr cdepth stack depth) := s in
      if (SMALL_QUICKSORT <? pr - pl)%nat then
        let '(a', pi) := median_partition a pl pr in
        let cdepth' := (cdepth - 1)%Z in
        if (pi - pl <? pr - pi)%nat then
          partitions fuel' (mkQs a' pl (pi - 1) cdepth'
                                 ((pi + 1, pr)%nat :: stack) (cdepth' :: depth))
        else
          partitions fuel' (mkQs a' (pi + 1) pr cdepth'
                                 ((pl, pi - 1)%nat :: stack) (cdepth' :: depth))
      else s
  end.

(** The [while (1)] loop: heapsort when the depth is used up, else
    partitions and the insertion sort of what is left; then the next
    pending slice, until the stack is empty. *)
Fixpoint aquicksort_loop (fuel : nat) (s : qs_state) : list nat :=
  match fuel with
  | O => qs_tosort s
  | S fuel' =>
      let s' :=
        if (qs_cdepth s <? 0)%Z then
          mkQs (aheapsort (qs_tosort s) (qs_pl s) (qs_pr s - qs_pl s + 1))
               (qs_pl s) (qs_pr s) (qs_cdepth s) (qs_stack s) (qs_psdepth s)
        else
          let s1 := partitions (length (qs_tosort s)) s in
          mkQs (insertion (qs_tosort s1) (qs_pl s1) (qs_pr s1))
               (qs_pl s1) (qs_pr s1) (qs_cdepth s1) (qs_stack s1)
               (qs_psdepth s1)
      in
      match qs_stack s', qs_psdepth s' with
      | (pl, pr) :: stack, cdepth :: depth =>
          aquicksort_loop fuel' (mkQs (qs_tosort s') pl pr cdepth stack depth)
      | _, _ => qs_tosort s'
      end
  end.

(** [aquicksort_(v, tosort, num)] on the index array [0 .. num - 1] that
    [argsort] hands over; [npy_get_msb(num) * 2] is the depth limit. *)
Definition aquicksort (num : nat) : list nat :=
  aquicksort_loop (S num)
    (mkQs (seq 0 num) 0 (num - 1) (2 * Z.of_nat (Nat.log2 num)) [] []).

End NumpyArgsort.

(** [a.argsort(kind="quicksort")] for an array of floats. *)
Definition float_less (v : list R) (x y : nat) : bool :=
  if Rlt_dec (nth x v 0) (nth y v 0) then true else false.

Definition np_argsort (v : list R) : list nat :=
  aquicksort (float_less v) (length v).

(** pandas' [nargsort(items, kind="quicksort", ascending=False,
    na_position="last")]: there is no NaN among reals, so the mask is empty;
    for a descending order the items and their positions are reversed,
    sorted in ascending order, and the result is reversed again. *)
Definition nargsort (items : list R) : list nat :=
  let idx := range (length items) in
  let non_nans := rev items in
  let non_nan_idx := rev idx in
  let indexer := map (fun k => nth k non_nan_idx 0%nat) (np_argsort non_nans) in
  rev indexer.

(** [df.take(indexer)] *)
Definition DataFrame_take (df : DataFrame) (indexer : list nat) : DataFrame :=
  map (fun i => nth i df (mkRow EmptyString 0 0 0)) indexer.

(** [df.sort_values(by="CC", ascending=False)] *)
Definition pandas_sort_values (df : DataFrame) : DataFrame :=
  DataFrame_take df (nargsort (map CC df)).

(* ================================================================== *)
(** ** Vocabulary of the sort *)
(* ================================================================== *)

Section SortVocabulary.

Local Open Scope nat_scope.

(** The routine reads the array through comparisons of its entries;
    [key x] stands for the entry [v[x]]. *)
Variable key : nat -> R.

(** The key of the index at position [k] of the index array. *)
Definition key_at (a : list nat) (k : nat) : R := key (intp_at a k).

(** The slice [lo .. hi] of the index array is in ascending order of keys. *)
Definition sorted_on (a : list nat) (lo hi : nat) : Prop :=
  forall i j, lo <= i -> i <= j -> j <= hi -> (key_at a i <= key_at a j)%R.

(** [a'] is [a] with the entries of the slice [lo .. hi] rearranged. *)
Definition seg_perm (lo hi : nat) (a a' : list nat) : Prop :=
  length a' = length a /\ Permutation a a'
  /\ forall k, k < lo \/ hi < k -> intp_at a' k = intp_at a k.

(** The key of heap entry [a[k]], [a = tosort + b - 1]. *)
Definition heap_key (b : nat) (a : list nat) (k : nat) : R :=
  key (intp_at a (b + k - 1)).

(** Every parent from [lo] on is not below its children among [a[1 .. n]]. *)
Definition heap_from (b : nat) (a : list nat) (lo n : nat) : Prop :=
  forall p c, lo <= p -> c = 2 * p \/ c = 2 * p + 1 -> c <= n ->
              (heap_key b a c <= heap_key b a p)%R.

(** The same but for the parent [i], whose children are not above the
    parent of [i]. *)
Definition heap_but (b : nat) (a : list nat) (lo n i : nat) : Prop :=
  (forall p c, lo <= p -> p <> i -> c = 2 * p \/ c = 2 * p + 1 -> c <= n ->
               (heap_key b a c <= heap_key b a p)%R)
  /\ (forall p c, lo <= p -> i = 2 * p \/ i = 2 * p + 1 ->
                  c = 2 * i \/ c = 2 * i + 1 -> c <= n ->
                  (heap_key b a c <= heap_key b a p)%R).

(** Pending slices: the one at hand and those on the stack. *)
Definition in_seg (s : nat * nat) (k : nat) : Prop := fst s <= k <= snd s.

Definition seg_ok (N : nat) (s : nat * nat) : Prop :=
  fst s <= snd s /\ snd s < N.

Definition disjoint (s t : nat * nat) : Prop :=
  snd s < fst t \/ snd t < fst s.

Fixpoint all_disjoint (segs : list (nat * nat)) : Prop :=
  match segs with
  | [] => True
  | s :: rest => Forall (disjoint s) rest /\ all_disjoint rest
  end.

Definition same_seg (segs : list (nat * nat)) (i j : nat) : Prop :=
  exists s, In s segs /\ in_seg s i /\ in_seg s j.

(** Two entries that are not in one pending slice are in order. *)
Definition ordered (a : list nat) (segs : list (nat * nat)) : Prop :=
  forall i j, i < j -> j < length a -> ~ same_seg segs i j ->
              (key_at a i <= key_at a j)%R.

(** What the loops of [aquicksort_] keep true. *)
Definition qs_inv (a : list nat) (segs : list (nat * nat)) : Prop :=
  NoDup a /\ Forall (seg_ok (length a)) segs /\ all_disjoint segs
  /\ ordered a segs.

(** The number of entries in pending slices. *)
Fixpoint pending (segs : list (nat * nat)) : nat :=
  match segs with
  | [] => 0
  | s :: rest => (snd s - fst s + 1) + pending rest
  end.

End SortVocabulary.

(* ================================================================== *)
(** ** Statistical summary *)
(* ================================================================== *)

(** numpy reductions on a one-dimensional array.  [mean] and [std] are total
    (on the empty array numpy answers [nan], which [R] does not have: the
    quotient below is only meaningful for a non-empty array, and
    [statistical_summary] never lets the other case out); [min] and [max]
    raise [ValueError] on the empty array. *)
Definition np_mean (a : list R) : R := sum a / INR (length a).

(** [a.std()]: the default [ddof=0], that is
    [sqrt(mean(abs(a - a.mean())**2))]. *)
Definition np_std (a : list R) : R :=
  sqrt (np_mean (map (fun x => Rabs (x - np_mean a) ^ 2) a)).

Definition np_min (a : list R) : result R := py_min a.
Definition np_max (a : list R) : result R := py_max a.

(** The dictionary returned by [statistical_summary], one field per key:
    "Ortalama CC", "Standart Sapma", "Min CC", "Max CC", "CC Araligi",
    "Agirlik Ortalamasi", "Max Agirlik", "Min Agirlik". *)
Record Summary : Type := mkSummary {
  Ortalama_CC : R;
  Standart_Sapma : R;
  Min_CC : R;
  Max_CC : R;
  CC_Araligi : R;
  Agirlik_Ortalamasi : R;
  Max_Agirlik : R;
  Min_Agirlik : R
}.

(** [statistical_summary(weights, result_df)] *)
Definition statistical_summary (weights : list R) (result_df : DataFrame)
  : result Summary :=
  let cc_values := map CC result_df in
  let mean := np_mean cc_values in
  let std := np_std cc_values in
  mn <- np_min cc_values ;;
  mx <- np_max cc_values ;;
  mx' <- np_max cc_values ;;
  mn' <- np_min cc_values ;;
  wavg <- true_div (sum weights) (INR (length weights)) ;;
  wmax <- py_max weights ;;
  wmin <- py_min weights ;;
  Ok (mkSummary mean std mn mx (mx' - mn') wavg wmax wmin).

(* ================================================================== *)
(** ** Expert agreement *)
(* ================================================================== *)

(** The three values of "Uyum Seviyesi": "Yuksek" (high), "Orta" (medium),
    "Dusuk" (low). *)
Inductive Seviye : Set := Yuksek | Orta | Dusuk.

(** The dictionary returned by [expert_agreement_analysis], one field per
    key: "Ortalama Varyans", "Uyum Skoru", "Uyum Seviyesi". *)
Record Agreement : Type := mkAgreement {
  Ortalama_Varyans : R;
  Uyum_Skoru : R;
  Uyum_Seviyesi : Seviye
}.

(** Nearest integer, ties to even. *)
Definition round_half_even (x : R) : Z :=
  let f := Int_part x in
  let r := x - IZR f in
  if Rlt_dec r (1 / 2) then f
  else if Rlt_dec (1 / 2) r then (f + 1)%Z
  else if Z.even f then f else (f + 1)%Z.

(** [round(x, 4)] *)
Definition round4 (x : R) : R := IZR (round_half_even (x * 10000)) / 10000.

Definition seviye_of (avg_variance : R) : Seviye :=
  if Rlt_dec avg_variance 0.1 then Yuksek
  else if Rlt_dec avg_variance 0.2 then Orta
  else Dusuk.

(** [expert_agreement_analysis(pfs_experts)] *)
Definition expert_agreement_analysis (pfs_experts : list matrix)
  : result Agreement :=
  match pfs_experts with
  | [] => Ok (mkAgreement 0 1 Yuksek)
  | [] :: _ => Ok (mkAgreement 0 1 Yuksek)
  | _ =>
    e0 <- index pfs_experts 0 ;;
    let n := length e0 in
    e0' <- index pfs_experts 0 ;;
    r0 <- index e0' 0 ;;
    let m := length r0 in
    vss <- mapM (fun i =>
             mapM (fun j =>
               mu_values <- mapM (fun e =>
                              M <- index pfs_experts e ;;
                              row <- index M i ;;
                              c <- index row j ;;
                              Ok (mu c)) (range (length pfs_experts)) ;;
               nu_values <- mapM (fun e =>
                              M <- index pfs_experts e ;;
                              row <- index M i ;;
                              c <- index row j ;;
                              Ok (nu c)) (range (length pfs_experts)) ;;
               mu_avg <- true_div (sum mu_values) (INR (length mu_values)) ;;
               nu_avg <- true_div (sum nu_values) (INR (length nu_values)) ;;
               vm <- true_div (sum (map (fun x => (x - mu_avg) ^ 2) mu_values))
                              (INR (length mu_values)) ;;
               vn <- true_div (sum (map (fun x => (x - nu_avg) ^ 2) nu_values))
                              (INR (length nu_values)) ;;
               Ok (vm + vn)) (range m)) (range n) ;;
    let variances := concat vss in
    avg_variance <- match variances with
                    | [] => Ok 0
                    | _ => true_div (sum variances) (INR (length variances))
                    end ;;
    Ok (mkAgreement (round4 avg_variance)
                    (round4 (1 - Rmin avg_variance 1))
                    (seviye_of avg_variance))
  end.

(* ================================================================== *)
(** ** Expert aggregation (the averaging loops of [App.compute]) *)
(* ================================================================== *)

(** The loop that builds [pfs_fahp] and, a second time, [pfs_top]:
    [rows] and [cols] are the two loop bounds (both the literal [5] in the
    program, the size of the grids it builds), [experts] is [self.experts]. *)
Definition aggregate_experts (rows cols experts : nat)
           (pfs_experts : list matrix) : result matrix :=
  mapM (fun i =>
    mapM (fun j =>
      mus <- mapM (fun e =>
               M <- index pfs_experts e ;;
               row <- index M i ;;
               c <- index row j ;;
               Ok (mu c)) (range experts) ;;
      mu_avg <- true_div (sum mus) (INR experts) ;;
      nus <- mapM (fun e =>
               M <- index pfs_experts e ;;
               row <- index M i ;;
               c <- index row j ;;
               Ok (nu c)) (range experts) ;;
      nu_avg <- true_div (sum nus) (INR experts) ;;
      PFS_new mu_avg nu_avg) (range cols)) (range rows).

(** The two uses in [App.compute]. *)
Definition pfs_fahp (self_experts : nat) (fahp_pfs_experts : list matrix)
  : result matrix :=
  aggregate_experts 5 5 self_experts fahp_pfs_experts.

Definition pfs_top (self_experts : nat) (ftopsis_pfs_experts : list matrix)
  : result matrix :=
  aggregate_experts 5 5 self_experts ftopsis_pfs_experts.

(* ================================================================== *)
(** ** Vocabulary of the specification *)
(* ================================================================== *)

(** A grid with [r] rows of [c] cells each. *)
Definition is_matrix {A : Type} (r c : nat) (M : list (list A)) : Prop :=
  length M = r /\ Forall (fun row => length row = c) M.

(** A valid Pythagorean fuzzy value: both components in [[0,1]] and the
    Pythagorean constraint, with the tolerance. *)
Definition valid_PFS (p : PFS) : Prop :=
  0 <= mu p <= 1 /\ 0 <= nu p <= 1 /\ mu p ^ 2 + nu p ^ 2 <= 1 + EPS.

Definition valid_matrix (M : matrix) : Prop := Forall (Forall valid_PFS) M.

Definition product (l : list R) : R := fold_right Rmult 1 l.

(** [g] is the geometric mean of the non-negative numbers [xs]: the
    non-negative [N]-th root of their product. *)
Definition is_geometric_mean (xs : list R) (g : R) : Prop :=
  0 <= g /\ g ^ length xs = product xs.

(** The arithmetic mean, all entries weighted equally. *)
Definition arithmetic_mean (xs : list R) : R := sum xs / INR (length xs).

(** Cell [(i, j)] of a grid. *)
Definition dPFS : PFS := mkPFS 0 0.
Definition cell (M : matrix) (i j : nat) : PFS := nth j (nth i M []) dPFS.

(** The grid [[f i j | j < n] | i < m]. *)
Definition tab {A : Type} (f : nat -> nat -> A) (m n : nat) : list (list A) :=
  map (fun i => map (fun j => f i j) (range n)) (range m).

Definition Rmax_list (l : list R) : R :=
  match l with [] => 0 | x :: t => fold_left Rmax t x end.

Definition Rmin_list (l : list R) : R :=
  match l with [] => 0 | x :: t => fold_left Rmin t x end.

(** The stages of [ftopsis] as functions of the indices, for a matrix [M]
    with [length M] rows and as many columns as its first row has. *)
Definition ft_rows (M : matrix) : nat := length M.
Definition ft_cols (M : matrix) : nat := length (nth 0 M []).

Definition ft_S (M : matrix) (i j : nat) : R := score (cell M i j).

Definition ft_norm (M : matrix) (j : nat) : R :=
  sqrt (sum (map (fun i => ft_S M i j ^ 2) (range (ft_rows M)))).

Definition ft_denom (M : matrix) (j : nat) : R :=
  if Req_dec_T (ft_norm M j) 0 then 1 else ft_norm M j.

Definition ft_R (M : matrix) (i j : nat) : R := ft_S M i j / ft_denom M j.

Definition ft_V (M : matrix) (w : list R) (i j : nat) : R :=
  ft_R M i j * nth j w 0.

Definition ft_v_plus (M : matrix) (w : list R) (j : nat) : R :=
  Rmax_list (map (fun i => ft_V M w i j) (range (ft_rows M))).

Definition ft_v_minus (M : matrix) (w : list R) (j : nat) : R :=
  Rmin_list (map (fun i => ft_V M w i j) (range (ft_rows M))).

Definition ft_D_plus (M : matrix) (w : list R) (i : nat) : R :=
  sqrt (sum (map (fun j => (ft_V M w i j - ft_v_plus M w j) ^ 2)
                 (range (ft_cols M)))).

Definition ft_D_minus (M : matrix) (w : list R) (i : nat) : R :=
  sqrt (sum (map (fun j => (ft_V M w i j - ft_v_minus M w j) ^ 2)
                 (range (ft_cols M)))).

Definition ft_CC (M : matrix) (w : list R) (i : nat) : R :=
  if Req_dec_T (ft_D_plus M w i + ft_D_minus M w i) 0 then 0
  else ft_D_minus M w i / (ft_D_plus M w i + ft_D_minus M w i).

(** The table before it is sorted: one row per alternative, in input order. *)
Definition ft_table (M : matrix) (w : list R) (alts : list string) : DataFrame :=
  zip_rows alts (map (ft_D_plus M w) (range (ft_rows M)))
                (map (ft_D_minus M w) (range (ft_rows M)))
                (map (ft_CC M w) (range (ft_rows M))).

(** The rows of a table whose key is [c], in table order. *)
Definition rows_with_CC (c : R) (df : DataFrame) : DataFrame :=
  filter (fun r => if Req_dec_T (CC r) c then true else false) df.

(** Stable tie-breaking: rows with equal keys keep their relative order. *)
Definition keeps_tie_order (df out : DataFrame) : Prop :=
  forall c, rows_with_CC c out = rows_with_CC c df.

(** A sorting function that meets [sort_values_contract]: the insertion
    sort that puts a new row before the rows with the same key. *)
Fixpoint insert_before_ties (r : RankingRow) (l : DataFrame) : DataFrame :=
  match l with
  | [] => [r]
  | x :: t => if Rle_dec (CC x) (CC r) then r :: x :: t
              else x :: insert_before_ties r t
  end.

Definition sort_ties_in_order (df : DataFrame) : DataFrame :=
  fold_right insert_before_ties [] df.

(** The average variance of the specification: per cell, the variance of
    [mu] across the experts plus the variance of [nu], averaged over all
    cells of an [r] by [c] grid. *)
Definition variance (xs : list R) : R :=
  arithmetic_mean (map (fun x => (x - arithmetic_mean xs) ^ 2) xs).

Definition cell_variance (experts : list matrix) (i j : nat) : R :=
  variance (map (fun M => mu (cell M i j)) experts)
  + variance (map (fun M => nu (cell M i j)) experts).

Definition avg_variance_exact (r c : nat) (experts : list matrix) : R :=
  match concat (tab (cell_variance experts) r c) with
  | [] => 0
  | vs => arithmetic_mean vs
  end.

(** Appending one entry to each row: what the inner loop of the
    normalisation does to [R] for a column after the first. *)
Fixpoint snoc_each {A : Type} (X : list (list A)) (col : list A) : list (list A) :=
  match X, col with
  | r :: X', c :: col' => (r ++ [c]) :: snoc_each X' col'
  | _, _ => []
  end.

(** The value of [R] in [ftopsis] before column [k] is processed. *)
Definition ft_R_state (M : matrix) (k : nat) : list (list R) :=
  match k with
  | O => []
  | S _ => tab (ft_R M) (ft_rows M) k
  end.

(** The [n]-th root that [float_pow] computes for a non-negative base. *)
Definition gm_root (n : nat) (P : R) : R :=
  if Req_dec_T P 0 then 0 else Rpower P (1 / INR n).

(** The list [g] of [fahp_weights] for a matrix with non-negative [mu]. *)
Definition fahp_g (M : matrix) : list R :=
  map (fun row => gm_root (length M) (product (map mu row))) M.


(** The mean of the experts' [mu], and of their [nu], at cell [(i, j)]. *)
Definition mean_mu (experts : list matrix) (i j : nat) : R :=
  arithmetic_mean (map (fun M => mu (cell M i j)) experts).

Definition mean_nu (experts : list matrix) (i j : nat) : R :=
  arithmetic_mean (map (fun M => nu (cell M i j)) experts).


(** ** Sample inputs *)

(** Two criteria, every judgment [EQ]. *)
Definition EQ_2x2 : matrix :=
  [[mkPFS 0.70 0.70; mkPFS 0.70 0.70]; [mkPFS 0.70 0.70; mkPFS 0.70 0.70]].

(** Two criteria, every [mu] zero. *)
Definition zero_2x2 : matrix :=
  [[mkPFS 0 1; mkPFS 0 1]; [mkPFS 0 1; mkPFS 0 1]].

(** One criterion, two alternatives with the same judgment [H]. *)
Definition twins : matrix := [[mkPFS 0.70 0.50]; [mkPFS 0.70 0.50]].

(** One criterion, one alternative: the mean of [VH] and [VL]. *)
Definition single : matrix := [[mkPFS 0.50 0.60]].

(** Two experts judging one cell [VH] and [VL]. *)
Definition VH_VL : list matrix := [[[mkPFS 0.90 0.30]]; [[mkPFS 0.10 0.90]]].

(** Two experts whose [mu] at the only cell are [0] and [0.6324]. *)
Definition near_tenth : list matrix := [[[mkPFS 0 0]]; [[mkPFS 0.6324 0]]].


(** The two estimators of the standard deviation: divisor [n] (population)
    and divisor [n - 1] (sample). *)
Definition population_std (a : list R) : R :=
  sqrt (sum (map (fun x => (x - arithmetic_mean a) ^ 2) a) / INR (length a)).

Definition sample_std (a : list R) : R :=
  sqrt (sum (map (fun x => (x - arithmetic_mean a) ^ 2) a)
        / (INR (length a) - 1)).

(** A ranking table whose [CC] column is [0.2, 0.4, 0.6, 0.8]. *)
Definition four_rows : DataFrame :=
  [mkRow "B1" 0.8 0.2 0.2; mkRow "B2" 0.6 0.4 0.4;
   mkRow "B3" 0.4 0.6 0.6; mkRow "B4" 0.2 0.8 0.8].


(** One criterion, one alternative judged [EQ]: its score is [0]. *)
Definition lone_EQ : matrix := [[mkPFS 0.70 0.70]].


(** ** Vocabulary of the further properties *)

(** The product of the [mu] components of row [i]. *)
Definition row_product (M : matrix) (i : nat) : R :=
  product (map mu (nth i M [])).

(** A row with both distances multiplied by [k]. *)
Definition scale_row (k : R) (r : RankingRow) : RankingRow :=
  mkRow (Alternative r) (k * D_plus r) (k * D_minus r) (CC r).

(** Row [i] of the table before sorting. *)
Definition ft_row (M : matrix) (w : list R) (alts : list string) (i : nat)
  : RankingRow :=
  mkRow (nth i alts EmptyString) (ft_D_plus M w i) (ft_D_minus M w i)
        (ft_CC M w i).

(** The test of [__post_init__], as a property of a value. *)
Definition pythagorean (p : PFS) : Prop := mu p ^ 2 + nu p ^ 2 <= 1 + EPS.


(** ** The numeric part of [App.compute] *)

(** Exceptions that [compute] can meet on top of those of the core:
    [KeyError] from a scale dictionary, [AttributeError] from [w.get()] on a
    plain string. *)
Inductive compute_exn : Set :=
| Core (e : exn)
| KeyError
| AttributeError.

Inductive compute_result (A : Type) : Type :=
| Returned (a : A)
| Raised (e : compute_exn)
| LeftTheReals.

Arguments Returned {A} a.
Arguments Raised {A} e.
Arguments LeftTheReals {A}.

Definition lift {A : Type} (r : result A) : compute_result A :=
  match r with
  | Ok a => Returned a
  | Raise e => Raised (Core e)
  | ComplexValue => LeftTheReals
  end.

Definition cbind {A B : Type} (r : compute_result A)
           (k : A -> compute_result B) : compute_result B :=
  match r with
  | Returned a => k a
  | Raised e => Raised e
  | LeftTheReals => LeftTheReals
  end.

Notation "x <-- c ;; k" := (cbind c (fun x => k))
  (at level 61, c at next level, right associativity).

Fixpoint cmapM {A B : Type} (f : A -> compute_result B) (l : list A)
  : compute_result (list B) :=
  match l with
  | [] => Returned []
  | x :: t => y <-- f x ;; ys <-- cmapM f t ;; Returned (y :: ys)
  end.

(** An entry of [self.fahp_frames] or [self.ftopsis_frames]: the string put
    on the diagonal of the FAHP grids, or a combobox with its current
    value. *)
Inductive widget : Type :=
| Str (s : string)
| Combobox (value : string).

Definition frames : Type := list (list (list widget)).

(** [d[key]] on a scale dictionary. *)
Definition scale_lookup (scale : string -> option (R * R)) (key : string)
  : compute_result (R * R) :=
  match scale key with
  | Some v => Returned v
  | None => Raised KeyError
  end.

(** The loop that reads the FAHP comboboxes: the diagonal is ["EQ"] without
    a look at the frame. *)
Definition read_fahp_labels (experts : nat) (fahp_frames : frames)
  : compute_result (list (list (list string))) :=
  cmapM (fun e =>
    cmapM (fun i =>
      cmapM (fun j =>
        if Nat.eqb i j then Returned "EQ"%string
        else
          fe <-- lift (index fahp_frames e) ;;
          row <-- lift (index fe i) ;;
          w <-- lift (index row j) ;;
          match w with
          | Str s => Returned s
          | Combobox v => Returned v
          end) (range 5)) (range 5)) (range experts).

(** The loop that reads the FTOPSIS comboboxes: [w.get()] on every entry. *)
Definition read_ftopsis_labels (experts : nat) (ftopsis_frames : frames)
  : compute_result (list (list (list string))) :=
  cmapM (fun e =>
    cmapM (fun i =>
      cmapM (fun j =>
        fe <-- lift (index ftopsis_frames e) ;;
        row <-- lift (index fe i) ;;
        w <-- lift (index row j) ;;
        match w with
        | Str _ => Raised AttributeError
        | Combobox v => Returned v
        end) (range 5)) (range 5)) (range experts).

(** The loop that turns one expert's labels into PFS values. *)
Definition labels_to_pfs (scale : string -> option (R * R))
           (exp : list (list string)) : compute_result matrix :=
  cmapM (fun i =>
    cmapM (fun j =>
      row <-- lift (index exp i) ;;
      label <-- lift (index row j) ;;
      mn <-- scale_lookup scale label ;;
      lift (PFS_new (fst mn) (snd mn))) (range 5)) (range 5).

(** What [compute] hands to the result window. *)
Record Computed : Type := mkComputed {
  computed_weights : list R;
  computed_df : DataFrame;
  computed_stats : Summary;
  computed_agreement : Agreement
}.

(** [App.compute], from the frames to the numbers it displays.  The
    drawing of the charts, the storing of [self.last_result] and the
    building of the window are left out. *)
Definition compute (sort_values : DataFrame -> DataFrame)
           (self_experts : nat) (self_alternatives : list string)
           (fahp_frames ftopsis_frames : frames) : compute_result Computed :=
  fahp_ling_experts <-- read_fahp_labels self_experts fahp_frames ;;
  fahp_pfs_experts <-- cmapM (labels_to_pfs AHP_SCALE) fahp_ling_experts ;;
  pfs_fahp_ <-- lift (pfs_fahp self_experts fahp_pfs_experts) ;;
  weights <-- lift (fahp_weights pfs_fahp_) ;;
  ftopsis_ling_experts <-- read_ftopsis_labels self_experts ftopsis_frames ;;
  ftopsis_pfs_experts <-- cmapM (labels_to_pfs TOPSIS_SCALE) ftopsis_ling_experts ;;
  pfs_top_ <-- lift (pfs_top self_experts ftopsis_pfs_experts) ;;
  result_df <-- lift (ftopsis sort_values pfs_top_ weights self_alternatives) ;;
  stats <-- lift (statistical_summary weights result_df) ;;
  expert_agreement <-- lift (expert_agreement_analysis fahp_pfs_experts) ;;
  Returned (mkComputed weights result_df stats expert_agreement).

(** The grids [create_fahp_tabs] and [create_ftopsis_tabs] build, with the
    values the comboboxes are created with. *)
Definition fresh_fahp_frames (experts : nat) : frames :=
  map (fun _ => tab (fun i j => if Nat.eqb i j then Str "EQ" else Combobox "EQ")
                    5 5) (range experts).

Definition fresh_ftopsis_frames (experts : nat) : frames :=
  map (fun _ => tab (fun _ _ => Combobox "M") 5 5) (range experts).

(** The widget at position [(e, i, j)] of a grid of frames, if there is
    one, and the label it stands for. *)
Definition widget_at (f : frames) (e i j : nat) : option widget :=
  match nth_error f e with
  | Some fe => match nth_error fe i with
               | Some row => nth_error row j
               | None => None
               end
  | None => None
  end.

Definition widget_text (w : widget) : string :=
  match w with Str s => s | Combobox v => v end.

(** Frames [compute] can read: every off-diagonal FAHP entry exists and
    shows a label of [AHP_SCALE]; every FTOPSIS entry is a combobox showing
    a label of [TOPSIS_SCALE]. *)
Definition fahp_frames_ok (experts : nat) (f : frames) : Prop :=
  forall e i j, (e < experts)%nat -> (i < 5)%nat -> (j < 5)%nat -> i <> j ->
    exists w, widget_at f e i j = Some w /\ AHP_SCALE (widget_text w) <> None.

Definition ftopsis_frames_ok (experts : nat) (f : frames) : Prop :=
  forall e i j, (e < experts)%nat -> (i < 5)%nat -> (j < 5)%nat ->
    exists v, widget_at f e i j = Some (Combobox v) /\ TOPSIS_SCALE v <> None.

(** The value a scale gives to a label ([dPFS] stands in for a label the
    scale does not have). *)
Definition scale_pfs (scale : string -> option (R * R)) (label : string) : PFS :=
  match scale label with
  | Some (m, n) => mkPFS m n
  | None => dPFS
  end.

Definition fahp_label (f : frames) (e i j : nat) : string :=
  if Nat.eqb i j then "EQ"%string
  else match widget_at f e i j with
       | Some w => widget_text w
       | None => EmptyString
       end.

Definition ftopsis_label (f : frames) (e i j : nat) : string :=
  match widget_at f e i j with
  | Some w => widget_text w
  | None => EmptyString
  end.


(** ** More sample inputs *)

(** A second row that is too short. *)
Definition ragged_2 : matrix :=
  [[mkPFS 0.70 0.70; mkPFS 0.70 0.70]; [mkPFS 0.70 0.70]].

(** [EQ_2x2] with every [mu] halved. *)
Definition EQ_2x2_half : matrix :=
  [[mkPFS (0.5 * 0.70) 0.70; mkPFS (0.5 * 0.70) 0.70];
   [mkPFS (0.5 * 0.70) 0.70; mkPFS (0.5 * 0.70) 0.70]].

(** Two criteria, and the same judgments with each row written backwards. *)
Definition EQ_HI_LI_EQ : matrix :=
  [[mkPFS 0.70 0.70; mkPFS 0.70 0.50]; [mkPFS 0.30 0.80; mkPFS 0.70 0.70]].

Definition HI_EQ_EQ_LI : matrix :=
  [[mkPFS 0.70 0.50; mkPFS 0.70 0.70]; [mkPFS 0.70 0.70; mkPFS 0.30 0.80]].

(** The experts of [VH_VL] in the other order. *)
Definition VL_VH : list matrix := [[[mkPFS 0.10 0.90]]; [[mkPFS 0.90 0.30]]].

(** A second expert without any row. *)
Definition short_expert : list matrix := [[[mkPFS 0.90 0.30]]; []].

(** A grid of labels, all ["EQ"]. *)
Definition EQ_labels : list (list string) := tab (fun _ _ => "EQ"%string) 5 5.

(** The five alternatives of the program. *)
Definition B1_to_B5 : list string := ["B1"; "B2"; "B3"; "B4"; "B5"]%string.

(** Two alternatives on one criterion with scores [0.6] and [0.8]: the score
    norm of the column is [1]. *)
Definition low_high : matrix := [[mkPFS 0.80 0.20]; [mkPFS 0.90 0.10]].

(** Eighteen alternatives on one criterion, alternately on a higher and a
    lower level of score, and their labels. *)
Definition LO : PFS := mkPFS 0.80 0.20.
Definition HI : PFS := mkPFS 0.90 0.10.

Definition eighteen : matrix :=
  map (fun i => [if Nat.even i then HI else LO]) (range 18).

Definition B1_to_B18 : list string :=
  ["B1"; "B2"; "B3"; "B4"; "B5"; "B6"; "B7"; "B8"; "B9"; "B10"; "B11"; "B12";
   "B13"; "B14"; "B15"; "B16"; "B17"; "B18"]%string.

(** Keys that are natural numbers, for running the sort. *)
Definition nat_key_less (ks : list nat) (x y : nat) : bool :=
  (nth x ks 0 <? nth y ks 0)%nat.

Definition eighteen_keys : list nat :=
  map (fun i => if Nat.even i then 1%nat else 0%nat) (range 18).

(* ================================================================== *)
(** * Properties *)
(* ================================================================== *)

(** ** Loops and comprehensions that cannot fail *)

Lemma mapM_ext_in {A B : Type} (f g : A -> result B) (l : list A) :
  (forall x, In x l -> f x = g x) -> mapM f l = mapM g l.
Proof.
  induction l as [|x t IH]; intros H; simpl; [reflexivity|].
  rewrite (H x (or_introl eq_refl)), IH; [reflexivity|].
  intros y Hy. apply H. now right.
Qed.

Lemma mapM_Ok {A B : Type} (f : A -> B) (l : list A) :
  mapM (fun x => Ok (f x)) l = Ok (map f l).
Proof.
  induction l as [|x t IH]; simpl; [reflexivity|]. now rewrite IH.
Qed.

Lemma mapM_pure {A B : Type} (f : A -> result B) (g : A -> B) (l : list A) :
  (forall x, In x l -> f x = Ok (g x)) -> mapM f l = Ok (map g l).
Proof.
  intros H. rewrite <- mapM_Ok. now apply mapM_ext_in.
Qed.

Lemma mapM_raise {A B : Type} (f : A -> result B) (l1 l2 : list A) x e :
  (forall y, In y l1 -> exists v, f y = Ok v) ->
  f x = Raise e ->
  mapM f (l1 ++ x :: l2) = Raise e.
Proof.
  induction l1 as [|y t IH]; intros Hok Hx; simpl.
  - now rewrite Hx.
  - destruct (Hok y (or_introl eq_refl)) as [v ->]. simpl.
    rewrite IH; [reflexivity| |assumption].
    intros z Hz. apply Hok. now right.
Qed.

Lemma foldM_seq_inv {S : Type} (f : S -> nat -> result S) (st : nat -> S) :
  forall len a,
    (forall k, (a <= k < a + len)%nat -> f (st k) k = Ok (st (Datatypes.S k))) ->
    foldM f (seq a len) (st a) = Ok (st (a + len)%nat).
Proof.
  induction len as [|len IH]; intros a H; simpl.
  - now rewrite Nat.add_0_r.
  - rewrite H by lia. simpl. rewrite IH.
    + f_equal. f_equal. lia.
    + intros k Hk. apply H. lia.
Qed.

Lemma in_range (n i : nat) : In i (range n) <-> (i < n)%nat.
Proof. unfold range. rewrite in_seq. lia. Qed.

Lemma length_range (n : nat) : length (range n) = n.
Proof. apply length_seq. Qed.

Lemma range_S (n : nat) : range (S n) = range n ++ [n].
Proof. unfold range. now rewrite seq_S. Qed.

Lemma range_split (n k : nat) :
  (k < n)%nat -> range n = range k ++ k :: seq (S k) (n - S k).
Proof.
  intros H. unfold range.
  replace n with (k + S (n - S k))%nat at 1 by lia.
  now rewrite seq_app.
Qed.

Lemma index_nth {A : Type} (l : list A) (i : nat) (d : A) :
  (i < length l)%nat -> index l i = Ok (nth i l d).
Proof.
  intros H. unfold index.
  destruct (nth_error l i) as [x|] eqn:E.
  - now rewrite (nth_error_nth _ _ d E).
  - apply nth_error_None in E. lia.
Qed.

Lemma index_out {A : Type} (l : list A) (i : nat) :
  (length l <= i)%nat -> index l i = Raise IndexError.
Proof.
  intros H. unfold index. apply nth_error_None in H. now rewrite H.
Qed.

Lemma index_map_range {A : Type} (g : nat -> A) (n j : nat) :
  (j < n)%nat -> index (map g (range n)) j = Ok (g j).
Proof.
  intros H. unfold index, range.
  rewrite nth_error_map, nth_error_seq.
  destruct (Nat.ltb_spec j n); [reflexivity|lia].
Qed.

Lemma index_tab {A : Type} (f : nat -> nat -> A) (m n i : nat) :
  (i < m)%nat -> index (tab f m n) i = Ok (map (f i) (range n)).
Proof. intros H. unfold tab. now rewrite index_map_range. Qed.

Lemma map_nth_range {A : Type} (l : list A) (d : A) :
  map (fun i => nth i l d) (range (length l)) = l.
Proof.
  apply nth_ext with (d := d) (d' := d).
  - now rewrite length_map, length_range.
  - intros i Hi. rewrite length_map, length_range in Hi.
    rewrite nth_indep with (d' := nth 0 l d) by (now rewrite length_map, length_range).
    rewrite (map_nth (fun i => nth i l d)).
    unfold range. now rewrite seq_nth.
Qed.

Lemma sum_app (l1 l2 : list R) : sum (l1 ++ l2) = sum l1 + sum l2.
Proof.
  unfold sum. rewrite fold_left_app.
  generalize (fold_left Rplus l1 0). intros a.
  revert a. induction l2 as [|x t IH]; intros a; simpl; [lra|].
  rewrite IH, (IH (0 + x)). lra.
Qed.

Lemma sum_cons (x : R) (l : list R) : sum (x :: l) = x + sum l.
Proof. change (x :: l) with ([x] ++ l). rewrite sum_app. unfold sum. simpl. lra. Qed.

Lemma sum_nil : sum [] = 0.
Proof. reflexivity. Qed.

Lemma sum_nonneg (l : list R) : Forall (fun x => 0 <= x) l -> 0 <= sum l.
Proof.
  induction 1 as [|x t Hx _ IH]; [rewrite sum_nil; lra|].
  rewrite sum_cons. lra.
Qed.

Lemma sum_sq_nonneg {A : Type} (f : A -> R) (l : list A) :
  0 <= sum (map (fun x => f x ^ 2) l).
Proof.
  apply sum_nonneg. apply Forall_map, Forall_forall. intros x _.
  apply pow2_ge_0.
Qed.

Lemma math_sqrt_nonneg (x : R) : 0 <= x -> math_sqrt x = Ok (sqrt x).
Proof. intros H. unfold math_sqrt. destruct (Rlt_dec x 0); [lra|reflexivity]. Qed.

Lemma true_div_ok (x y : R) : y <> 0 -> true_div x y = Ok (x / y).
Proof. intros H. unfold true_div. destruct (Req_dec_T y 0); [contradiction|reflexivity]. Qed.

(** ** [ftopsis] on well-shaped input *)

Lemma set_nth_app {A : Type} (pre post : list A) (x y : A) :
  set_nth (pre ++ x :: post) (length pre) y = pre ++ y :: post.
Proof. induction pre as [|a t IH]; simpl; [reflexivity|]. now rewrite IH. Qed.

Lemma index_app_mid {A : Type} (pre post : list A) (x : A) :
  index (pre ++ x :: post) (length pre) = Ok x.
Proof.
  unfold index. rewrite nth_error_app2 by lia. now rewrite Nat.sub_diag.
Qed.

Lemma append_loop {A : Type} (post : list (list A)) :
  forall (pre : list (list A)) (cpre cpost : list A),
    length pre = length cpre -> length post = length cpost ->
    foldM (fun R i =>
             Ri <- index R i ;;
             c <- index (cpre ++ cpost) i ;;
             Ok (set_nth R i (Ri ++ [c])))
          (seq (length pre) (length post)) (pre ++ post)
    = Ok (pre ++ snoc_each post cpost).
Proof.
  induction post as [|r post IH]; intros pre cpre cpost Hpre Hpost; simpl.
  - reflexivity.
  - destruct cpost as [|c cpost]; [discriminate|]. simpl in Hpost.
    rewrite index_app_mid. simpl.
    rewrite Hpre, index_app_mid. simpl. rewrite <- Hpre.
    rewrite set_nth_app.
    change (pre ++ (r ++ [c]) :: post) with (pre ++ [r ++ [c]] ++ post).
    rewrite app_assoc.
    replace (S (length pre)) with (length (pre ++ [r ++ [c]]))
      by (rewrite length_app; simpl; lia).
    change (cpre ++ c :: cpost) with (cpre ++ [c] ++ cpost).
    rewrite (app_assoc cpre).
    rewrite IH.
    + now rewrite <- app_assoc.
    + rewrite !length_app. simpl. lia.
    + lia.
Qed.

Lemma snoc_each_map_seq {A : Type} (f : nat -> nat -> A) (k m a : nat) :
  snoc_each (map (fun i => map (fun j => f i j) (range k)) (seq a m))
            (map (fun i => f i k) (seq a m))
  = map (fun i => map (fun j => f i j) (range (S k))) (seq a m).
Proof.
  revert a. induction m as [|m IH]; intros a; [reflexivity|].
  cbn [seq map snoc_each]. rewrite IH. f_equal. rewrite range_S. now rewrite map_app.
Qed.

Lemma snoc_each_tab {A : Type} (f : nat -> nat -> A) (m k : nat) :
  snoc_each (tab f m k) (map (fun i => f i k) (range m)) = tab f m (S k).
Proof. apply snoc_each_map_seq. Qed.

Lemma append_loop0 {A : Type} (X : list (list A)) (col : list A) (m : nat) :
  length X = m -> length col = m ->
  foldM (fun R i =>
           Ri <- index R i ;;
           c <- index col i ;;
           Ok (set_nth R i (Ri ++ [c]))) (range m) X
  = Ok (snoc_each X col).
Proof.
  intros HX Hc. subst m.
  apply (append_loop X [] [] col); [reflexivity|congruence].
Qed.

Lemma length_tab {A : Type} (f : nat -> nat -> A) (m n : nat) :
  length (tab f m n) = m.
Proof. unfold tab. now rewrite length_map, length_range. Qed.

Lemma ft_denom_neq_0 (M : matrix) (j : nat) : ft_denom M j <> 0.
Proof. unfold ft_denom. destruct (Req_dec_T (ft_norm M j) 0); [lra|assumption]. Qed.

Tactic Notation "step_mapM" constr(g) "as" ident(i) ident(Hi) :=
  match goal with
  | |- bind (mapM ?f ?l) ?k = _ =>
      let H := fresh in
      assert (H : mapM f l = Ok (map g l));
      [apply mapM_pure; intros i Hi; apply in_range in Hi
      | rewrite H; clear H; cbn [bind]]
  end.

Lemma ft_R_state_pos (M : matrix) (k : nat) :
  (0 < k)%nat -> ft_R_state M k = tab (ft_R M) (ft_rows M) k.
Proof. destruct k; [lia|reflexivity]. Qed.

Lemma py_max_cons (l : list R) : l <> [] -> py_max l = Ok (Rmax_list l).
Proof. destruct l; [congruence|reflexivity]. Qed.

Lemma py_min_cons (l : list R) : l <> [] -> py_min l = Ok (Rmin_list l).
Proof. destruct l; [congruence|reflexivity]. Qed.

Lemma map_range_neq_nil {A : Type} (f : nat -> A) (m : nat) :
  (0 < m)%nat -> map f (range m) <> [].
Proof.
  intros H E. apply (f_equal (@length A)) in E.
  rewrite length_map, length_range in E. simpl in E. lia.
Qed.

Lemma index_cell (M : matrix) (i j : nat) :
  (i < length M)%nat ->
  Forall (fun r => (ft_cols M <= length r)%nat) M ->
  (j < ft_cols M)%nat ->
  (row <- index M i ;; c <- index row j ;; Ok (score c)) = Ok (ft_S M i j).
Proof.
  intros Hi Hrows Hj.
  rewrite (index_nth M i []) by assumption. cbn [bind].
  rewrite (index_nth _ j dPFS).
  - reflexivity.
  - rewrite Forall_forall in Hrows.
    specialize (Hrows (nth i M []) (nth_In _ _ Hi)). lia.
Qed.

(** The first two stages of [ftopsis], shared by the proofs below: the score
    matrix and the normalisation loop. *)
Ltac ft_stage_S M m n :=
  step_mapM (fun i => map (fun j => ft_S M i j) (range n)) as i Hi;
  [ apply mapM_pure; intros j Hj%in_range; now apply index_cell
  | fold (tab (ft_S M) m n) ].

Ltac ft_stage_R M m n :=
  let HR := fresh "HR" in
  match goal with
  | |- bind ?c _ = _ => assert (HR : c = Ok (ft_R_state M n))
  end;
  [ unfold range at 3;
    change (@nil (list R)) with (ft_R_state M 0);
    apply (foldM_seq_inv _ (ft_R_state M) n 0%nat);
    intros k Hk;
    step_mapM (fun i => ft_S M i k ^ 2) as i Hi;
    [ rewrite index_tab by assumption; cbn [bind];
      rewrite index_map_range by lia; reflexivity | ];
    rewrite math_sqrt_nonneg by apply sum_sq_nonneg; cbn [bind];
    fold m; fold (ft_norm M k); cbv zeta; fold (ft_denom M k);
    step_mapM (fun i => ft_R M i k) as i Hi;
    [ rewrite index_tab by assumption; cbn [bind];
      rewrite index_map_range by lia; cbn [bind];
      apply true_div_ok, ft_denom_neq_0 | ];
    destruct k as [|k]; cbn [Nat.eqb];
    [ rewrite (mapM_pure _ (fun i => [ft_R M i 0%nat]));
      [ reflexivity | intros i Hi%in_range; now rewrite index_map_range ]
    | rewrite (append_loop0 _ _ m);
      [ cbn [ft_R_state]; fold m; now rewrite snoc_each_tab
      | cbn [ft_R_state]; apply length_tab
      | now rewrite length_map, length_range ] ]
  | rewrite HR; clear HR; cbn [bind] ].

Section FtopsisRuns.
Variable sort_values : DataFrame -> DataFrame.

(** With at least one row, rows at least as long as the first and enough
    weights, every stage succeeds and the table is built from the stage
    functions [ft_D_plus], [ft_D_minus] and [ft_CC]. *)
Lemma ftopsis_frame (M : matrix) (w : list R) (alts : list string) :
  (0 < length M)%nat ->
  Forall (fun r => (ft_cols M <= length r)%nat) M ->
  (ft_cols M <= length w)%nat ->
  ftopsis sort_values M w alts =
  (df <- new_DataFrame alts (map (ft_D_plus M w) (range (ft_rows M)))
                            (map (ft_D_minus M w) (range (ft_rows M)))
                            (map (ft_CC M w) (range (ft_rows M))) ;;
   Ok (sort_values df)).
Proof.
  intros Hm Hrows Hw.
  unfold ftopsis.
  rewrite (index_nth M 0 []) by assumption. cbn [bind].
  fold (ft_cols M). fold (ft_rows M).
  set (m := ft_rows M) in *. set (n := ft_cols M) in *.
  ft_stage_S M m n.
  ft_stage_R M m n.
  (* V *)
  step_mapM (fun i => map (fun j => ft_V M w i j) (range n)) as i Hi.
  { apply mapM_pure. intros j Hj%in_range.
    rewrite ft_R_state_pos by lia. fold m.
    rewrite index_tab by assumption. cbn [bind].
    rewrite index_map_range by assumption. cbn [bind].
    rewrite (index_nth w j 0) by lia. reflexivity. }
  fold (tab (ft_V M w) m n).
  (* ideals *)
  step_mapM (ft_v_plus M w) as j Hj.
  { rewrite (mapM_pure _ (fun i => ft_V M w i j)).
    - cbn [bind]. apply py_max_cons, map_range_neq_nil. exact Hm.
    - intros i Hi%in_range. rewrite index_tab by assumption. cbn [bind].
      now rewrite index_map_range. }
  step_mapM (ft_v_minus M w) as j Hj.
  { rewrite (mapM_pure _ (fun i => ft_V M w i j)).
    - cbn [bind]. apply py_min_cons, map_range_neq_nil. exact Hm.
    - intros i Hi%in_range. rewrite index_tab by assumption. cbn [bind].
      now rewrite index_map_range. }
  (* distances *)
  step_mapM (fun i => (ft_D_plus M w i, ft_D_minus M w i)) as i Hi.
  { rewrite (mapM_pure _ (fun j => (ft_V M w i j - ft_v_plus M w j) ^ 2)).
    2:{ intros j Hj%in_range. rewrite index_tab by assumption. cbn [bind].
        rewrite !index_map_range by assumption. reflexivity. }
    cbn [bind].
    rewrite math_sqrt_nonneg by apply sum_sq_nonneg. cbn [bind].
    rewrite (mapM_pure _ (fun j => (ft_V M w i j - ft_v_minus M w j) ^ 2)).
    2:{ intros j Hj%in_range. rewrite index_tab by assumption. cbn [bind].
        rewrite !index_map_range by assumption. reflexivity. }
    cbn [bind].
    rewrite math_sqrt_nonneg by apply sum_sq_nonneg. reflexivity. }
  rewrite !map_map. cbn [fst snd].
  (* closeness *)
  step_mapM (ft_CC M w) as i Hi.
  { rewrite !index_map_range by assumption. cbn [bind].
    unfold ft_CC.
    destruct (Req_dec_T (ft_D_plus M w i + ft_D_minus M w i) 0);
      [reflexivity|].
    now apply true_div_ok. }
  reflexivity.
Qed.

Lemma ftopsis_ok (M : matrix) (w : list R) (alts : list string) :
  (0 < length M)%nat ->
  Forall (fun r => (ft_cols M <= length r)%nat) M ->
  (ft_cols M <= length w)%nat ->
  length alts = length M ->
  ftopsis sort_values M w alts = Ok (sort_values (ft_table M w alts)).
Proof.
  intros Hm Hrows Hw Halts.
  rewrite ftopsis_frame by assumption.
  unfold new_DataFrame.
  rewrite !length_map, !length_range, Halts. unfold ft_rows.
  rewrite !Nat.eqb_refl. reflexivity.
Qed.

(** A label sequence of the wrong length makes the frame constructor
    fail. *)
Lemma ftopsis_labels_mismatch (M : matrix) (w : list R) (alts : list string) :
  (0 < length M)%nat ->
  Forall (fun r => (ft_cols M <= length r)%nat) M ->
  (ft_cols M <= length w)%nat ->
  length alts <> length M ->
  ftopsis sort_values M w alts = Raise ValueError.
Proof.
  intros Hm Hrows Hw Halts.
  rewrite ftopsis_frame by assumption.
  unfold new_DataFrame.
  rewrite !length_map, !length_range. unfold ft_rows.
  destruct (Nat.eqb_spec (length alts) (length M)); [contradiction|].
  reflexivity.
Qed.

(** Too few weights: the first row of [V] already fails at the first
    column that has no weight. *)
Lemma ftopsis_short_weights (M : matrix) (w : list R) (alts : list string) :
  (0 < length M)%nat ->
  Forall (fun r => (ft_cols M <= length r)%nat) M ->
  (length w < ft_cols M)%nat ->
  ftopsis sort_values M w alts = Raise IndexError.
Proof.
  intros Hm Hrows Hw.
  unfold ftopsis.
  rewrite (index_nth M 0 []) by assumption. cbn [bind].
  fold (ft_cols M). fold (ft_rows M).
  set (m := ft_rows M) in *. set (n := ft_cols M) in *.
  ft_stage_S M m n.
  ft_stage_R M m n.
  match goal with
  | |- bind ?c _ = _ => assert (HV : c = Raise IndexError)
  end.
  { rewrite (range_split m 0) by exact Hm.
    apply mapM_raise; [intros y []|].
    rewrite (range_split n (length w)) by exact Hw.
    apply mapM_raise.
    - intros j Hj%in_range.
      rewrite ft_R_state_pos by lia. fold m.
      rewrite index_tab by assumption. cbn [bind].
      rewrite index_map_range by lia. cbn [bind].
      rewrite (index_nth w j 0) by lia. cbn [bind]. eauto.
    - rewrite ft_R_state_pos by lia. fold m.
      rewrite index_tab by assumption. cbn [bind].
      rewrite index_map_range by lia. cbn [bind].
      rewrite index_out by lia. reflexivity. }
  rewrite HV. reflexivity.
Qed.
End FtopsisRuns.

(** ** The degenerate denominators *)

Lemma sum_zero_all_zero (l : list R) :
  Forall (fun x => 0 <= x) l -> sum l = 0 -> Forall (fun x => x = 0) l.
Proof.
  induction 1 as [|x t Hx Ht IH]; intros Hs; [constructor|].
  rewrite sum_cons in Hs.
  pose proof (sum_nonneg t Ht) as Hn.
  constructor; [lra|]. apply IH. lra.
Qed.

Lemma ft_zero_norm_column (M : matrix) (j : nat) :
  ft_norm M j = 0 ->
  ft_denom M j = 1 /\ forall i, (i < ft_rows M)%nat -> ft_R M i j = 0.
Proof.
  intros Hn. split.
  - unfold ft_denom. destruct (Req_dec_T (ft_norm M j) 0); [reflexivity|contradiction].
  - intros i Hi.
    assert (Hd : ft_denom M j = 1).
    { unfold ft_denom. destruct (Req_dec_T (ft_norm M j) 0); [reflexivity|contradiction]. }
    unfold ft_norm in Hn. apply sqrt_eq_0 in Hn; [|apply sum_sq_nonneg].
    apply sum_zero_all_zero in Hn.
    + rewrite Forall_map, Forall_forall in Hn.
      specialize (Hn i (proj2 (in_range _ _) Hi)). cbv beta in Hn.
      unfold ft_R. rewrite Hd.
      assert (ft_S M i j = 0) by nra. lra.
    + apply Forall_map, Forall_forall. intros x _. apply pow2_ge_0.
Qed.

Lemma ft_CC_zero_distance (M : matrix) (w : list R) (i : nat) :
  ft_D_plus M w i + ft_D_minus M w i = 0 -> ft_CC M w i = 0.
Proof.
  intros H. unfold ft_CC.
  destruct (Req_dec_T (ft_D_plus M w i + ft_D_minus M w i) 0);
    [reflexivity|contradiction].
Qed.

Lemma in_zip_rows_seq (f g h : nat -> R) :
  forall k a alts r,
    In r (zip_rows alts (map f (seq a k)) (map g (seq a k)) (map h (seq a k))) ->
    exists i, (a <= i < a + k)%nat /\
              D_plus r = f i /\ D_minus r = g i /\ CC r = h i.
Proof.
  induction k as [|k IH]; intros a alts r Hin.
  - destruct alts; simpl in Hin; contradiction.
  - destruct alts as [|x alts]; [simpl in Hin; contradiction|].
    cbn [seq map zip_rows] in Hin. destruct Hin as [<-|Hin].
    + exists a. cbn. repeat split; lia.
    + destruct (IH _ _ _ Hin) as (i & Hi & H1 & H2 & H3).
      exists i. repeat split; try assumption; lia.
Qed.

Lemma in_ft_table (M : matrix) (w : list R) (alts : list string) (r : RankingRow) :
  In r (ft_table M w alts) ->
  exists i, (i < ft_rows M)%nat /\ D_plus r = ft_D_plus M w i /\
            D_minus r = ft_D_minus M w i /\ CC r = ft_CC M w i.
Proof.
  intros Hin. unfold ft_table, range in Hin.
  destruct (in_zip_rows_seq _ _ _ _ _ _ _ Hin) as (i & Hi & H).
  exists i. split; [lia|exact H].
Qed.

Lemma is_matrix_rows_ge {A : Type} (m n : nat) (M : list (list A)) :
  is_matrix m n M -> (0 < m)%nat ->
  length (nth 0 M []) = n /\ Forall (fun r => (n <= length r)%nat) M.
Proof.
  intros [Hl HF] Hm. split.
  - rewrite Forall_forall in HF. apply HF, nth_In. lia.
  - eapply Forall_impl; [|exact HF]. intros r Hr. cbv beta in Hr. lia.
Qed.

(** ** Sorting by [CC], descending *)

Lemma insert_before_ties_perm (r : RankingRow) (l : DataFrame) :
  Permutation (r :: l) (insert_before_ties r l).
Proof.
  induction l as [|x t IH]; simpl; [apply Permutation_refl|].
  destruct (Rle_dec (CC x) (CC r)); [apply Permutation_refl|].
  eapply perm_trans; [apply perm_swap|]. now apply perm_skip.
Qed.

Lemma insert_before_ties_sorted (r : RankingRow) (l : DataFrame) :
  Sorted CC_desc l -> Sorted CC_desc (insert_before_ties r l).
Proof.
  induction 1 as [|x t Ht IH Hd]; simpl.
  - repeat constructor.
  - destruct (Rle_dec (CC x) (CC r)) as [Hle|Hgt].
    + constructor; [now constructor|]. constructor. exact Hle.
    + constructor; [exact IH|].
      destruct t as [|y t']; simpl.
      * constructor. unfold CC_desc. lra.
      * destruct (Rle_dec (CC y) (CC r)).
        -- constructor. unfold CC_desc. lra.
        -- constructor. now inversion Hd.
Qed.

Lemma sort_ties_in_order_contract : sort_values_contract sort_ties_in_order.
Proof.
  intros df. unfold sort_ties_in_order.
  induction df as [|r t [IHp IHs]]; simpl.
  - split; constructor.
  - split.
    + eapply perm_trans; [apply perm_skip, IHp|apply insert_before_ties_perm].
    + now apply insert_before_ties_sorted.
Qed.

Lemma bind_Ok_inv {A B : Type} (c : result A) (k : A -> result B) (b : B) :
  bind c k = Ok b -> exists a, c = Ok a /\ k a = Ok b.
Proof.
  destruct c as [a| |]; simpl; intros H; try discriminate. now exists a.
Qed.

(** Whatever [ftopsis] returns is an output of [sort_values]. *)
Lemma ftopsis_returns_sorted_frame sort_values M w alts out :
  ftopsis sort_values M w alts = Ok out -> exists df, out = sort_values df.
Proof.
  unfold ftopsis. intros H.
  repeat (apply bind_Ok_inv in H; destruct H as (? & _ & H)).
  injection H as <-. eauto.
Qed.

(** ** [fahp_weights] on a square matrix with non-negative [mu] *)

Lemma map_nth_range_f {A B : Type} (F : A -> B) (l : list A) (d : A) :
  map (fun i => F (nth i l d)) (range (length l)) = map F l.
Proof.
  rewrite <- (map_nth_range l d) at 2. now rewrite map_map.
Qed.

Lemma fold_left_Rmult (l : list R) (a : R) :
  fold_left Rmult l a = a * product l.
Proof.
  revert a. induction l as [|x t IH]; intros a; simpl; [lra|].
  rewrite IH. lra.
Qed.

Lemma product_nonneg (l : list R) :
  Forall (fun x => 0 <= x) l -> 0 <= product l.
Proof.
  induction 1 as [|x t Hx _ IH]; simpl; [lra|]. now apply Rmult_le_pos.
Qed.

Lemma INR_pos_neq (n : nat) : (1 <= n)%nat -> INR n <> 0.
Proof. intros H. apply not_0_INR. lia. Qed.

Lemma float_pow_root (n : nat) (P : R) :
  (1 <= n)%nat -> 0 <= P -> float_pow P (1 / INR n) = Ok (gm_root n P).
Proof.
  intros Hn HP. unfold float_pow, gm_root.
  assert (0 < 1 / INR n).
  { apply Rdiv_lt_0_compat; [lra|]. apply lt_0_INR. lia. }
  destruct (Req_dec_T (1 / INR n) 0); [lra|].
  destruct (Req_dec_T P 0).
  - destruct (Rlt_dec (1 / INR n) 0); [lra|reflexivity].
  - destruct (Rlt_dec 0 P); [reflexivity|lra].
Qed.

Lemma gm_root_nonneg (n : nat) (P : R) : 0 <= gm_root n P.
Proof.
  unfold gm_root. destruct (Req_dec_T P 0); [lra|].
  unfold Rpower. left. apply exp_pos.
Qed.

Lemma gm_root_pow (n : nat) (P : R) :
  (1 <= n)%nat -> 0 <= P -> gm_root n P ^ n = P.
Proof.
  intros Hn HP. unfold gm_root. destruct (Req_dec_T P 0) as [->|HP0].
  - destruct n; [lia|]. simpl. lra.
  - rewrite <- Rpower_pow by (unfold Rpower; apply exp_pos).
    rewrite Rpower_mult.
    replace (1 / INR n * INR n) with 1 by (field; now apply INR_pos_neq).
    apply Rpower_1. lra.
Qed.

Lemma fahp_weights_nonneg_mu (M : matrix) (n : nat) :
  (1 <= n)%nat -> is_matrix n n M ->
  Forall (Forall (fun p => 0 <= mu p)) M ->
  fahp_weights M =
  Ok (if Req_dec_T (sum (fahp_g M)) 0 then repeat (1 / INR n) n
      else map (fun gi => gi / sum (fahp_g M)) (fahp_g M)).
Proof.
  intros Hn [Hlen Hrows] Hmu.
  unfold fahp_weights. rewrite Hlen.
  step_mapM (fun i => map (fun j => mu (cell M i j)) (range n)) as i Hi.
  { apply mapM_pure. intros j Hj%in_range.
    rewrite (index_nth M i []) by lia. cbn [bind].
    rewrite (index_nth _ j dPFS); [reflexivity|].
    rewrite Forall_forall in Hrows. rewrite (Hrows (nth i M [])); [assumption|].
    apply nth_In. lia. }
  fold (tab (fun i j => mu (cell M i j)) n n).
  step_mapM (fun i => gm_root n (product (map mu (nth i M [])))) as i Hi.
  { assert (Hrow : length (nth i M []) = n).
    { rewrite Forall_forall in Hrows. apply Hrows, nth_In. lia. }
    rewrite (foldM_seq_inv _
               (fun k => fold_left Rmult
                           (map (fun j => mu (cell M i j)) (range k)) 1) n 0%nat).
    - cbn [bind]. rewrite true_div_ok by now apply INR_pos_neq. cbn [bind].
      cbn [Nat.add]. rewrite fold_left_Rmult, Rmult_1_l.
      unfold cell. rewrite <- Hrow at 1.
      rewrite (map_nth_range_f mu (nth i M []) dPFS).
      apply float_pow_root; [assumption|].
      apply product_nonneg, Forall_map.
      rewrite Forall_forall in Hmu. apply Hmu, nth_In. lia.
    - intros k Hk. rewrite index_tab by assumption. cbn [bind].
      rewrite index_map_range by lia. cbn [bind].
      rewrite range_S, map_app, fold_left_app. reflexivity. }
  assert (Hg : map (fun i => gm_root n (product (map mu (nth i M []))))
                  (range n) = fahp_g M).
  { unfold fahp_g. rewrite <- Hlen.
    apply (map_nth_range_f
             (fun row => gm_root (length M) (product (map mu row)))). }
  rewrite Hg.
  destruct (Req_dec_T (sum (fahp_g M)) 0); [|reflexivity].
  rewrite true_div_ok by now apply INR_pos_neq. reflexivity.
Qed.

Lemma index_map {A B : Type} (f : A -> B) (l : list A) (i : nat) :
  index (map f l) i = (x <- index l i ;; Ok (f x)).
Proof.
  unfold index. rewrite nth_error_map. now destruct (nth_error l i).
Qed.

Lemma index_mu (M : matrix) (i j : nat) :
  (row <- index M i ;; c <- index row j ;; Ok (mu c))
  = (row <- index (map (map mu) M) i ;; index row j).
Proof.
  rewrite index_map. destruct (index M i) as [row| |]; simpl; try reflexivity.
  now rewrite index_map.
Qed.

(** The weights are a function of the [mu] components alone. *)
Lemma fahp_weights_mu_only (M M' : matrix) :
  map (map mu) M' = map (map mu) M -> fahp_weights M' = fahp_weights M.
Proof.
  intros H. unfold fahp_weights.
  assert (Hl : length M' = length M).
  { apply (f_equal (@length (list R))) in H. now rewrite !length_map in H. }
  rewrite Hl. f_equal.
  apply mapM_ext_in. intros i _. apply mapM_ext_in. intros j _.
  now rewrite !index_mu, H.
Qed.

Lemma sum_map_div (l : list R) (s : R) :
  sum (map (fun x => x / s) l) = sum l / s.
Proof.
  induction l as [|x t IH]; simpl.
  - rewrite sum_nil. unfold Rdiv. lra.
  - rewrite !sum_cons, IH. unfold Rdiv. lra.
Qed.

Lemma sum_repeat (x : R) (n : nat) : sum (repeat x n) = INR n * x.
Proof.
  induction n as [|n IH].
  - simpl. rewrite sum_nil. lra.
  - cbn [repeat]. rewrite sum_cons, IH, S_INR. lra.
Qed.

Lemma fahp_g_nonneg (M : matrix) : Forall (fun x => 0 <= x) (fahp_g M).
Proof.
  unfold fahp_g. apply Forall_map, Forall_forall. intros row _.
  apply gm_root_nonneg.
Qed.

Lemma fahp_g_geometric_mean (M : matrix) (n : nat) :
  (1 <= n)%nat -> is_matrix n n M ->
  Forall (Forall (fun p => 0 <= mu p)) M ->
  Forall2 (fun row gi => is_geometric_mean (map mu row) gi) M (fahp_g M).
Proof.
  intros Hn [Hlen Hrows] Hmu. unfold fahp_g. rewrite Hlen. clear Hlen.
  induction M as [|row M IH]; simpl; constructor.
  - apply Forall_cons_iff in Hrows. destruct Hrows as [Hr _].
    apply Forall_cons_iff in Hmu. destruct Hmu as [Hm _].
    unfold is_geometric_mean. split; [apply gm_root_nonneg|].
    rewrite length_map, Hr.
    apply gm_root_pow; [assumption|].
    now apply product_nonneg, Forall_map.
  - apply IH; [now inversion Hrows|now inversion Hmu].
Qed.

Lemma valid_matrix_nonneg_mu (M : matrix) :
  valid_matrix M -> Forall (Forall (fun p => 0 <= mu p)) M.
Proof.
  unfold valid_matrix. intros H.
  eapply Forall_impl; [|exact H]. intros row Hrow.
  eapply Forall_impl; [|exact Hrow]. intros p (Hp & _). tauto.
Qed.

(** The empty matrix: the sum of no terms is [0], and [1.0 / 0] raises. *)
Lemma fahp_weights_empty : fahp_weights [] = Raise ZeroDivisionError.
Proof.
  unfold fahp_weights, true_div, sum. simpl.
  destruct (Req_dec_T 0 0); [|lra]. now destruct (Req_dec_T 0 0).
Qed.

(** ** The experts' values at one cell *)

Lemma nth_map_range {A : Type} (g : nat -> A) (n i : nat) (d : A) :
  (i < n)%nat -> nth i (map g (range n)) d = g i.
Proof.
  intros H. pose proof (index_map_range g n i H) as E.
  rewrite (index_nth _ i d) in E by (now rewrite length_map, length_range).
  now injection E.
Qed.

Lemma cell_tab (f : nat -> nat -> PFS) (r c i j : nat) :
  (i < r)%nat -> (j < c)%nat -> cell (tab f r c) i j = f i j.
Proof.
  intros Hi Hj. unfold cell, tab.
  rewrite (nth_map_range _ r i []) by assumption.
  now rewrite nth_map_range.
Qed.

Lemma is_matrix_tab {A : Type} (f : nat -> nat -> A) (r c : nat) :
  is_matrix r c (tab f r c).
Proof.
  split; [apply length_tab|].
  unfold tab. apply Forall_map, Forall_forall. intros i _.
  now rewrite length_map, length_range.
Qed.

Lemma expert_column (f : PFS -> R) (experts : list matrix) (r c i j : nat) :
  Forall (is_matrix r c) experts -> (i < r)%nat -> (j < c)%nat ->
  mapM (fun e =>
          M <- index experts e ;;
          row <- index M i ;;
          x <- index row j ;;
          Ok (f x)) (range (length experts))
  = Ok (map (fun M => f (cell M i j)) experts).
Proof.
  intros Hshape Hi Hj.
  rewrite (mapM_pure _ (fun e => f (cell (nth e experts []) i j))).
  - now rewrite (map_nth_range_f (fun M => f (cell M i j)) experts []).
  - intros e He%in_range.
    rewrite (index_nth experts e []) by assumption. cbn [bind].
    rewrite Forall_forall in Hshape.
    destruct (Hshape (nth e experts []) (nth_In _ _ He)) as [Hl Hrows].
    rewrite (index_nth _ i []) by lia. cbn [bind].
    rewrite (index_nth _ j dPFS); [reflexivity|].
    rewrite Forall_forall in Hrows.
    rewrite (Hrows (nth i (nth e experts []) [])); [assumption|].
    apply nth_In. lia.
Qed.

(** ** Aggregation *)

Lemma aggregate_cell (experts : list matrix) (r c i j : nat) :
  (1 <= length experts)%nat ->
  Forall (is_matrix r c) experts -> (i < r)%nat -> (j < c)%nat ->
  (mus <- mapM (fun e =>
                  M <- index experts e ;;
                  row <- index M i ;;
                  x <- index row j ;;
                  Ok (mu x)) (range (length experts)) ;;
   mu_avg <- true_div (sum mus) (INR (length experts)) ;;
   nus <- mapM (fun e =>
                  M <- index experts e ;;
                  row <- index M i ;;
                  x <- index row j ;;
                  Ok (nu x)) (range (length experts)) ;;
   nu_avg <- true_div (sum nus) (INR (length experts)) ;;
   PFS_new mu_avg nu_avg)
  = PFS_new (mean_mu experts i j) (mean_nu experts i j).
Proof.
  intros HE Hshape Hi Hj.
  rewrite (expert_column mu experts r c) by assumption. cbn [bind].
  rewrite true_div_ok by now apply INR_pos_neq. cbn [bind].
  rewrite (expert_column nu experts r c) by assumption. cbn [bind].
  rewrite true_div_ok by now apply INR_pos_neq. cbn [bind].
  unfold mean_mu, mean_nu, arithmetic_mean. now rewrite !length_map.
Qed.

Lemma aggregate_experts_cells (experts : list matrix) (r c : nat) :
  (1 <= length experts)%nat ->
  Forall (is_matrix r c) experts ->
  aggregate_experts r c (length experts) experts
  = mapM (fun i =>
      mapM (fun j => PFS_new (mean_mu experts i j) (mean_nu experts i j))
           (range c)) (range r).
Proof.
  intros HE Hshape. unfold aggregate_experts.
  apply mapM_ext_in. intros i Hi%in_range.
  apply mapM_ext_in. intros j Hj%in_range.
  now apply (aggregate_cell experts r c).
Qed.

Lemma mapM_dichotomy {A B : Type} (f : A -> result B) (l : list A) (e : exn) :
  (forall x, In x l -> (exists v, f x = Ok v) \/ f x = Raise e) ->
  ((forall x, In x l -> exists v, f x = Ok v) /\ exists vs, mapM f l = Ok vs)
  \/ ((exists x, In x l /\ f x = Raise e) /\ mapM f l = Raise e).
Proof.
  induction l as [|x t IH]; intros H.
  - left. split; [intros x []|now exists []].
  - destruct (H x (or_introl eq_refl)) as [[v Hv]|Hx].
    + destruct IH as [[Hall [vs Hvs]]|[(y & Hy & Hfy) Hr]].
      * intros y Hy. apply H. now right.
      * left. split.
        -- intros y [<-|Hy]; [eauto|now apply Hall].
        -- exists (v :: vs). simpl. now rewrite Hv, Hvs.
      * right. split; [exists y; split; [now right|assumption]|].
        simpl. now rewrite Hv, Hr.
    + right. split; [exists x; split; [now left|assumption]|].
      simpl. now rewrite Hx.
Qed.

Lemma mapM_some_raise {A B : Type} (f : A -> result B) (l : list A) (e : exn) :
  (forall x, In x l -> (exists v, f x = Ok v) \/ f x = Raise e) ->
  (exists x, In x l /\ f x = Raise e) ->
  mapM f l = Raise e.
Proof.
  intros H (x & Hx & Hfx).
  destruct (mapM_dichotomy f l e H) as [[Hall _]|[_ Hr]]; [|exact Hr].
  destruct (Hall x Hx) as [v Hv]. congruence.
Qed.

Lemma PFS_new_cases (m n : R) :
  (m ^ 2 + n ^ 2 <= 1 + EPS /\ PFS_new m n = Ok (mkPFS m n))
  \/ (1 + EPS < m ^ 2 + n ^ 2 /\ PFS_new m n = Raise ValueError).
Proof.
  unfold PFS_new. destruct (Rlt_dec (1 + EPS) (m ^ 2 + n ^ 2)).
  - right. now split.
  - left. split; [lra|reflexivity].
Qed.

(** ** Agreement analysis on experts with matrices of one shape *)

Lemma agreement_report (experts : list matrix) (r c : nat) :
  (1 <= r)%nat -> experts <> [] -> Forall (is_matrix r c) experts ->
  expert_agreement_analysis experts =
  Ok (mkAgreement (round4 (avg_variance_exact r c experts))
                  (round4 (1 - Rmin (avg_variance_exact r c experts) 1))
                  (seviye_of (avg_variance_exact r c experts))).
Proof.
  intros Hr Hne Hshape.
  destruct experts as [|e0 rest]; [contradiction|].
  assert (H0 : is_matrix r c e0) by now inversion Hshape.
  destruct H0 as [Hl0 Hrows0].
  destruct e0 as [|row0 e0']; [simpl in Hl0; lia|].
  assert (Hc : length row0 = c) by now inversion Hrows0.
  unfold expert_agreement_analysis. lazy iota beta.
  set (experts := @cons matrix (row0 :: e0') rest) in *.
  assert (HE : (1 <= length experts)%nat) by (simpl; lia).
  rewrite (index_nth experts 0 []) by lia. cbn [bind].
  rewrite (index_nth (nth 0 experts []) 0 []) by (simpl; lia). cbn [bind].
  change (nth 0 (nth 0 experts []) []) with row0.
  change (nth 0 experts []) with (row0 :: e0').
  rewrite Hl0, Hc.
  step_mapM (fun i => map (fun j => cell_variance experts i j) (range c)) as i Hi.
  { apply mapM_pure. intros j Hj%in_range.
    rewrite (expert_column mu experts r c) by assumption. cbn [bind].
    rewrite (expert_column nu experts r c) by assumption. cbn [bind].
    rewrite !length_map.
    rewrite !true_div_ok by now apply INR_pos_neq. cbn [bind].
    rewrite !true_div_ok by now apply INR_pos_neq. cbn [bind].
    unfold cell_variance, variance, arithmetic_mean.
    now rewrite !length_map. }
  fold (tab (cell_variance experts) r c).
  unfold avg_variance_exact.
  destruct (concat (tab (cell_variance experts) r c)) as [|v vs] eqn:Ev.
  - reflexivity.
  - rewrite true_div_ok by (apply INR_pos_neq; simpl; lia). reflexivity.
Qed.

(** ** Rounding *)

Lemma Int_part_IZR (z : Z) : Int_part (IZR z) = z.
Proof. symmetry. apply Int_part_spec. lra. Qed.

Lemma round_half_even_IZR (z : Z) : round_half_even (IZR z) = z.
Proof.
  unfold round_half_even. rewrite Int_part_IZR.
  destruct (Rlt_dec (IZR z - IZR z) (1 / 2)); [reflexivity|lra].
Qed.

Lemma round_half_even_near (x : R) :
  - (1 / 2) <= IZR (round_half_even x) - x <= 1 / 2.
Proof.
  unfold round_half_even.
  destruct (base_Int_part x) as [H1 H2].
  set (f := Int_part x) in *.
  destruct (Rlt_dec (x - IZR f) (1 / 2)); [lra|].
  destruct (Rlt_dec (1 / 2) (x - IZR f)).
  - rewrite plus_IZR. lra.
  - destruct (Z.even f); [lra|]. rewrite plus_IZR. lra.
Qed.

Lemma round4_near (x : R) : Rabs (round4 x - x) <= 5e-5.
Proof.
  unfold round4.
  pose proof (round_half_even_near (x * 10000)) as H.
  apply Rabs_le. lra.
Qed.

Lemma round4_0 : round4 0 = 0.
Proof.
  unfold round4. rewrite Rmult_0_l, (round_half_even_IZR 0). lra.
Qed.

Lemma round4_1 : round4 1 = 1.
Proof.
  unfold round4. replace (1 * 10000) with (IZR 10000) by lra.
  rewrite round_half_even_IZR. lra.
Qed.

Lemma seviye_of_cases (v : R) :
  (seviye_of v = Yuksek <-> v < 0.1)
  /\ (seviye_of v = Orta <-> 0.1 <= v < 0.2)
  /\ (seviye_of v = Dusuk <-> 0.2 <= v).
Proof.
  unfold seviye_of.
  destruct (Rlt_dec v 0.1); [|destruct (Rlt_dec v 0.2)];
    repeat split; intros; try discriminate; try reflexivity; lra.
Qed.

Lemma sum_all_zero (l : list R) : Forall (fun x => x = 0) l -> sum l = 0.
Proof.
  induction 1 as [|x t Hx _ IH]; [apply sum_nil|].
  rewrite sum_cons, Hx, IH. lra.
Qed.

Lemma product_zero_row (l : list R) :
  l <> [] -> Forall (fun x => x = 0) l -> product l = 0.
Proof.
  intros Hne H. destruct l as [|x t]; [contradiction|].
  inversion H as [|? ? Hx _]; subst. simpl. lra.
Qed.

Lemma gm_root_0 (n : nat) : gm_root n 0 = 0.
Proof. unfold gm_root. destruct (Req_dec_T 0 0); [reflexivity|lra]. Qed.

Lemma fahp_g_zero_matrix (M : matrix) (n : nat) :
  (1 <= n)%nat -> is_matrix n n M ->
  Forall (Forall (fun p => mu p = 0)) M ->
  Forall (fun x => x = 0) (fahp_g M).
Proof.
  intros Hn [Hlen Hrows] Hz. unfold fahp_g.
  apply Forall_map, Forall_forall. intros row Hin.
  rewrite Forall_forall in Hrows, Hz.
  rewrite product_zero_row; [apply gm_root_0| |].
  - intros E. apply (f_equal (@length R)) in E.
    rewrite length_map, (Hrows row Hin) in E. simpl in E. lia.
  - apply Forall_map. exact (Hz row Hin).
Qed.

(* ================================================================== *)
(** * The claims *)
(* ================================================================== *)

(** ** C3: construction of a PFS value *)

(** C3, as stated, fails: the claim says that construction fails whenever a
    component lies outside [[0,1]].  For [mu = -0.5], [nu = 0] the component
    [mu] is outside the interval, yet [mu^2 + nu^2 = 0.25] passes the only
    test [__post_init__] makes and the value is constructed. *)
Lemma C3_negative_mu_is_accepted :
  ~ (PFS_new (-0.5) 0 = Raise ValueError <->
     (1 + 1e-9 < (-0.5) ^ 2 + 0 ^ 2
      \/ ~ (0 <= -0.5 <= 1) \/ ~ (0 <= 0 <= 1))).
Proof.
  intros [_ H].
  assert (E : PFS_new (-0.5) 0 = Raise ValueError).
  { apply H. right. left. lra. }
  unfold PFS_new, EPS in E.
  destruct (Rlt_dec (1 + 1e-9) ((-0.5) ^ 2 + 0 ^ 2)); [lra|discriminate].
Qed.

(** C3, amended: construction of a PFS value from [(mu, nu)] fails, with
    [ValueError], if and only if [mu^2 + nu^2 > 1 + 1e-9]; in every other
    case it returns the value with exactly these components.  The range of
    the components is not checked. *)
Theorem C3_construction_checks_only_the_pythagorean_sum :
  forall m n : R,
    (PFS_new m n = Raise ValueError <-> 1 + 1e-9 < m ^ 2 + n ^ 2)
    /\ (PFS_new m n = Ok (mkPFS m n) <-> m ^ 2 + n ^ 2 <= 1 + 1e-9).
Proof.
  intros m n. unfold PFS_new, EPS.
  destruct (Rlt_dec (1 + 1e-9) (m ^ 2 + n ^ 2)); repeat split; intros;
    try discriminate; try reflexivity; lra.
Qed.

(** ** C1 and C6: FAHP weights *)

(** C1: for a valid square consensus matrix of size [N >= 1],
    [fahp_weights] returns a vector [w] computed from the geometric means
    [g] of the [mu] components of the rows ([g_i >= 0] and
    [g_i ^ N = prod_j mu_ij]); the [nu] components are not used (any matrix
    with the same [mu] components gets the same answer); [w_i = g_i / sum g]
    (where that quotient is defined, i.e. [sum g <> 0]); [w] sums to 1
    within [1e-9] and has no negative entry. *)
Theorem C1_derive_weights (M : matrix) (n : nat) :
  (1 <= n)%nat -> is_matrix n n M -> valid_matrix M ->
  exists g w,
    fahp_weights M = Ok w
    /\ Forall2 (fun row gi => is_geometric_mean (map mu row) gi) M g
    /\ (forall M', map (map mu) M' = map (map mu) M -> fahp_weights M' = Ok w)
    /\ (sum g <> 0 -> w = map (fun gi => gi / sum g) g)
    /\ Rabs (sum w - 1) <= 1e-9
    /\ Forall (fun x => 0 <= x) w.
Proof.
  intros Hn Hsq Hvalid.
  pose proof (valid_matrix_nonneg_mu M Hvalid) as Hmu.
  pose proof (fahp_weights_nonneg_mu M n Hn Hsq Hmu) as Hw.
  pose proof (fahp_g_nonneg M) as Hg.
  pose proof (sum_nonneg _ Hg) as Hs.
  exists (fahp_g M). eexists. split; [exact Hw|].
  split; [now apply (fahp_g_geometric_mean M n)|].
  split; [intros M' HM'; now rewrite (fahp_weights_mu_only M M' HM')|].
  destruct (Req_dec_T (sum (fahp_g M)) 0) as [Hz|Hnz].
  - split; [intros; contradiction|]. split.
    + rewrite sum_repeat.
      replace (INR n * (1 / INR n) - 1) with 0
        by (field; now apply INR_pos_neq).
      rewrite Rabs_R0. lra.
    + apply Forall_forall. intros x Hx. apply repeat_spec in Hx. subst x.
      apply Rlt_le, Rdiv_lt_0_compat; [lra|]. apply lt_0_INR. lia.
  - split; [reflexivity|]. split.
    + rewrite sum_map_div.
      replace (sum (fahp_g M) / sum (fahp_g M) - 1) with 0 by (now field).
      rewrite Rabs_R0. lra.
    + apply Forall_map. eapply Forall_impl; [|exact Hg].
      intros x Hx. cbv beta.
      apply Rmult_le_pos; [assumption|].
      apply Rlt_le, Rinv_0_lt_compat. lra.
Qed.

(** C6: for an [N x N] matrix ([N >= 1], non-negative [mu]) whose
    geometric means sum to [0], [fahp_weights] returns the uniform vector
    [[1/N] * N]; in particular it does so for a matrix whose every cell has
    [mu = 0]. *)
Theorem C6_zero_sum_gives_uniform_weights (M : matrix) (n : nat) :
  (1 <= n)%nat -> is_matrix n n M ->
  (Forall (Forall (fun p => 0 <= mu p)) M -> sum (fahp_g M) = 0 ->
   fahp_weights M = Ok (repeat (1 / INR n) n))
  /\ (Forall (Forall (fun p => mu p = 0)) M ->
      fahp_weights M = Ok (repeat (1 / INR n) n)).
Proof.
  intros Hn Hsq.
  assert (H1 : Forall (Forall (fun p => 0 <= mu p)) M -> sum (fahp_g M) = 0 ->
               fahp_weights M = Ok (repeat (1 / INR n) n)).
  { intros Hmu Hz. rewrite (fahp_weights_nonneg_mu M n Hn Hsq Hmu).
    destruct (Req_dec_T (sum (fahp_g M)) 0); [reflexivity|contradiction]. }
  split; [exact H1|].
  intros Hzero. apply H1.
  - eapply Forall_impl; [|exact Hzero]. intros row Hrow.
    eapply Forall_impl; [|exact Hrow]. intros p Hp. cbv beta in Hp. lra.
  - apply sum_all_zero. now apply (fahp_g_zero_matrix M n).
Qed.

Lemma C1_derive_weights_witness :
  exists g w,
    fahp_weights EQ_2x2 = Ok w
    /\ Forall2 (fun row gi => is_geometric_mean (map mu row) gi) EQ_2x2 g
    /\ (forall M', map (map mu) M' = map (map mu) EQ_2x2 ->
                   fahp_weights M' = Ok w)
    /\ (sum g <> 0 -> w = map (fun gi => gi / sum g) g)
    /\ Rabs (sum w - 1) <= 1e-9
    /\ Forall (fun x => 0 <= x) w.
Proof.
  apply (C1_derive_weights EQ_2x2 2).
  - lia.
  - split; [reflexivity|]. repeat constructor.
  - repeat constructor; unfold EPS; simpl; lra.
Defined.

(** The scenario of two criteria with every judgment [EQ]: both weights
    are [0.5]. *)
Lemma fahp_weights_EQ_2x2 : fahp_weights EQ_2x2 = Ok [0.5; 0.5].
Proof.
  rewrite (fahp_weights_nonneg_mu EQ_2x2 2);
    [|lia|split; [reflexivity|repeat constructor]
     |repeat constructor; simpl; lra].
  unfold fahp_g. cbn [EQ_2x2 map length mu].
  set (g := gm_root 2 (product [0.70; 0.70])).
  assert (Hg : 0 < g).
  { unfold g, gm_root, product. cbn [fold_right].
    destruct (Req_dec_T (0.70 * (0.70 * 1)) 0); [lra|].
    unfold Rpower. apply exp_pos. }
  unfold sum. cbn [fold_left].
  destruct (Req_dec_T (0 + g + g) 0); [lra|].
  cbn [map].
  assert (E : g / (0 + g + g) = 0.5).
  { apply Rmult_eq_reg_r with (0 + g + g); [|lra].
    unfold Rdiv. rewrite Rmult_assoc, Rinv_l by lra. lra. }
  now rewrite E.
Qed.

Lemma C6_zero_sum_gives_uniform_weights_witness :
  fahp_weights zero_2x2 = Ok (repeat (1 / INR 2) 2).
Proof.
  apply (C6_zero_sum_gives_uniform_weights zero_2x2 2).
  - lia.
  - split; [reflexivity|]. repeat constructor.
  - repeat constructor.
Defined.

(** ** C4 and C9: FTOPSIS ranking *)

(** The stage functions read the weights only at the columns of the matrix. *)
Lemma ft_V_firstn (M : matrix) (w : list R) (i j : nat) :
  (j < ft_cols M)%nat -> ft_V M (firstn (ft_cols M) w) i j = ft_V M w i j.
Proof.
  intros Hj. unfold ft_V. rewrite nth_firstn.
  destruct (Nat.ltb_spec j (ft_cols M)); [reflexivity|lia].
Qed.

Lemma ft_table_ext (M : matrix) (w w' : list R) (alts : list string) :
  (forall i j, (j < ft_cols M)%nat -> ft_V M w' i j = ft_V M w i j) ->
  ft_table M w' alts = ft_table M w alts.
Proof.
  intros HV.
  assert (Hp : forall j, (j < ft_cols M)%nat -> ft_v_plus M w' j = ft_v_plus M w j).
  { intros j Hj. unfold ft_v_plus. f_equal. apply map_ext. intros i. now apply HV. }
  assert (Hm : forall j, (j < ft_cols M)%nat -> ft_v_minus M w' j = ft_v_minus M w j).
  { intros j Hj. unfold ft_v_minus. f_equal. apply map_ext. intros i. now apply HV. }
  assert (HDp : forall i, ft_D_plus M w' i = ft_D_plus M w i).
  { intros i. unfold ft_D_plus. do 2 f_equal. apply map_ext_in.
    intros j Hj%in_range. now rewrite HV, Hp. }
  assert (HDm : forall i, ft_D_minus M w' i = ft_D_minus M w i).
  { intros i. unfold ft_D_minus. do 2 f_equal. apply map_ext_in.
    intros j Hj%in_range. now rewrite HV, Hm. }
  unfold ft_table. f_equal; apply map_ext; intros i;
    [apply HDp|apply HDm|]. unfold ft_CC. now rewrite HDp, HDm.
Qed.

(** Two alternatives with the same judgments get the same row of numbers. *)
Lemma ft_same_row (M : matrix) (w : list R) (i i' : nat) :
  (forall j, cell M i j = cell M i' j) ->
  ft_D_plus M w i = ft_D_plus M w i'
  /\ ft_D_minus M w i = ft_D_minus M w i'
  /\ ft_CC M w i = ft_CC M w i'.
Proof.
  intros Hc.
  assert (HV : forall j, ft_V M w i j = ft_V M w i' j).
  { intros j. unfold ft_V, ft_R, ft_S. now rewrite Hc. }
  assert (HDp : ft_D_plus M w i = ft_D_plus M w i').
  { unfold ft_D_plus. do 2 f_equal. apply map_ext. intros j. now rewrite HV. }
  assert (HDm : ft_D_minus M w i = ft_D_minus M w i').
  { unfold ft_D_minus. do 2 f_equal. apply map_ext. intros j. now rewrite HV. }
  repeat split; try assumption. unfold ft_CC. now rewrite HDp, HDm.
Qed.

Lemma CC_desc_trans : Relations_1.Transitive CC_desc.
Proof. intros x y z. unfold CC_desc. lra. Qed.

(** Lengths of the sample inputs. *)
Ltac sample_length :=
  cbv [ft_cols ft_rows twins single length nth]; lia.

(** C4: on a well-shaped input [ftopsis] does not fail, whatever the numbers
    are: it returns the table built from the stage functions.  A column whose
    score norm is [0] gets the denominator [1] and a normalised column of
    zeros, and an alternative with [D+ + D- = 0] gets [CC = 0]. *)
Theorem C4_rank_degenerate_denominators
        (sort_values : DataFrame -> DataFrame)
        (M : matrix) (w : list R) (alts : list string) (m n : nat) :
  (1 <= m)%nat -> is_matrix m n M -> length w = n -> length alts = m ->
  ftopsis sort_values M w alts = Ok (sort_values (ft_table M w alts))
  /\ (forall j, ft_norm M j = 0 ->
                ft_denom M j = 1 /\ forall i, (i < m)%nat -> ft_R M i j = 0)
  /\ (forall i, ft_D_plus M w i + ft_D_minus M w i = 0 -> ft_CC M w i = 0)
  /\ (forall r, In r (ft_table M w alts) ->
                D_plus r + D_minus r = 0 -> CC r = 0).
Proof.
  intros Hm Hshape Hw Halts.
  destruct (is_matrix_rows_ge m n M Hshape Hm) as [Hc Hrows].
  destruct Hshape as [Hl _].
  split.
  - apply ftopsis_ok; unfold ft_cols; rewrite ?Hc; try lia; assumption.
  - split; [|split].
    + intros j Hj. destruct (ft_zero_norm_column M j Hj) as [Hd HR].
      split; [exact Hd|]. intros i Hi. apply HR. unfold ft_rows. lia.
    + intros i. apply ft_CC_zero_distance.
    + intros r Hin Hz.
      destruct (in_ft_table M w alts r Hin) as (i & _ & Hp & Hq & Hcc).
      rewrite Hcc. apply ft_CC_zero_distance. now rewrite <- Hp, <- Hq.
Qed.

Lemma C4_rank_degenerate_denominators_witness :
  ftopsis sort_ties_in_order single [1] ["B1"%string]
  = Ok (sort_ties_in_order (ft_table single [1] ["B1"%string]))
  /\ (forall j, ft_norm single j = 0 ->
                ft_denom single j = 1
                /\ forall i, (i < 1)%nat -> ft_R single i j = 0)
  /\ (forall i, ft_D_plus single [1] i + ft_D_minus single [1] i = 0 ->
                ft_CC single [1] i = 0)
  /\ (forall r, In r (ft_table single [1] ["B1"%string]) ->
                D_plus r + D_minus r = 0 -> CC r = 0).
Proof.
  apply (C4_rank_degenerate_denominators sort_ties_in_order
           single [1] ["B1"%string] 1 1).
  - lia.
  - split; [reflexivity|]. repeat constructor.
  - reflexivity.
  - reflexivity.
Defined.

(** Both fallbacks at work: the only score is [0], so the column norm is
    [0] and the denominator becomes [1]; the only alternative coincides with
    both ideals, so [D+ = D- = 0] and [CC = 0]. *)
Lemma ftopsis_lone_EQ :
  ft_norm lone_EQ 0 = 0
  /\ ftopsis sort_ties_in_order lone_EQ [1] ["B1"%string]
     = Ok [mkRow "B1" 0 0 0].
Proof.
  split.
  - unfold ft_norm, ft_rows, ft_S, score, cell, lone_EQ, range, sum. simpl.
    match goal with |- sqrt ?x = 0 => replace x with 0 by ring end.
    apply sqrt_0.
  - rewrite ftopsis_ok;
      [|cbv [lone_EQ length]; lia|repeat constructor
       |cbv [ft_cols lone_EQ length nth]; lia|reflexivity].
    assert (Hp : ft_D_plus lone_EQ [1] 0 = 0).
    { unfold ft_D_plus, ft_v_plus, ft_cols, ft_rows, range, sum.
      cbn [lone_EQ nth length seq map Rmax_list fold_left].
      replace (0 + (ft_V lone_EQ [1] 0 0 - ft_V lone_EQ [1] 0 0) ^ 2)
        with 0 by ring.
      apply sqrt_0. }
    assert (Hm : ft_D_minus lone_EQ [1] 0 = 0).
    { unfold ft_D_minus, ft_v_minus, ft_cols, ft_rows, range, sum.
      cbn [lone_EQ nth length seq map Rmin_list fold_left].
      replace (0 + (ft_V lone_EQ [1] 0 0 - ft_V lone_EQ [1] 0 0) ^ 2)
        with 0 by ring.
      apply sqrt_0. }
    assert (Hc : ft_CC lone_EQ [1] 0 = 0).
    { apply ft_CC_zero_distance. rewrite Hp, Hm. lra. }
    unfold ft_table, ft_rows, range.
    cbn [lone_EQ length seq map zip_rows].
    rewrite Hp, Hm, Hc. reflexivity.
Qed.

(** C9, as stated, fails: [ftopsis] makes no dimension check.  With one
    criterion and the two weights [[1; 1]] the lengths do not match, and the
    call returns a table: the second weight is never read. *)
Lemma C9_surplus_weights_are_accepted :
  ~ (length [1; 1] <> ft_cols single ->
     exists e, ftopsis sort_ties_in_order single [1; 1] ["B1"%string]
               = Raise e).
Proof.
  intros H. destruct H as [e He]; [sample_length|].
  rewrite ftopsis_ok in He;
    [discriminate|sample_length|repeat constructor|sample_length|reflexivity].
Qed.

(** C9, amended: [ftopsis] does not check dimensions and has no error of
    its own for them.  For a matrix of [m >= 1] rows and [n] columns: a
    weight vector shorter than [n] makes the indexing [weights[j]] fail with
    [IndexError]; a weight vector of length [n] or more is accepted, the
    entries after the first [n] being ignored; and, the weights being long
    enough, a label sequence whose length is not [m] makes the construction
    of the table fail with [ValueError]. *)
Theorem C9_rank_dimension_mismatches
        (sort_values : DataFrame -> DataFrame)
        (M : matrix) (w : list R) (alts : list string) (m n : nat) :
  (1 <= m)%nat -> is_matrix m n M ->
  ((length w < n)%nat -> ftopsis sort_values M w alts = Raise IndexError)
  /\ ((n <= length w)%nat -> length alts = m ->
      ftopsis sort_values M w alts = Ok (sort_values (ft_table M w alts))
      /\ ft_table M w alts = ft_table M (firstn n w) alts)
  /\ ((n <= length w)%nat -> length alts <> m ->
      ftopsis sort_values M w alts = Raise ValueError).
Proof.
  intros Hm Hshape.
  destruct (is_matrix_rows_ge m n M Hshape Hm) as [Hc Hrows].
  destruct Hshape as [Hl _].
  fold (ft_cols M) in Hc. rewrite <- Hc in *.
  repeat split.
  - intros Hw. apply ftopsis_short_weights; [lia|assumption|assumption].
  - apply ftopsis_ok; [lia|assumption|assumption|congruence].
  - symmetry. apply ft_table_ext. intros i j Hj. now apply ft_V_firstn.
  - intros Hw Halts. apply ftopsis_labels_mismatch;
      [lia|assumption|assumption|congruence].
Qed.

Lemma C9_rank_dimension_mismatches_witness :
  ftopsis sort_ties_in_order single [] ["B1"%string] = Raise IndexError.
Proof.
  apply (C9_rank_dimension_mismatches sort_ties_in_order
           single [] ["B1"%string] 1 1).
  - lia.
  - split; [reflexivity|]. repeat constructor.
  - simpl. lia.
Defined.

(** ** C5: aggregation of the experts' matrices *)

(** C5: for [E >= 1] expert matrices of one shape (the shape the loops
    are written for), if every averaged pair passes the Pythagorean test
    the aggregation returns a matrix of that shape whose cell [(i, j)] holds
    the arithmetic means of the experts' [mu] and of their [nu] at
    [(i, j)]; if some averaged pair violates the constraint, the
    constructor's [ValueError] comes out of the aggregation. *)
Theorem C5_aggregation_is_the_validated_cellwise_mean
        (experts : list matrix) (r c E : nat) :
  (1 <= E)%nat -> length experts = E -> Forall (is_matrix r c) experts ->
  ((forall i j, (i < r)%nat -> (j < c)%nat ->
      mean_mu experts i j ^ 2 + mean_nu experts i j ^ 2 <= 1 + 1e-9) ->
   exists A,
     aggregate_experts r c E experts = Ok A
     /\ is_matrix r c A
     /\ forall i j, (i < r)%nat -> (j < c)%nat ->
          cell A i j = mkPFS (mean_mu experts i j) (mean_nu experts i j))
  /\ ((exists i j, (i < r)%nat /\ (j < c)%nat /\
         1 + 1e-9 < mean_mu experts i j ^ 2 + mean_nu experts i j ^ 2) ->
      aggregate_experts r c E experts = Raise ValueError).
Proof.
  intros HE Hlen Hshape. subst E.
  rewrite (aggregate_experts_cells experts r c HE Hshape).
  split.
  - intros Hok.
    exists (tab (fun i j => mkPFS (mean_mu experts i j) (mean_nu experts i j)) r c).
    split; [|split].
    + apply mapM_pure. intros i Hi%in_range.
      apply mapM_pure. intros j Hj%in_range.
      destruct (PFS_new_cases (mean_mu experts i j) (mean_nu experts i j))
        as [[_ H]|[H _]]; [exact H|].
      specialize (Hok i j Hi Hj). unfold EPS in H. lra.
    + apply is_matrix_tab.
    + intros i j Hi Hj. now apply cell_tab.
  - intros (i & j & Hi & Hj & Hbad).
    apply mapM_some_raise.
    + intros i' _.
      destruct (mapM_dichotomy
                  (fun j => PFS_new (mean_mu experts i' j) (mean_nu experts i' j))
                  (range c) ValueError) as [[_ [vs Hvs]]|[_ Hr]].
      * intros j' _.
        destruct (PFS_new_cases (mean_mu experts i' j') (mean_nu experts i' j'))
          as [[_ H]|[_ H]]; [left; eauto|now right].
      * left. eauto.
      * now right.
    + exists i. split; [now apply in_range|].
      apply mapM_some_raise.
      * intros j' _.
        destruct (PFS_new_cases (mean_mu experts i j') (mean_nu experts i j'))
          as [[_ H]|[_ H]]; [left; eauto|now right].
      * exists j. split; [now apply in_range|].
        destruct (PFS_new_cases (mean_mu experts i j) (mean_nu experts i j))
          as [[H _]|[_ H]]; [unfold EPS in H; lra|exact H].
Qed.

Lemma C5_aggregation_is_the_validated_cellwise_mean_witness :
  exists A,
    aggregate_experts 1 1 2 VH_VL = Ok A
    /\ is_matrix 1 1 A
    /\ forall i j, (i < 1)%nat -> (j < 1)%nat ->
         cell A i j = mkPFS (mean_mu VH_VL i j) (mean_nu VH_VL i j).
Proof.
  apply (C5_aggregation_is_the_validated_cellwise_mean VH_VL 1 1 2).
  - lia.
  - reflexivity.
  - repeat constructor.
  - intros i j Hi Hj.
    assert (i = 0%nat) by lia. assert (j = 0%nat) by lia. subst i j.
    unfold mean_mu, mean_nu, arithmetic_mean, sum. simpl. lra.
Defined.

(** ** C7: the statistical summary *)

Lemma np_std_population (a : list R) : np_std a = population_std a.
Proof.
  unfold np_std, population_std, np_mean, arithmetic_mean.
  rewrite length_map. do 3 f_equal.
  apply map_ext. intros x. apply pow2_abs.
Qed.

Lemma statistical_summary_runs (w : list R) (df : DataFrame) :
  w <> [] -> df <> [] ->
  exists s,
    statistical_summary w df = Ok s
    /\ Ortalama_CC s = arithmetic_mean (map CC df)
    /\ Standart_Sapma s = population_std (map CC df).
Proof.
  intros Hw Hdf. unfold statistical_summary, np_min, np_max.
  destruct df as [|r0 df]; [contradiction|].
  destruct w as [|w0 w]; [contradiction|].
  cbn [map py_min py_max bind].
  rewrite true_div_ok by (apply INR_pos_neq; simpl; lia). cbn [bind].
  eexists. split; [reflexivity|]. cbn [Ortalama_CC Standart_Sapma].
  split; [reflexivity|]. apply (np_std_population (CC r0 :: map CC df)).
Qed.

Lemma sqrt_between (x lo hi : R) :
  0 <= lo -> lo < hi -> lo ^ 2 < x < hi ^ 2 -> lo < sqrt x < hi.
Proof.
  intros Hlo Hhi [H1 H2].
  pose proof (pow2_ge_0 lo) as Hlo2.
  split.
  - rewrite <- (sqrt_pow2 lo) by lra. apply sqrt_lt_1; lra.
  - rewrite <- (sqrt_pow2 hi) by lra. apply sqrt_lt_1; lra.
Qed.

(** C7: [statistical_summary] reports the population standard deviation
    (divisor [n]) of the [CC] column.  For [CC = [0.2, 0.4, 0.6, 0.8]] the
    mean is [0.5] and the reported deviation is [sqrt 0.05], between
    [0.2236] and [0.2237]; the sample estimator (divisor [n - 1]) would be
    above [0.2581]. *)
Theorem C7_summary_uses_population_std :
  (forall w df, w <> [] -> df <> [] ->
     exists s,
       statistical_summary w df = Ok s
       /\ Ortalama_CC s = arithmetic_mean (map CC df)
       /\ Standart_Sapma s = population_std (map CC df))
  /\ (forall w df, w <> [] -> map CC df = [0.2; 0.4; 0.6; 0.8] ->
        exists s,
          statistical_summary w df = Ok s
          /\ Ortalama_CC s = 0.5
          /\ Standart_Sapma s = sqrt 0.05
          /\ 0.2236 < Standart_Sapma s < 0.2237
          /\ 0.2581 < sample_std (map CC df) < 0.2582).
Proof.
  split; [exact statistical_summary_runs|].
  intros w df Hw Hcc.
  destruct (statistical_summary_runs w df Hw) as (s & Hs & Hmean & Hstd).
  { intros ->. discriminate Hcc. }
  exists s. split; [exact Hs|].
  rewrite Hcc in Hmean, Hstd.
  assert (Hm : arithmetic_mean [0.2; 0.4; 0.6; 0.8] = 0.5).
  { unfold arithmetic_mean, sum. simpl. lra. }
  assert (Hsq : sum (map (fun x => (x - 0.5) ^ 2) [0.2; 0.4; 0.6; 0.8]) = 0.2).
  { unfold sum. simpl. lra. }
  unfold population_std in Hstd. rewrite Hm, Hsq in Hstd.
  assert (Hv : Standart_Sapma s = sqrt 0.05).
  { rewrite Hstd. f_equal. simpl. lra. }
  split; [congruence|]. split; [exact Hv|]. split.
  - rewrite Hv. apply sqrt_between; lra.
  - rewrite Hcc. unfold sample_std. rewrite Hm, Hsq.
    apply sqrt_between; try lra. simpl. lra.
Qed.

Lemma C7_summary_uses_population_std_witness :
  exists s,
    statistical_summary [0.5; 0.5] four_rows = Ok s
    /\ Ortalama_CC s = 0.5
    /\ Standart_Sapma s = sqrt 0.05
    /\ 0.2236 < Standart_Sapma s < 0.2237
    /\ 0.2581 < sample_std (map CC four_rows) < 0.2582.
Proof.
  apply (proj2 C7_summary_uses_population_std [0.5; 0.5] four_rows).
  - discriminate.
  - reflexivity.
Defined.

(** ** C8 and C10: the agreement report *)

Lemma variance_singleton (x : R) : variance [x] = 0.
Proof. unfold variance, arithmetic_mean, sum. simpl. field. Qed.

Lemma cell_variance_single_expert (M : matrix) (i j : nat) :
  cell_variance [M] i j = 0.
Proof.
  unfold cell_variance. cbn [map]. rewrite !variance_singleton. lra.
Qed.

Lemma concat_tab_all {A : Type} (P : A -> Prop) (f : nat -> nat -> A) (r c : nat) :
  (forall i j, P (f i j)) -> Forall P (concat (tab f r c)).
Proof.
  intros H. apply Forall_concat. unfold tab.
  apply Forall_map, Forall_forall. intros i _.
  apply Forall_map, Forall_forall. intros j _. apply H.
Qed.

Lemma avg_variance_single_expert (M : matrix) (r c : nat) :
  avg_variance_exact r c [M] = 0.
Proof.
  unfold avg_variance_exact.
  pose proof (concat_tab_all (fun x => x = 0) (cell_variance [M]) r c
                (cell_variance_single_expert M)) as Hz.
  destruct (concat (tab (cell_variance [M]) r c)) as [|v vs]; [reflexivity|].
  unfold arithmetic_mean. rewrite (sum_all_zero _ Hz). unfold Rdiv. lra.
Qed.

Lemma seviye_of_0 : seviye_of 0 = Yuksek.
Proof. apply seviye_of_cases. lra. Qed.

(** C8: for a single expert's matrix the report is average variance [0],
    score [1], level "Yuksek" (high); for an empty list of experts, or one
    whose first matrix is empty, the same default is returned and nothing
    fails. *)
Theorem C8_agreement_single_expert_and_empty_input :
  (forall M r c, is_matrix r c M ->
     expert_agreement_analysis [M] = Ok (mkAgreement 0 1 Yuksek))
  /\ expert_agreement_analysis [] = Ok (mkAgreement 0 1 Yuksek)
  /\ (forall rest,
        expert_agreement_analysis ([] :: rest) = Ok (mkAgreement 0 1 Yuksek)).
Proof.
  split; [|split; [reflexivity|intros rest; reflexivity]].
  intros M r c Hshape.
  destruct M as [|row0 M']; [reflexivity|].
  rewrite (agreement_report [row0 :: M'] r c).
  - rewrite avg_variance_single_expert.
    rewrite Rmin_left by lra. rewrite Rminus_0_r.
    now rewrite round4_0, round4_1, seviye_of_0.
  - destruct Hshape as [Hl _]. simpl in Hl. lia.
  - discriminate.
  - now constructor.
Qed.

Lemma C8_agreement_single_expert_and_empty_input_witness :
  expert_agreement_analysis [single] = Ok (mkAgreement 0 1 Yuksek).
Proof.
  apply (proj1 C8_agreement_single_expert_and_empty_input single 1%nat 1%nat).
  split; [reflexivity|]. repeat constructor.
Defined.

Lemma round_half_even_down (x : R) (z : Z) :
  IZR z <= x < IZR z + 1 / 2 -> round_half_even x = z.
Proof.
  intros H. unfold round_half_even.
  rewrite <- (Int_part_spec x z) by lra.
  destruct (Rlt_dec (x - IZR z) (1 / 2)); [reflexivity|lra].
Qed.

Lemma round_half_even_up (x : R) (z : Z) :
  IZR z + 1 / 2 < x < IZR z + 1 -> round_half_even x = (z + 1)%Z.
Proof.
  intros H. unfold round_half_even.
  rewrite <- (Int_part_spec x z) by lra.
  destruct (Rlt_dec (x - IZR z) (1 / 2)); [lra|].
  destruct (Rlt_dec (1 / 2) (x - IZR z)); [reflexivity|lra].
Qed.

Lemma avg_variance_near_tenth : avg_variance_exact 1 1 near_tenth = 0.09998244.
Proof.
  unfold avg_variance_exact, tab, range. cbn [seq map concat app].
  unfold arithmetic_mean at 1, sum at 1. cbn [fold_left length].
  unfold cell_variance, variance, arithmetic_mean, sum, cell, near_tenth.
  simpl. lra.
Qed.

(** C10: for experts with matrices of one shape and at least one row, the
    reported average variance and agreement score are the values
    [avg_variance] and [1 - min(avg_variance, 1)] rounded to four decimals,
    so each is within [5e-5] of the exact value, while the level is decided
    by the unrounded average variance.  The three can disagree: for
    [near_tenth] the average variance is [0.09998244], reported as [0.1],
    and the level is "Yuksek", the level of a variance below [0.1]. *)
Theorem C10_agreement_report_is_rounded :
  (forall experts r c,
     (1 <= r)%nat -> experts <> [] -> Forall (is_matrix r c) experts ->
     exists rep,
       expert_agreement_analysis experts = Ok rep
       /\ Ortalama_Varyans rep = round4 (avg_variance_exact r c experts)
       /\ Uyum_Skoru rep = round4 (1 - Rmin (avg_variance_exact r c experts) 1)
       /\ Rabs (Ortalama_Varyans rep - avg_variance_exact r c experts) <= 5e-5
       /\ Rabs (Uyum_Skoru rep - (1 - Rmin (avg_variance_exact r c experts) 1))
          <= 5e-5
       /\ (Uyum_Seviyesi rep = Yuksek <-> avg_variance_exact r c experts < 0.1)
       /\ (Uyum_Seviyesi rep = Orta <->
           0.1 <= avg_variance_exact r c experts < 0.2)
       /\ (Uyum_Seviyesi rep = Dusuk <-> 0.2 <= avg_variance_exact r c experts))
  /\ (expert_agreement_analysis near_tenth = Ok (mkAgreement 0.1 0.9 Yuksek)
      /\ seviye_of 0.1 = Orta).
Proof.
  split.
  - intros experts r c Hr Hne Hshape.
    eexists. split; [now apply (agreement_report experts r c)|].
    cbn [Ortalama_Varyans Uyum_Skoru Uyum_Seviyesi].
    split; [reflexivity|]. split; [reflexivity|].
    split; [apply round4_near|]. split; [apply round4_near|].
    apply seviye_of_cases.
  - split.
    + rewrite (agreement_report near_tenth 1 1);
        [|lia|discriminate|repeat constructor].
      rewrite avg_variance_near_tenth.
      rewrite Rmin_left by lra.
      f_equal. f_equal.
      * unfold round4. rewrite (round_half_even_up _ 999) by lra.
        simpl. lra.
      * unfold round4. rewrite (round_half_even_down _ 9000) by lra. lra.
      * apply seviye_of_cases. lra.
    + apply seviye_of_cases. lra.
Qed.

Lemma C10_agreement_report_is_rounded_witness :
  exists rep,
    expert_agreement_analysis near_tenth = Ok rep
    /\ Ortalama_Varyans rep = round4 (avg_variance_exact 1 1 near_tenth)
    /\ Uyum_Skoru rep = round4 (1 - Rmin (avg_variance_exact 1 1 near_tenth) 1)
    /\ Rabs (Ortalama_Varyans rep - avg_variance_exact 1 1 near_tenth) <= 5e-5
    /\ Rabs (Uyum_Skoru rep - (1 - Rmin (avg_variance_exact 1 1 near_tenth) 1))
       <= 5e-5
    /\ (Uyum_Seviyesi rep = Yuksek <-> avg_variance_exact 1 1 near_tenth < 0.1)
    /\ (Uyum_Seviyesi rep = Orta <->
        0.1 <= avg_variance_exact 1 1 near_tenth < 0.2)
    /\ (Uyum_Seviyesi rep = Dusuk <-> 0.2 <= avg_variance_exact 1 1 near_tenth).
Proof.
  apply (proj1 C10_agreement_report_is_rounded near_tenth 1%nat 1%nat).
  - lia.
  - discriminate.
  - repeat constructor.
Defined.

(* ================================================================== *)
(** * Further properties *)
(* ================================================================== *)

(** ** More on [fahp_weights] *)

Lemma float_pow_1 (x : R) : float_pow x 1 = Ok x.
Proof.
  unfold float_pow.
  destruct (Req_dec_T 1 0); [lra|].
  destruct (Req_dec_T x 0) as [->|Hx].
  - destruct (Rlt_dec 1 0); [lra|reflexivity].
  - destruct (Rlt_dec 0 x).
    + now rewrite Rpower_1.
    + rewrite (Int_part_IZR 1).
      destruct (Req_dec_T 1 1); [|lra].
      now rewrite powerRZ_1.
Qed.

(** X2: With a single row the weight vector is [[1]], whatever the judgment is. *)
Theorem fahp_weights_single_criterion (p : PFS) (rest : list PFS) :
  fahp_weights [p :: rest] = Ok [1].
Proof.
  unfold fahp_weights. cbn [length].
  change (range 1) with [0%nat].
  cbn [mapM foldM index nth_error bind].
  unfold true_div. cbn [INR].
  destruct (Req_dec_T 1 0); [lra|]. cbn [bind].
  assert (E : 1 / 1 = 1) by lra. rewrite E. clear E.
  rewrite float_pow_1. cbn [bind].
  unfold sum. cbn [fold_left].
  destruct (Req_dec_T (0 + 1 * mu p) 0) as [Hz|Hnz]; cbn [bind repeat map].
  - reflexivity.
  - f_equal. f_equal. field. lra.
Qed.

Lemma cell_lookup_cases {A B : Type} (f : A -> B) (M : list (list A)) (i j : nat) :
  (exists v, (row <- index M i ;; c <- index row j ;; Ok (f c)) = Ok v)
  \/ (row <- index M i ;; c <- index row j ;; Ok (f c)) = Raise IndexError.
Proof.
  unfold index.
  destruct (nth_error M i) as [row|]; cbn [bind]; [|now right].
  destruct (nth_error row j) as [c|]; cbn [bind]; [left; eauto|now right].
Qed.

Lemma fahp_weights_short_row (M : matrix) (row : list PFS) :
  In row M -> (length row < length M)%nat ->
  fahp_weights M = Raise IndexError.
Proof.
  intros Hin Hshort.
  destruct (In_nth M row [] Hin) as (i & Hi & Hrow).
  unfold fahp_weights.
  match goal with
  | |- bind ?c _ = _ => assert (HS : c = Raise IndexError)
  end.
  { apply mapM_some_raise.
    - intros i' _.
      destruct (mapM_dichotomy
                  (fun j => row <- index M i' ;; c <- index row j ;; Ok (mu c))
                  (range (length M)) IndexError) as [[_ [vs Hvs]]|[_ Hr]].
      + intros j _. apply cell_lookup_cases.
      + left. eauto.
      + now right.
    - exists i. split; [now apply in_range|].
      apply mapM_some_raise.
      + intros j _. apply cell_lookup_cases.
      + exists (length row). split; [now apply in_range|].
        rewrite (index_nth M i []) by assumption. cbn [bind].
        rewrite Hrow. now rewrite index_out. }
  now rewrite HS.
Qed.

Lemma index_firstn {A : Type} (l : list A) (n j : nat) :
  (j < n)%nat -> index (firstn n l) j = index l j.
Proof.
  intros H. unfold index. rewrite nth_error_firstn.
  destruct (Nat.ltb_spec j n); [reflexivity|lia].
Qed.

(** X4: Columns after the [N]-th, [N] being the number of rows, are never read. *)
Theorem fahp_weights_surplus_columns (M : matrix) :
  fahp_weights (map (firstn (length M)) M) = fahp_weights M.
Proof.
  unfold fahp_weights. rewrite length_map. f_equal.
  apply mapM_ext_in. intros i _. apply mapM_ext_in. intros j Hj%in_range.
  rewrite index_map.
  destruct (index M i) as [row| |]; cbn [bind]; try reflexivity.
  now rewrite index_firstn.
Qed.

(** X3: A matrix without rows divides by zero; a row shorter than the number
    of rows makes the indexing fail. *)
Theorem fahp_weights_malformed_matrix :
  fahp_weights [] = Raise ZeroDivisionError
  /\ forall M row,
       In row M -> (length row < length M)%nat ->
       fahp_weights M = Raise IndexError.
Proof.
  split; [exact fahp_weights_empty|exact fahp_weights_short_row].
Qed.

Lemma gm_root_mono (n : nat) (P Q : R) :
  0 <= P <= Q -> gm_root n P <= gm_root n Q.
Proof.
  intros [HP HQ]. unfold gm_root.
  destruct (Req_dec_T P 0) as [->|HP0].
  - destruct (Req_dec_T Q 0); [lra|]. left. apply exp_pos.
  - destruct (Req_dec_T Q 0); [lra|].
    apply Rle_Rpower_l; [|lra].
    destruct n as [|n]; [simpl; unfold Rdiv; rewrite Rinv_0; lra|].
    left. apply Rdiv_lt_0_compat; [lra|]. apply lt_0_INR. lia.
Qed.

Lemma gm_root_pos (n : nat) (P : R) : 0 < P -> 0 < gm_root n P.
Proof.
  intros HP. unfold gm_root.
  destruct (Req_dec_T P 0); [lra|]. apply exp_pos.
Qed.

Lemma gm_root_scale (n : nat) (k P : R) :
  (1 <= n)%nat -> 0 < k -> 0 <= P ->
  gm_root n (k ^ n * P) = k * gm_root n P.
Proof.
  intros Hn Hk HP. unfold gm_root.
  assert (Hkn : 0 < k ^ n) by now apply pow_lt.
  destruct (Req_dec_T P 0) as [->|HP0].
  - rewrite Rmult_0_r. destruct (Req_dec_T 0 0); [lra|contradiction].
  - destruct (Req_dec_T (k ^ n * P) 0) as [Hz|_]; [nra|].
    rewrite <- Rpower_mult_distr by lra. f_equal.
    rewrite <- Rpower_pow, Rpower_mult by assumption.
    replace (INR n * (1 / INR n)) with 1 by (field; now apply INR_pos_neq).
    now apply Rpower_1.
Qed.

Lemma product_pos (l : list R) : Forall (fun x => 0 < x) l -> 0 < product l.
Proof.
  induction 1 as [|x t Hx _ IH]; simpl; [lra|]. now apply Rmult_lt_0_compat.
Qed.

Lemma product_scale (k : R) (l : list R) :
  product (map (Rmult k) l) = k ^ length l * product l.
Proof.
  induction l as [|x t IH]; simpl; [lra|]. rewrite IH. ring.
Qed.

Lemma product_perm (l l' : list R) : Permutation l l' -> product l = product l'.
Proof.
  induction 1; simpl;
    [reflexivity|now rewrite IHPermutation|ring|congruence].
Qed.

Lemma sum_map_scale (k : R) (l : list R) : sum (map (Rmult k) l) = k * sum l.
Proof.
  induction l as [|x t IH]; simpl.
  - rewrite sum_nil. lra.
  - rewrite !sum_cons, IH. lra.
Qed.

Lemma nth_fahp_g (M : matrix) (i : nat) :
  (i < length M)%nat ->
  nth i (fahp_g M) 0 = gm_root (length M) (row_product M i).
Proof.
  intros Hi. unfold fahp_g, row_product.
  rewrite nth_indep with (d' := gm_root (length M) (product (map mu [])))
    by (now rewrite length_map).
  apply (map_nth (fun row => gm_root (length M) (product (map mu row)))).
Qed.

Lemma row_nonneg (M : matrix) (i : nat) :
  Forall (Forall (fun p => 0 <= mu p)) M -> 0 <= row_product M i.
Proof.
  intros H. unfold row_product. apply product_nonneg, Forall_map.
  destruct (Nat.lt_ge_cases i (length M)) as [Hi|Hi].
  - rewrite Forall_forall in H. apply H, nth_In, Hi.
  - rewrite nth_overflow by assumption. constructor.
Qed.

(** The weights as a function of the index. *)
Lemma fahp_weights_nth (M : matrix) (n : nat) :
  (1 <= n)%nat -> is_matrix n n M ->
  Forall (Forall (fun p => 0 <= mu p)) M ->
  exists w,
    fahp_weights M = Ok w /\ length w = n /\
    forall i, (i < n)%nat ->
      nth i w 0 = if Req_dec_T (sum (fahp_g M)) 0 then 1 / INR n
                  else gm_root n (row_product M i) / sum (fahp_g M).
Proof.
  intros Hn Hsq Hmu. rewrite (fahp_weights_nonneg_mu M n Hn Hsq Hmu).
  destruct Hsq as [Hlen _].
  destruct (Req_dec_T (sum (fahp_g M)) 0) as [Hz|Hnz]; eexists;
    (split; [reflexivity|]); split.
  - apply repeat_length.
  - intros i Hi. now apply nth_repeat_lt.
  - unfold fahp_g. now rewrite !length_map.
  - intros i Hi.
    rewrite nth_indep with (d' := 0 / sum (fahp_g M))
      by (unfold fahp_g; rewrite !length_map; lia).
    rewrite (map_nth (fun gi => gi / sum (fahp_g M))).
    rewrite nth_fahp_g by lia. now rewrite Hlen.
Qed.

Lemma fahp_g_sum_pos (M : matrix) :
  sum (fahp_g M) <> 0 -> 0 < sum (fahp_g M).
Proof.
  intros H. pose proof (sum_nonneg _ (fahp_g_nonneg M)). lra.
Qed.

(** X5: The order of the weights is the order of the row products of [mu]. *)
Theorem fahp_weights_follow_row_products (M : matrix) (n : nat) :
  (1 <= n)%nat -> is_matrix n n M ->
  Forall (Forall (fun p => 0 <= mu p)) M ->
  exists w,
    fahp_weights M = Ok w /\ length w = n /\
    forall i k, (i < n)%nat -> (k < n)%nat ->
      row_product M i <= row_product M k -> nth i w 0 <= nth k w 0.
Proof.
  intros Hn Hsq Hmu.
  destruct (fahp_weights_nth M n Hn Hsq Hmu) as (w & Hw & Hl & Hnth).
  exists w. split; [exact Hw|]. split; [exact Hl|].
  intros i k Hi Hk Hle. rewrite (Hnth i Hi), (Hnth k Hk).
  destruct (Req_dec_T (sum (fahp_g M)) 0) as [Hz|Hnz]; [lra|].
  pose proof (fahp_g_sum_pos M Hnz) as Hs.
  apply Rmult_le_compat_r; [left; now apply Rinv_0_lt_compat|].
  apply gm_root_mono. split; [now apply row_nonneg|exact Hle].
Qed.

(** Positive judgments give positive weights. *)
Lemma fahp_weights_pos_entries (M : matrix) (n : nat) :
  (1 <= n)%nat -> is_matrix n n M ->
  Forall (Forall (fun p => 0 < mu p)) M ->
  exists w,
    fahp_weights M = Ok w /\ length w = n /\ Forall (fun x => 0 < x) w.
Proof.
  intros Hn Hsq Hpos.
  assert (Hmu : Forall (Forall (fun p => 0 <= mu p)) M).
  { eapply Forall_impl; [|exact Hpos]. intros row Hrow.
    eapply Forall_impl; [|exact Hrow]. intros p Hp. cbv beta in Hp. lra. }
  destruct (fahp_weights_nth M n Hn Hsq Hmu) as (w & Hw & Hl & Hnth).
  exists w. split; [exact Hw|]. split; [exact Hl|].
  apply Forall_forall. intros x Hx.
  destruct (In_nth w x 0 Hx) as (i & Hi & <-).
  rewrite Hnth by lia.
  destruct (Req_dec_T (sum (fahp_g M)) 0) as [Hz|Hnz].
  - apply Rdiv_lt_0_compat; [lra|]. apply lt_0_INR. lia.
  - apply Rdiv_lt_0_compat; [|now apply fahp_g_sum_pos].
    apply gm_root_pos. unfold row_product. apply product_pos, Forall_map.
    rewrite Forall_forall in Hpos. apply Hpos, nth_In.
    destruct Hsq as [Hlen _]. lia.
Qed.

(** X6: If every [mu] is positive, so is every weight. *)
Theorem fahp_weights_positive (M : matrix) (n : nat) :
  (1 <= n)%nat -> is_matrix n n M ->
  Forall (Forall (fun p => 0 < mu p)) M ->
  exists w,
    fahp_weights M = Ok w /\ length w = n /\ Forall (fun x => 0 < x) w.
Proof.
  intros Hn Hsq Hpos.
  apply fahp_weights_pos_entries; assumption.
Qed.

Lemma Forall2_is_matrix {A : Type} (P : list A -> list A -> Prop)
      (M M' : list (list A)) (n : nat) :
  (forall r r', P r r' -> length r' = length r) ->
  Forall2 P M M' -> is_matrix n n M -> is_matrix n n M'.
Proof.
  intros HP H [Hlen Hrows]. split.
  - rewrite <- (Forall2_length H). exact Hlen.
  - clear Hlen. induction H as [|r r' M M' Hr _ IH]; constructor.
    + rewrite (HP _ _ Hr). now inversion Hrows.
    + apply IH. now inversion Hrows.
Qed.

Lemma fahp_weights_scaled_g (M M' : matrix) (n : nat) (k : R) :
  (1 <= n)%nat -> 0 < k ->
  is_matrix n n M -> Forall (Forall (fun p => 0 <= mu p)) M ->
  is_matrix n n M' -> Forall (Forall (fun p => 0 <= mu p)) M' ->
  fahp_g M' = map (Rmult k) (fahp_g M) ->
  fahp_weights M' = fahp_weights M.
Proof.
  intros Hn Hk Hsq Hmu Hsq' Hmu' Hg.
  rewrite (fahp_weights_nonneg_mu M n Hn Hsq Hmu).
  rewrite (fahp_weights_nonneg_mu M' n Hn Hsq' Hmu').
  rewrite Hg, sum_map_scale. f_equal.
  destruct (Req_dec_T (sum (fahp_g M)) 0) as [Hz|Hnz];
    destruct (Req_dec_T (k * sum (fahp_g M)) 0) as [Hz'|Hnz']; try nra.
  - reflexivity.
  - rewrite map_map. apply map_ext. intros x. field; repeat split; lra.
Qed.

(** X7: Multiplying every [mu] by one positive factor changes no weight. *)
Theorem fahp_weights_scale_invariant (M M' : matrix) (n : nat) (k : R) :
  (1 <= n)%nat -> 0 < k ->
  is_matrix n n M -> Forall (Forall (fun p => 0 <= mu p)) M ->
  Forall2 (fun r r' => map mu r' = map (Rmult k) (map mu r)) M M' ->
  fahp_weights M' = fahp_weights M.
Proof.
  intros Hn Hk Hsq Hmu Hrel.
  assert (Hsq' : is_matrix n n M').
  { apply (Forall2_is_matrix _ M M' n) in Hrel; [assumption| |assumption].
    intros r r' E. apply (f_equal (@length R)) in E.
    now rewrite !length_map in E. }
  assert (Hmu' : Forall (Forall (fun p => 0 <= mu p)) M').
  { clear Hsq Hsq'. induction Hrel as [|r r' M M' Hr _ IH]; constructor.
    - apply Forall_cons_iff in Hmu. destruct Hmu as [Hr0 _].
      apply Forall_map. rewrite Hr. apply Forall_map, Forall_map.
      eapply Forall_impl; [|exact Hr0]. intros p Hp. cbv beta in *. nra.
    - apply IH. now inversion Hmu. }
  apply (fahp_weights_scaled_g M M' n k); try assumption.
  unfold fahp_g.
  destruct Hsq as [Hlen Hrows]. destruct Hsq' as [Hlen' _].
  rewrite Hlen, Hlen'. clear Hlen Hlen' Hmu'.
  induction Hrel as [|r r' M M' Hr _ IH]; [reflexivity|].
  apply Forall_cons_iff in Hrows. destruct Hrows as [Hlr Hrows].
  apply Forall_cons_iff in Hmu. destruct Hmu as [Hr0 Hmu].
  cbn [map]. f_equal; [|now apply IH].
  rewrite Hr, product_scale, length_map, Hlr.
  apply gm_root_scale; [assumption|assumption|].
  now apply product_nonneg, Forall_map.
Qed.

(** X8: The judgments of a row can be listed in any order. *)
Theorem fahp_weights_row_order_irrelevant (M M' : matrix) (n : nat) :
  (1 <= n)%nat ->
  is_matrix n n M -> Forall (Forall (fun p => 0 <= mu p)) M ->
  Forall2 (fun r r' => Permutation (map mu r) (map mu r')) M M' ->
  fahp_weights M' = fahp_weights M.
Proof.
  intros Hn Hsq Hmu Hrel.
  assert (Hsq' : is_matrix n n M').
  { apply (Forall2_is_matrix _ M M' n) in Hrel; [assumption| |assumption].
    intros r r' E. apply Permutation_length in E.
    now rewrite !length_map in E. }
  assert (Hmu' : Forall (Forall (fun p => 0 <= mu p)) M').
  { clear Hsq Hsq'. induction Hrel as [|r r' M M' Hr _ IH]; constructor.
    - apply Forall_cons_iff in Hmu. destruct Hmu as [Hr0 _].
      apply Forall_map. eapply Permutation_Forall; [exact Hr|].
      now apply Forall_map.
    - apply IH. now inversion Hmu. }
  rewrite (fahp_weights_nonneg_mu M n Hn Hsq Hmu).
  rewrite (fahp_weights_nonneg_mu M' n Hn Hsq' Hmu').
  assert (Hg : fahp_g M' = fahp_g M).
  { unfold fahp_g. destruct Hsq as [Hlen _]. destruct Hsq' as [Hlen' _].
    rewrite Hlen, Hlen'. clear Hlen Hlen' Hmu Hmu'.
    induction Hrel as [|r r' M M' Hr _ IH]; [reflexivity|].
    cbn [map]. f_equal; [|exact IH].
    f_equal. symmetry. now apply product_perm. }
  now rewrite Hg.
Qed.

(** ** More on [ftopsis] *)

Lemma ft_D_plus_nonneg (M : matrix) (w : list R) (i : nat) :
  0 <= ft_D_plus M w i.
Proof. apply sqrt_pos. Qed.

Lemma ft_D_minus_nonneg (M : matrix) (w : list R) (i : nat) :
  0 <= ft_D_minus M w i.
Proof. apply sqrt_pos. Qed.

Lemma ft_CC_range (M : matrix) (w : list R) (i : nat) : 0 <= ft_CC M w i <= 1.
Proof.
  unfold ft_CC.
  pose proof (ft_D_plus_nonneg M w i) as Hp.
  pose proof (ft_D_minus_nonneg M w i) as Hm.
  destruct (Req_dec_T (ft_D_plus M w i + ft_D_minus M w i) 0); [lra|].
  assert (Hs : 0 < ft_D_plus M w i + ft_D_minus M w i) by lra.
  split.
  - apply Rmult_le_pos; [assumption|]. left. now apply Rinv_0_lt_compat.
  - apply Rmult_le_reg_r with (ft_D_plus M w i + ft_D_minus M w i);
      [assumption|].
    unfold Rdiv. rewrite Rmult_assoc, Rinv_l by assumption. lra.
Qed.

Lemma zip_rows_seq (f g h : nat -> R) :
  forall (alts : list string) (a : nat),
    zip_rows alts (map f (seq a (length alts))) (map g (seq a (length alts)))
             (map h (seq a (length alts)))
    = map (fun i => mkRow (nth (i - a) alts EmptyString) (f i) (g i) (h i))
          (seq a (length alts)).
Proof.
  induction alts as [|x alts IH]; intros a; [reflexivity|].
  cbn [length seq map zip_rows]. f_equal.
  - now rewrite Nat.sub_diag.
  - rewrite IH. apply map_ext_in. intros i Hi%in_seq.
    replace (i - a)%nat with (S (i - S a)) by lia. reflexivity.
Qed.

Lemma ft_table_rows (M : matrix) (w : list R) (alts : list string) :
  length alts = ft_rows M ->
  ft_table M w alts = map (ft_row M w alts) (range (ft_rows M)).
Proof.
  intros H. unfold ft_table, range. rewrite <- H.
  rewrite zip_rows_seq. apply map_ext. intros i.
  unfold ft_row. now rewrite Nat.sub_0_r.
Qed.

Lemma ft_table_labels (M : matrix) (w : list R) (alts : list string) :
  length alts = ft_rows M -> map Alternative (ft_table M w alts) = alts.
Proof.
  intros H. rewrite ft_table_rows by assumption.
  rewrite map_map. cbn [ft_row Alternative]. rewrite <- H.
  apply map_nth_range.
Qed.

Lemma ft_table_length (M : matrix) (w : list R) (alts : list string) :
  length alts = ft_rows M -> length (ft_table M w alts) = ft_rows M.
Proof.
  intros H. rewrite ft_table_rows by assumption.
  now rewrite length_map, length_range.
Qed.

Lemma in_ft_table_row (M : matrix) (w : list R) (alts : list string) (i : nat) :
  length alts = ft_rows M -> (i < ft_rows M)%nat ->
  In (ft_row M w alts i) (ft_table M w alts).
Proof.
  intros H Hi. rewrite ft_table_rows by assumption.
  apply in_map. now apply in_range.
Qed.

(** X9: Every row of the result: distances are not negative, [CC] is in [0,1]. *)
Theorem ftopsis_values_in_range
        (sort_values : DataFrame -> DataFrame)
        (M : matrix) (w : list R) (alts : list string) :
  sort_values_contract sort_values ->
  (0 < length M)%nat ->
  Forall (fun r => (ft_cols M <= length r)%nat) M ->
  (ft_cols M <= length w)%nat ->
  length alts = length M ->
  exists out,
    ftopsis sort_values M w alts = Ok out
    /\ Forall (fun r => 0 <= D_plus r /\ 0 <= D_minus r /\ 0 <= CC r <= 1) out.
Proof.
  intros Hsort Hm Hrows Hw Halts.
  exists (sort_values (ft_table M w alts)).
  split; [now apply ftopsis_ok|].
  apply Forall_forall. intros r Hr.
  apply (Permutation_in _ (Permutation_sym (proj1 (Hsort _)))) in Hr.
  destruct (in_ft_table M w alts r Hr) as (i & _ & -> & -> & ->).
  split; [apply ft_D_plus_nonneg|]. split; [apply ft_D_minus_nonneg|].
  apply ft_CC_range.
Qed.

(** X10: The result lists every alternative exactly once. *)
Theorem ftopsis_ranks_every_alternative
        (sort_values : DataFrame -> DataFrame)
        (M : matrix) (w : list R) (alts : list string) :
  sort_values_contract sort_values ->
  (0 < length M)%nat ->
  Forall (fun r => (ft_cols M <= length r)%nat) M ->
  (ft_cols M <= length w)%nat ->
  length alts = length M ->
  exists out,
    ftopsis sort_values M w alts = Ok out
    /\ length out = length alts
    /\ Permutation alts (map Alternative out).
Proof.
  intros Hsort Hm Hrows Hw Halts.
  exists (sort_values (ft_table M w alts)).
  split; [now apply ftopsis_ok|].
  pose proof (proj1 (Hsort (ft_table M w alts))) as Hp.
  split.
  - rewrite <- (Permutation_length Hp).
    rewrite ft_table_length by exact Halts. now rewrite Halts.
  - rewrite <- (ft_table_labels M w alts Halts) at 1.
    now apply Permutation_map.
Qed.

Lemma fold_left_Rmax_le (t : list R) (a x : R) :
  a <= x -> Forall (fun y => y <= x) t -> fold_left Rmax t a <= x.
Proof.
  revert a. induction t as [|y t IH]; intros a Ha Ht; simpl; [assumption|].
  apply IH; [|now inversion Ht].
  apply Rmax_lub; [assumption|now inversion Ht].
Qed.

Lemma fold_left_Rmax_ge (t : list R) (a : R) :
  a <= fold_left Rmax t a /\ Forall (fun y => y <= fold_left Rmax t a) t.
Proof.
  revert a. induction t as [|y t IH]; intros a; simpl.
  - split; [lra|constructor].
  - destruct (IH (Rmax a y)) as [H1 H2].
    pose proof (Rmax_l a y). pose proof (Rmax_r a y).
    split; [lra|]. constructor; [lra|assumption].
Qed.

Lemma fold_left_Rmin_ge (t : list R) (a x : R) :
  x <= a -> Forall (fun y => x <= y) t -> x <= fold_left Rmin t a.
Proof.
  revert a. induction t as [|y t IH]; intros a Ha Ht; simpl; [assumption|].
  apply IH; [|now inversion Ht].
  apply Rmin_glb; [assumption|now inversion Ht].
Qed.

Lemma fold_left_Rmin_le (t : list R) (a : R) :
  fold_left Rmin t a <= a /\ Forall (fun y => fold_left Rmin t a <= y) t.
Proof.
  revert a. induction t as [|y t IH]; intros a; simpl.
  - split; [lra|constructor].
  - destruct (IH (Rmin a y)) as [H1 H2].
    pose proof (Rmin_l a y). pose proof (Rmin_r a y).
    split; [lra|]. constructor; [lra|assumption].
Qed.

Lemma Rmax_list_is_max (l : list R) (x : R) :
  In x l -> Forall (fun y => y <= x) l -> Rmax_list l = x.
Proof.
  intros Hin Hle. destruct l as [|a t]; [contradiction|].
  cbn [Rmax_list]. apply Rle_antisym.
  - apply fold_left_Rmax_le; now inversion Hle.
  - destruct (fold_left_Rmax_ge t a) as [H1 H2].
    destruct Hin as [->|Hin]; [assumption|].
    rewrite Forall_forall in H2. now apply H2.
Qed.

Lemma Rmin_list_is_min (l : list R) (x : R) :
  In x l -> Forall (fun y => x <= y) l -> Rmin_list l = x.
Proof.
  intros Hin Hle. destruct l as [|a t]; [contradiction|].
  cbn [Rmin_list]. apply Rle_antisym.
  - destruct (fold_left_Rmin_le t a) as [H1 H2].
    destruct Hin as [->|Hin]; [assumption|].
    rewrite Forall_forall in H2. now apply H2.
  - apply fold_left_Rmin_ge; now inversion Hle.
Qed.

Lemma sqrt_sum_zero {A : Type} (f : A -> R) (l : list A) :
  (forall x, In x l -> f x = 0) -> sqrt (sum (map (fun x => f x ^ 2) l)) = 0.
Proof.
  intros H. rewrite sum_all_zero; [apply sqrt_0|].
  apply Forall_map, Forall_forall. intros x Hx. rewrite (H x Hx). lra.
Qed.

Lemma ft_denom_pos (M : matrix) (j : nat) : 0 < ft_denom M j.
Proof.
  unfold ft_denom.
  destruct (Req_dec_T (ft_norm M j) 0); [lra|].
  assert (0 <= ft_norm M j) by apply sqrt_pos. lra.
Qed.

(** An alternative whose weighted value is the largest in every column. *)
Lemma ft_D_plus_of_best (M : matrix) (w : list R) (i : nat) :
  (i < ft_rows M)%nat ->
  (forall i' j, (i' < ft_rows M)%nat -> (j < ft_cols M)%nat ->
                ft_V M w i' j <= ft_V M w i j) ->
  ft_D_plus M w i = 0.
Proof.
  intros Hi Hbest. unfold ft_D_plus.
  apply sqrt_sum_zero. intros j Hj%in_range.
  unfold ft_v_plus.
  rewrite (Rmax_list_is_max _ (ft_V M w i j)); [lra| |].
  - apply (in_map (fun i' => ft_V M w i' j)). now apply in_range.
  - apply Forall_map, Forall_forall. intros i' Hi'%in_range. now apply Hbest.
Qed.

Lemma ft_D_minus_of_worst (M : matrix) (w : list R) (i : nat) :
  (i < ft_rows M)%nat ->
  (forall i' j, (i' < ft_rows M)%nat -> (j < ft_cols M)%nat ->
                ft_V M w i j <= ft_V M w i' j) ->
  ft_D_minus M w i = 0.
Proof.
  intros Hi Hworst. unfold ft_D_minus.
  apply sqrt_sum_zero. intros j Hj%in_range.
  unfold ft_v_minus.
  rewrite (Rmin_list_is_min _ (ft_V M w i j)); [lra| |].
  - apply (in_map (fun i' => ft_V M w i' j)). now apply in_range.
  - apply Forall_map, Forall_forall. intros i' Hi'%in_range. now apply Hworst.
Qed.

Lemma ft_V_mono (M : matrix) (w : list R) (i i' j : nat) :
  0 <= nth j w 0 ->
  score (cell M i' j) <= score (cell M i j) ->
  ft_V M w i' j <= ft_V M w i j.
Proof.
  intros Hw Hs. unfold ft_V, ft_R, ft_S.
  apply Rmult_le_compat_r; [assumption|].
  apply Rmult_le_compat_r; [|assumption].
  left. apply Rinv_0_lt_compat, ft_denom_pos.
Qed.

Lemma nth_nonneg (w : list R) (j : nat) :
  Forall (fun x => 0 <= x) w -> 0 <= nth j w 0.
Proof.
  intros H. destruct (Nat.lt_ge_cases j (length w)) as [Hj|Hj].
  - rewrite Forall_forall in H. apply H, nth_In, Hj.
  - rewrite nth_overflow by assumption. lra.
Qed.

(** X11: With non-negative weights, an alternative whose score is the highest on
    every criterion is at distance [0] from the positive ideal; its [CC] is
    [1] unless it is also at distance [0] from the negative ideal, and it
    then heads the ranking.  Symmetrically an alternative with the lowest
    score on every criterion has [D- = 0] and [CC = 0]. *)
Theorem ftopsis_best_and_worst_alternative
        (sort_values : DataFrame -> DataFrame)
        (M : matrix) (w : list R) (alts : list string) (i : nat) :
  sort_values_contract sort_values ->
  Forall (fun r => (ft_cols M <= length r)%nat) M ->
  (ft_cols M <= length w)%nat ->
  length alts = length M ->
  Forall (fun x => 0 <= x) w ->
  (i < length M)%nat ->
  exists out,
    ftopsis sort_values M w alts = Ok out
    /\ In (ft_row M w alts i) out
    /\ ((forall i' j, (i' < length M)%nat -> (j < ft_cols M)%nat ->
           score (cell M i' j) <= score (cell M i j)) ->
        D_plus (ft_row M w alts i) = 0
        /\ (D_minus (ft_row M w alts i) <> 0 ->
            CC (ft_row M w alts i) = 1
            /\ exists top rest, out = top :: rest /\ CC top = 1))
    /\ ((forall i' j, (i' < length M)%nat -> (j < ft_cols M)%nat ->
           score (cell M i j) <= score (cell M i' j)) ->
        D_minus (ft_row M w alts i) = 0 /\ CC (ft_row M w alts i) = 0).
Proof.
  intros Hsort Hrows Hw Halts Hwpos Hi.
  exists (sort_values (ft_table M w alts)).
  destruct (Hsort (ft_table M w alts)) as [Hperm Hsorted].
  assert (Hin : In (ft_row M w alts i) (sort_values (ft_table M w alts))).
  { apply (Permutation_in _ Hperm). now apply in_ft_table_row. }
  split; [apply ftopsis_ok; [lia|assumption..]|].
  split; [exact Hin|]. split.
  - intros Hbest.
    assert (Hp : ft_D_plus M w i = 0).
    { apply ft_D_plus_of_best; [exact Hi|].
      intros i' j Hi' Hj. apply ft_V_mono; [now apply nth_nonneg|].
      now apply Hbest. }
    cbn [ft_row D_plus D_minus CC]. split; [exact Hp|].
    intros Hm.
    assert (Hcc : ft_CC M w i = 1).
    { unfold ft_CC. rewrite Hp.
      destruct (Req_dec_T (0 + ft_D_minus M w i) 0); [lra|]. now field. }
    split; [exact Hcc|].
    destruct (sort_values (ft_table M w alts)) as [|top rest] eqn:Eout;
      [contradiction|].
    exists top, rest. split; [reflexivity|].
    apply Rle_antisym.
    + assert (Htop : In top (ft_table M w alts)).
      { apply (Permutation_in _ (Permutation_sym Hperm)). now left. }
      destruct (in_ft_table M w alts top Htop) as (k & _ & _ & _ & ->).
      apply ft_CC_range.
    + destruct Hin as [->|Hin]; [cbn [ft_row CC]; lra|].
      apply Sorted_StronglySorted in Hsorted; [|exact CC_desc_trans].
      inversion Hsorted as [|? ? _ Hall]; subst.
      rewrite Forall_forall in Hall. specialize (Hall _ Hin).
      unfold CC_desc in Hall. cbn [ft_row CC] in Hall. lra.
  - intros Hworst.
    assert (Hm : ft_D_minus M w i = 0).
    { apply ft_D_minus_of_worst; [exact Hi|].
      intros i' j Hi' Hj. apply ft_V_mono; [now apply nth_nonneg|].
      now apply Hworst. }
    cbn [ft_row D_minus CC]. split; [exact Hm|].
    unfold ft_CC. rewrite Hm.
    destruct (Req_dec_T (ft_D_plus M w i + 0) 0); [reflexivity|].
    unfold Rdiv. lra.
Qed.

(** X12: Alternatives that cannot be told apart all get [D+ = D- = CC = 0]; a
    single alternative is the special case of one row. *)
Theorem ftopsis_indistinguishable_alternatives
        (sort_values : DataFrame -> DataFrame)
        (M : matrix) (w : list R) (alts : list string) :
  sort_values_contract sort_values ->
  (0 < length M)%nat ->
  Forall (fun r => (ft_cols M <= length r)%nat) M ->
  (ft_cols M <= length w)%nat ->
  length alts = length M ->
  (forall i i' j, (i < length M)%nat -> (i' < length M)%nat ->
                  (j < ft_cols M)%nat -> cell M i j = cell M i' j) ->
  exists out,
    ftopsis sort_values M w alts = Ok out
    /\ length out = length M
    /\ Forall (fun r => D_plus r = 0 /\ D_minus r = 0 /\ CC r = 0) out.
Proof.
  intros Hsort Hm Hrows Hw Halts Hsame.
  exists (sort_values (ft_table M w alts)).
  destruct (Hsort (ft_table M w alts)) as [Hperm _].
  split; [now apply ftopsis_ok|]. split.
  - rewrite <- (Permutation_length Hperm). now apply ft_table_length.
  - apply Forall_forall. intros r Hr.
    apply (Permutation_in _ (Permutation_sym Hperm)) in Hr.
    destruct (in_ft_table M w alts r Hr) as (i & Hi & -> & -> & ->).
    assert (HV : forall i' j, (i' < ft_rows M)%nat -> (j < ft_cols M)%nat ->
                              ft_V M w i' j = ft_V M w i j).
    { intros i' j Hi' Hj. unfold ft_V, ft_R, ft_S.
      now rewrite (Hsame i' i j Hi' Hi Hj). }
    assert (Hp : ft_D_plus M w i = 0).
    { apply ft_D_plus_of_best; [exact Hi|].
      intros i' j Hi' Hj. rewrite (HV i' j Hi' Hj). lra. }
    assert (Hq : ft_D_minus M w i = 0).
    { apply ft_D_minus_of_worst; [exact Hi|].
      intros i' j Hi' Hj. rewrite (HV i' j Hi' Hj). lra. }
    repeat split; try assumption.
    apply ft_CC_zero_distance. lra.
Qed.

Lemma fold_left_Rmax_scale (k : R) (t : list R) (a : R) :
  0 <= k ->
  fold_left Rmax (map (Rmult k) t) (k * a) = k * fold_left Rmax t a.
Proof.
  intros Hk. revert a. induction t as [|y t IH]; intros a; simpl; [reflexivity|].
  rewrite RmaxRmult by assumption. apply IH.
Qed.

Lemma RminRmult_l (k p q : R) : 0 <= k -> Rmin (k * p) (k * q) = k * Rmin p q.
Proof.
  intros Hk. unfold Rmin.
  destruct (Rle_dec p q) as [H|H]; destruct (Rle_dec (k * p) (k * q)) as [H'|H'];
    try reflexivity; nra.
Qed.

Lemma fold_left_Rmin_scale (k : R) (t : list R) (a : R) :
  0 <= k ->
  fold_left Rmin (map (Rmult k) t) (k * a) = k * fold_left Rmin t a.
Proof.
  intros Hk. revert a. induction t as [|y t IH]; intros a; simpl; [reflexivity|].
  rewrite RminRmult_l by assumption. apply IH.
Qed.

Lemma Rmax_list_scale (k : R) (l : list R) :
  0 <= k -> Rmax_list (map (Rmult k) l) = k * Rmax_list l.
Proof.
  intros Hk. destruct l as [|a t]; simpl; [lra|].
  now apply fold_left_Rmax_scale.
Qed.

Lemma Rmin_list_scale (k : R) (l : list R) :
  0 <= k -> Rmin_list (map (Rmult k) l) = k * Rmin_list l.
Proof.
  intros Hk. destruct l as [|a t]; simpl; [lra|].
  now apply fold_left_Rmin_scale.
Qed.

Lemma nth_map_scale (k : R) (w : list R) (j : nat) :
  nth j (map (Rmult k) w) 0 = k * nth j w 0.
Proof.
  rewrite <- (Rmult_0_r k) at 1. apply (map_nth (Rmult k)).
Qed.

Lemma ft_V_scale (M : matrix) (w : list R) (k : R) (i j : nat) :
  ft_V M (map (Rmult k) w) i j = k * ft_V M w i j.
Proof. unfold ft_V. rewrite nth_map_scale. ring. Qed.

Lemma sqrt_sum_scale {A : Type} (k : R) (f : A -> R) (l : list A) :
  0 <= k ->
  sqrt (sum (map (fun x => (k * f x) ^ 2) l))
  = k * sqrt (sum (map (fun x => f x ^ 2) l)).
Proof.
  intros Hk.
  replace (map (fun x => (k * f x) ^ 2) l)
    with (map (Rmult (k ^ 2)) (map (fun x => f x ^ 2) l)).
  - rewrite sum_map_scale.
    rewrite sqrt_mult; [|apply pow2_ge_0|apply sum_sq_nonneg].
    now rewrite sqrt_pow2.
  - rewrite map_map. apply map_ext. intros x. ring.
Qed.

Lemma ft_v_plus_scale (M : matrix) (w : list R) (k : R) (j : nat) :
  0 <= k -> ft_v_plus M (map (Rmult k) w) j = k * ft_v_plus M w j.
Proof.
  intros Hk. unfold ft_v_plus. rewrite <- Rmax_list_scale by assumption.
  f_equal. rewrite map_map. apply map_ext. intros i. apply ft_V_scale.
Qed.

Lemma ft_v_minus_scale (M : matrix) (w : list R) (k : R) (j : nat) :
  0 <= k -> ft_v_minus M (map (Rmult k) w) j = k * ft_v_minus M w j.
Proof.
  intros Hk. unfold ft_v_minus. rewrite <- Rmin_list_scale by assumption.
  f_equal. rewrite map_map. apply map_ext. intros i. apply ft_V_scale.
Qed.

Lemma ft_D_plus_scale (M : matrix) (w : list R) (k : R) (i : nat) :
  0 <= k -> ft_D_plus M (map (Rmult k) w) i = k * ft_D_plus M w i.
Proof.
  intros Hk. unfold ft_D_plus.
  rewrite <- (sqrt_sum_scale k (fun j => ft_V M w i j - ft_v_plus M w j))
    by assumption.
  do 2 f_equal. apply map_ext. intros j.
  rewrite ft_V_scale, ft_v_plus_scale by assumption. ring.
Qed.

Lemma ft_D_minus_scale (M : matrix) (w : list R) (k : R) (i : nat) :
  0 <= k -> ft_D_minus M (map (Rmult k) w) i = k * ft_D_minus M w i.
Proof.
  intros Hk. unfold ft_D_minus.
  rewrite <- (sqrt_sum_scale k (fun j => ft_V M w i j - ft_v_minus M w j))
    by assumption.
  do 2 f_equal. apply map_ext. intros j.
  rewrite ft_V_scale, ft_v_minus_scale by assumption. ring.
Qed.

Lemma ft_CC_scale (M : matrix) (w : list R) (k : R) (i : nat) :
  0 < k -> ft_CC M (map (Rmult k) w) i = ft_CC M w i.
Proof.
  intros Hk. unfold ft_CC.
  rewrite ft_D_plus_scale, ft_D_minus_scale by lra.
  destruct (Req_dec_T (ft_D_plus M w i + ft_D_minus M w i) 0) as [Hz|Hnz];
    destruct (Req_dec_T (k * ft_D_plus M w i + k * ft_D_minus M w i) 0)
      as [Hz'|Hnz']; try reflexivity; try nra.
  field. split; lra.
Qed.

Lemma ft_table_scale (M : matrix) (w : list R) (alts : list string) (k : R) :
  0 < k -> length alts = ft_rows M ->
  ft_table M (map (Rmult k) w) alts = map (scale_row k) (ft_table M w alts).
Proof.
  intros Hk Halts. rewrite !ft_table_rows by assumption.
  rewrite map_map. apply map_ext. intros i.
  unfold ft_row, scale_row. cbn [Alternative D_plus D_minus CC].
  rewrite ft_D_plus_scale, ft_D_minus_scale by lra.
  now rewrite ft_CC_scale.
Qed.

(** X13: Multiplying all weights by one positive factor multiplies the two
    distances of every alternative by it and leaves every [CC] as it is. *)
Theorem ftopsis_weight_scale
        (sort_values : DataFrame -> DataFrame)
        (M : matrix) (w : list R) (alts : list string) (k : R) :
  sort_values_contract sort_values ->
  0 < k ->
  (0 < length M)%nat ->
  Forall (fun r => (ft_cols M <= length r)%nat) M ->
  (ft_cols M <= length w)%nat ->
  length alts = length M ->
  exists out out',
    ftopsis sort_values M w alts = Ok out
    /\ ftopsis sort_values M (map (Rmult k) w) alts = Ok out'
    /\ Permutation (map (scale_row k) out) out'.
Proof.
  intros Hsort Hk Hm Hrows Hw Halts.
  exists (sort_values (ft_table M w alts)).
  exists (sort_values (ft_table M (map (Rmult k) w) alts)).
  split; [now apply ftopsis_ok|].
  split; [apply ftopsis_ok; try assumption; now rewrite length_map|].
  eapply perm_trans; [|apply Hsort].
  rewrite ft_table_scale by assumption.
  apply Permutation_map, Permutation_sym, Hsort.
Qed.

(** X14: A matrix without rows, or with a row shorter than the first one, makes
    the indexing fail. *)
Theorem ftopsis_malformed_matrix
        (sort_values : DataFrame -> DataFrame)
        (w : list R) (alts : list string) :
  ftopsis sort_values [] w alts = Raise IndexError
  /\ forall M row,
       In row M -> (length row < ft_cols M)%nat ->
       ftopsis sort_values M w alts = Raise IndexError.
Proof.
  split; [reflexivity|].
  intros M row Hin Hshort.
  destruct (In_nth M row [] Hin) as (i & Hi & Hrow).
  unfold ftopsis.
  rewrite (index_nth M 0 []) by lia. cbn [bind]. fold (ft_cols M).
  match goal with
  | |- bind ?c _ = _ => assert (HS : c = Raise IndexError)
  end.
  { apply mapM_some_raise.
    - intros i' _.
      destruct (mapM_dichotomy
                  (fun j => row <- index M i' ;; c <- index row j ;; Ok (score c))
                  (range (ft_cols M)) IndexError) as [[_ [vs Hvs]]|[_ Hr]].
      + intros j _. apply cell_lookup_cases.
      + left. eauto.
      + now right.
    - exists i. split; [now apply in_range|].
      apply mapM_some_raise.
      + intros j _. apply cell_lookup_cases.
      + exists (length row). split; [now apply in_range|].
        rewrite (index_nth M i []) by assumption. cbn [bind].
        rewrite Hrow. now rewrite index_out. }
  now rewrite HS.
Qed.

(** ** More on [statistical_summary] *)

Lemma Rmax_list_bound (l : list R) : Forall (fun y => y <= Rmax_list l) l.
Proof.
  destruct l as [|a t]; [constructor|]. cbn [Rmax_list].
  destruct (fold_left_Rmax_ge t a). now constructor.
Qed.

Lemma Rmin_list_bound (l : list R) : Forall (fun y => Rmin_list l <= y) l.
Proof.
  destruct l as [|a t]; [constructor|]. cbn [Rmin_list].
  destruct (fold_left_Rmin_le t a). now constructor.
Qed.

Lemma sum_between (l : list R) (lo hi : R) :
  Forall (fun x => lo <= x <= hi) l ->
  INR (length l) * lo <= sum l <= INR (length l) * hi.
Proof.
  induction 1 as [|x t Hx _ IH].
  - rewrite sum_nil. simpl. lra.
  - rewrite sum_cons. cbn [length]. rewrite S_INR. lra.
Qed.

Lemma mean_between (l : list R) (lo hi : R) :
  l <> [] -> Forall (fun x => lo <= x <= hi) l ->
  lo <= arithmetic_mean l <= hi.
Proof.
  intros Hne H. pose proof (sum_between l lo hi H) as [H1 H2].
  assert (Hn : 0 < INR (length l)).
  { apply lt_0_INR. destruct l; [contradiction|simpl; lia]. }
  unfold arithmetic_mean. split.
  - apply Rmult_le_reg_r with (INR (length l)); [assumption|].
    unfold Rdiv. rewrite Rmult_assoc, Rinv_l by lra. lra.
  - apply Rmult_le_reg_r with (INR (length l)); [assumption|].
    unfold Rdiv. rewrite Rmult_assoc, Rinv_l by lra. lra.
Qed.

Lemma list_between_min_max (l : list R) :
  Forall (fun x => Rmin_list l <= x <= Rmax_list l) l.
Proof.
  pose proof (Rmin_list_bound l) as H1. pose proof (Rmax_list_bound l) as H2.
  rewrite Forall_forall in *. intros x Hx. split; [now apply H1|now apply H2].
Qed.

Lemma population_std_le_range (l : list R) :
  l <> [] -> population_std l <= Rmax_list l - Rmin_list l.
Proof.
  intros Hne.
  pose proof (list_between_min_max l) as Hb.
  pose proof (mean_between l _ _ Hne Hb) as Hm.
  set (lo := Rmin_list l) in *. set (hi := Rmax_list l) in *.
  set (m := arithmetic_mean l) in *.
  unfold population_std. fold m.
  rewrite <- (sqrt_pow2 (hi - lo)) by lra.
  apply sqrt_le_1.
  - apply Rmult_le_pos; [apply sum_sq_nonneg|].
    left. apply Rinv_0_lt_compat, lt_0_INR.
    destruct l; [contradiction|simpl; lia].
  - apply pow2_ge_0.
  - assert (Hsq : Forall (fun y => 0 <= y <= (hi - lo) ^ 2)
                         (map (fun x => (x - m) ^ 2) l)).
    { apply Forall_map. eapply Forall_impl; [|exact Hb].
      intros x Hx. cbv beta in *. split; [apply pow2_ge_0|]. nra. }
    assert (Hne' : map (fun x => (x - m) ^ 2) l <> []).
    { intros E. apply map_eq_nil in E. contradiction. }
    pose proof (mean_between _ 0 ((hi - lo) ^ 2) Hne' Hsq) as [_ H].
    unfold arithmetic_mean in H. now rewrite length_map in H.
Qed.

(** X15: The figures of the summary are consistent with each other. *)
Theorem statistical_summary_bounds (w : list R) (df : DataFrame) :
  w <> [] -> df <> [] ->
  exists s,
    statistical_summary w df = Ok s
    /\ Min_CC s <= Ortalama_CC s <= Max_CC s
    /\ CC_Araligi s = Max_CC s - Min_CC s
    /\ 0 <= Standart_Sapma s <= CC_Araligi s
    /\ Min_Agirlik s <= Agirlik_Ortalamasi s <= Max_Agirlik s
    /\ Forall (fun r => Min_CC s <= CC r <= Max_CC s) df.
Proof.
  intros Hw Hdf. unfold statistical_summary, np_min, np_max.
  assert (Hcc : map CC df <> []) by (destruct df; [contradiction|discriminate]).
  rewrite (py_min_cons _ Hcc), (py_max_cons _ Hcc). cbn [bind].
  rewrite true_div_ok
    by (apply INR_pos_neq; destruct w; [contradiction|simpl; lia]).
  cbn [bind].
  rewrite (py_max_cons _ Hw), (py_min_cons _ Hw). cbn [bind].
  eexists. split; [reflexivity|].
  cbn [Min_CC Ortalama_CC Max_CC CC_Araligi Standart_Sapma Min_Agirlik
       Agirlik_Ortalamasi Max_Agirlik].
  split; [apply (mean_between _ _ _ Hcc), list_between_min_max|].
  split; [reflexivity|].
  split.
  - rewrite np_std_population. split; [apply sqrt_pos|].
    now apply population_std_le_range.
  - split; [apply (mean_between _ _ _ Hw), list_between_min_max|].
    pose proof (list_between_min_max (map CC df)) as H.
    now rewrite Forall_map in H.
Qed.

(** X16: Without weights the weight mean is a division by zero: the figures of
    the [CC] column are computed first, then [sum(weights) / len(weights)]
    raises. *)
Theorem statistical_summary_without_weights (df : DataFrame) :
  df <> [] -> statistical_summary [] df = Raise ZeroDivisionError.
Proof.
  intros Hdf. unfold statistical_summary, np_min, np_max.
  assert (Hcc : map CC df <> []) by (destruct df; [contradiction|discriminate]).
  rewrite (py_min_cons _ Hcc), (py_max_cons _ Hcc). cbn [bind].
  unfold true_div. cbn [length INR].
  destruct (Req_dec_T 0 0); [reflexivity|lra].
Qed.



(** ** More on the aggregation *)

Lemma cauchy_step (a b A B n c : R) :
  0 <= n -> a ^ 2 + b ^ 2 <= c -> A ^ 2 + B ^ 2 <= n ^ 2 * c ->
  (a + A) ^ 2 + (b + B) ^ 2 <= (n + 1) ^ 2 * c.
Proof.
  intros Hn H1 H2.
  assert (Hc : 0 <= c) by (pose proof (pow2_ge_0 a); pose proof (pow2_ge_0 b); lra).
  assert (Hx : a * A + b * B <= n * c).
  { destruct (Rle_dec (a * A + b * B) (n * c)) as [|Hgt]; [assumption|].
    exfalso. apply Rnot_le_lt in Hgt.
    assert (Hnc : 0 <= n * c) by now apply Rmult_le_pos.
    assert (Hsq : (a * A + b * B) ^ 2 <= (n * c) ^ 2).
    { pose proof (pow2_ge_0 (a * B - b * A)).
      assert (0 <= (c - (a ^ 2 + b ^ 2)) * (A ^ 2 + B ^ 2)).
      { apply Rmult_le_pos; [lra|].
        pose proof (pow2_ge_0 A); pose proof (pow2_ge_0 B); lra. }
      assert (0 <= c * (n ^ 2 * c - (A ^ 2 + B ^ 2))).
      { apply Rmult_le_pos; lra. }
      nra. }
    nra. }
  nra.
Qed.

Lemma sum_in_disc (ps : list PFS) (c : R) :
  Forall (fun p => mu p ^ 2 + nu p ^ 2 <= c) ps ->
  sum (map mu ps) ^ 2 + sum (map nu ps) ^ 2 <= INR (length ps) ^ 2 * c.
Proof.
  induction 1 as [|p t Hp _ IH].
  - simpl. rewrite sum_nil. lra.
  - cbn [map length]. rewrite !sum_cons, S_INR.
    apply cauchy_step; [apply pos_INR|assumption|assumption].
Qed.

Lemma mean_in_disc (ps : list PFS) (c : R) :
  ps <> [] ->
  Forall (fun p => mu p ^ 2 + nu p ^ 2 <= c) ps ->
  arithmetic_mean (map mu ps) ^ 2 + arithmetic_mean (map nu ps) ^ 2 <= c.
Proof.
  intros Hne H. pose proof (sum_in_disc ps c H) as Hs.
  assert (Hn : 0 < INR (length ps)).
  { apply lt_0_INR. destruct ps; [contradiction|simpl; lia]. }
  unfold arithmetic_mean. rewrite !length_map.
  set (n := INR (length ps)) in *.
  replace ((sum (map mu ps) / n) ^ 2 + (sum (map nu ps) / n) ^ 2)
    with ((sum (map mu ps) ^ 2 + sum (map nu ps) ^ 2) / n ^ 2)
    by (field; lra).
  apply Rmult_le_reg_r with (n ^ 2); [nra|].
  unfold Rdiv. rewrite Rmult_assoc, Rinv_l by nra. lra.
Qed.

Lemma mean_of_cells (f : PFS -> R) (experts : list matrix) (i j : nat) :
  map (fun M => f (cell M i j)) experts
  = map f (map (fun M => cell M i j) experts).
Proof. now rewrite map_map. Qed.

Lemma cell_in_matrix (P : PFS -> Prop) (M : matrix) (r c i j : nat) :
  is_matrix r c M -> Forall (Forall P) M ->
  (i < r)%nat -> (j < c)%nat -> P (cell M i j).
Proof.
  intros [Hl Hrows] HP Hi Hj. unfold cell.
  rewrite Forall_forall in HP, Hrows.
  assert (Hin : In (nth i M []) M) by (apply nth_In; lia).
  specialize (HP _ Hin). rewrite Forall_forall in HP.
  apply HP, nth_In. rewrite (Hrows _ Hin). exact Hj.
Qed.

Lemma cells_of_experts (P : PFS -> Prop) (experts : list matrix) (r c i j : nat) :
  Forall (is_matrix r c) experts -> Forall (Forall (Forall P)) experts ->
  (i < r)%nat -> (j < c)%nat ->
  Forall P (map (fun M => cell M i j) experts).
Proof.
  intros Hshape HP Hi Hj. apply Forall_map.
  rewrite Forall_forall in *. intros M HM.
  apply (cell_in_matrix P M r c); auto.
Qed.

(** The disc of radius [sqrt (1 + EPS)] is convex, so the averaged cells pass
    the constructor's test. *)
Lemma aggregate_constructed
        (experts : list matrix) (r c : nat) :
  experts <> [] ->
  Forall (is_matrix r c) experts ->
  Forall (Forall (Forall pythagorean)) experts ->
  aggregate_experts r c (length experts) experts
  = Ok (tab (fun i j => mkPFS (mean_mu experts i j) (mean_nu experts i j)) r c)
  /\ Forall (Forall pythagorean)
       (tab (fun i j => mkPFS (mean_mu experts i j) (mean_nu experts i j)) r c).
Proof.
  intros Hne Hshape Hpy.
  assert (HE : (1 <= length experts)%nat)
    by (destruct experts; [contradiction|simpl; lia]).
  assert (Hcell : forall i j, (i < r)%nat -> (j < c)%nat ->
            mean_mu experts i j ^ 2 + mean_nu experts i j ^ 2 <= 1 + EPS).
  { intros i j Hi Hj. unfold mean_mu, mean_nu.
    rewrite (mean_of_cells mu), (mean_of_cells nu).
    apply mean_in_disc.
    - intros E. apply map_eq_nil in E. contradiction.
    - now apply (cells_of_experts pythagorean experts r c). }
  split.
  - rewrite (aggregate_experts_cells experts r c HE Hshape).
    apply mapM_pure. intros i Hi%in_range.
    apply mapM_pure. intros j Hj%in_range.
    destruct (PFS_new_cases (mean_mu experts i j) (mean_nu experts i j))
      as [[_ H]|[H _]]; [exact H|].
    specialize (Hcell i j Hi Hj). lra.
  - unfold tab. apply Forall_map, Forall_forall. intros i Hi%in_range.
    apply Forall_map, Forall_forall. intros j Hj%in_range.
    unfold pythagorean. cbn [mu nu]. now apply Hcell.
Qed.

(** X18: Averaging values that pass the constructor's test gives a value that
    passes it: on such experts the aggregation never raises. *)
Theorem aggregation_of_constructed_values
        (experts : list matrix) (r c : nat) :
  experts <> [] ->
  Forall (is_matrix r c) experts ->
  Forall (Forall (Forall pythagorean)) experts ->
  aggregate_experts r c (length experts) experts
  = Ok (tab (fun i j => mkPFS (mean_mu experts i j) (mean_nu experts i j)) r c)
  /\ Forall (Forall pythagorean)
       (tab (fun i j => mkPFS (mean_mu experts i j) (mean_nu experts i j)) r c).
Proof.
  intros Hne Hshape Hpy.
  apply aggregate_constructed; assumption.
Qed.

(** The averaged cells of valid matrices are valid. *)
Lemma aggregate_valid
        (experts : list matrix) (r c : nat) :
  experts <> [] ->
  Forall (is_matrix r c) experts ->
  Forall valid_matrix experts ->
  exists A,
    aggregate_experts r c (length experts) experts = Ok A
    /\ is_matrix r c A /\ valid_matrix A.
Proof.
  intros Hne Hshape Hvalid.
  assert (Hpy : Forall (Forall (Forall pythagorean)) experts).
  { eapply Forall_impl; [|exact Hvalid]. intros M HM.
    eapply Forall_impl; [|exact HM]. intros row Hrow.
    eapply Forall_impl; [|exact Hrow]. intros p (_ & _ & Hp). exact Hp. }
  destruct (aggregate_constructed experts r c Hne Hshape Hpy)
    as [Hagg Hpyth].
  eexists. split; [exact Hagg|]. split; [apply is_matrix_tab|].
  unfold valid_matrix, tab.
  apply Forall_map, Forall_forall. intros i Hi%in_range.
  apply Forall_map, Forall_forall. intros j Hj%in_range.
  assert (Hmu : Forall (fun x => 0 <= x <= 1)
                       (map (fun M => mu (cell M i j)) experts)).
  { rewrite (mean_of_cells mu). apply Forall_map.
    eapply Forall_impl;
      [|apply (cells_of_experts valid_PFS experts r c); eassumption].
    intros p (Hp & _). exact Hp. }
  assert (Hnu : Forall (fun x => 0 <= x <= 1)
                       (map (fun M => nu (cell M i j)) experts)).
  { rewrite (mean_of_cells nu). apply Forall_map.
    eapply Forall_impl;
      [|apply (cells_of_experts valid_PFS experts r c); eassumption].
    intros p (_ & Hp & _). exact Hp. }
  assert (Hne' : forall f : matrix -> R, map f experts <> []).
  { intros f E. apply map_eq_nil in E. contradiction. }
  unfold valid_PFS. cbn [mu nu].
  split; [apply mean_between; [apply Hne'|exact Hmu]|].
  split; [apply mean_between; [apply Hne'|exact Hnu]|].
  rewrite Forall_forall in Hpyth.
  assert (Hrow : In (map (fun j => mkPFS (mean_mu experts i j) (mean_nu experts i j))
                         (range c))
                    (tab (fun i j => mkPFS (mean_mu experts i j) (mean_nu experts i j)) r c)).
  { unfold tab.
    apply (in_map (fun i => map (fun j => mkPFS (mean_mu experts i j)
                                               (mean_nu experts i j)) (range c))).
    now apply in_range. }
  specialize (Hpyth _ Hrow). rewrite Forall_forall in Hpyth.
  apply (Hpyth (mkPFS (mean_mu experts i j) (mean_nu experts i j))).
  apply (in_map (fun j => mkPFS (mean_mu experts i j) (mean_nu experts i j))).
  now apply in_range.
Qed.

(** X19: Components in [[0,1]] stay in [[0,1]]. *)
Theorem aggregation_keeps_values_valid
        (experts : list matrix) (r c : nat) :
  experts <> [] ->
  Forall (is_matrix r c) experts ->
  Forall valid_matrix experts ->
  exists A,
    aggregate_experts r c (length experts) experts = Ok A
    /\ is_matrix r c A /\ valid_matrix A.
Proof.
  intros Hne Hshape Hvalid.
  apply aggregate_valid; assumption.
Qed.

Lemma sum_perm (l l' : list R) : Permutation l l' -> sum l = sum l'.
Proof.
  induction 1 as [|x l l' _ IH|x y l|l l' l'' _ IH1 _ IH2].
  - reflexivity.
  - now rewrite !sum_cons, IH.
  - rewrite !sum_cons. lra.
  - congruence.
Qed.

Lemma arithmetic_mean_perm (l l' : list R) :
  Permutation l l' -> arithmetic_mean l = arithmetic_mean l'.
Proof.
  intros H. unfold arithmetic_mean.
  now rewrite (sum_perm _ _ H), (Permutation_length H).
Qed.

Lemma arithmetic_mean_repeat (x : R) (n : nat) :
  (1 <= n)%nat -> arithmetic_mean (repeat x n) = x.
Proof.
  intros Hn. unfold arithmetic_mean.
  rewrite sum_repeat, repeat_length. field. now apply INR_pos_neq.
Qed.

Lemma map_repeat_const {A B : Type} (f : A -> B) (x : A) (n : nat) :
  map f (repeat x n) = repeat (f x) n.
Proof. induction n as [|n IH]; simpl; [reflexivity|now rewrite IH]. Qed.

Lemma tab_cell (M : matrix) (r c : nat) :
  is_matrix r c M -> tab (fun i j => cell M i j) r c = M.
Proof.
  intros [Hl Hrows]. unfold tab, cell. rewrite <- Hl.
  transitivity (map (fun i => nth i M []) (range (length M)));
    [|apply map_nth_range].
  apply map_ext_in. intros i Hi%in_range.
  rewrite Forall_forall in Hrows.
  rewrite <- (Hrows (nth i M [])) by (apply nth_In; lia).
  apply map_nth_range.
Qed.

(** X20: Experts who all give the same matrix: the consensus is that matrix.
    With one expert the aggregation is the identity. *)
Theorem aggregation_of_unanimous_experts (M : matrix) (r c E : nat) :
  (1 <= E)%nat -> is_matrix r c M -> Forall (Forall pythagorean) M ->
  aggregate_experts r c E (repeat M E) = Ok M.
Proof.
  intros HE Hshape Hpy.
  pose proof (aggregate_experts_cells (repeat M E) r c) as Hagg.
  rewrite repeat_length in Hagg. rewrite Hagg; clear Hagg.
  - replace (Ok M) with (Ok (tab (fun i j => cell M i j) r c))
      by (now rewrite tab_cell).
    unfold tab.
    apply mapM_pure. intros i Hi%in_range.
    apply mapM_pure. intros j Hj%in_range.
    unfold mean_mu, mean_nu. rewrite !map_repeat_const.
    rewrite !arithmetic_mean_repeat by assumption.
    pose proof (cell_in_matrix pythagorean M r c i j Hshape Hpy Hi Hj) as Hp.
    destruct (PFS_new_cases (mu (cell M i j)) (nu (cell M i j)))
      as [[_ H]|[H _]]; [|unfold pythagorean in Hp; lra].
    rewrite H. now destruct (cell M i j).
  - exact HE.
  - apply Forall_forall. intros X HX. apply repeat_spec in HX. now subst X.
Qed.

(** X21: The consensus does not depend on the order of the experts. *)
Theorem aggregation_expert_order_irrelevant
        (experts experts' : list matrix) (r c : nat) :
  experts <> [] -> Permutation experts experts' ->
  Forall (is_matrix r c) experts ->
  aggregate_experts r c (length experts') experts'
  = aggregate_experts r c (length experts) experts.
Proof.
  intros Hne Hperm Hshape.
  assert (HE : (1 <= length experts)%nat)
    by (destruct experts; [contradiction|simpl; lia]).
  rewrite (aggregate_experts_cells experts r c HE Hshape).
  rewrite (aggregate_experts_cells experts' r c).
  - apply mapM_ext_in. intros i _. apply mapM_ext_in. intros j _.
    unfold mean_mu, mean_nu.
    now rewrite (arithmetic_mean_perm _ _ (Permutation_map (fun M => mu (cell M i j)) Hperm)),
                (arithmetic_mean_perm _ _ (Permutation_map (fun M => nu (cell M i j)) Hperm)).
  - now rewrite <- (Permutation_length Hperm).
  - eapply Permutation_Forall; eassumption.
Qed.

Lemma expert_lookup_cases (f : PFS -> R) (experts : list matrix) (i j e : nat) :
  (exists v, (M <- index experts e ;; row <- index M i ;;
              x <- index row j ;; Ok (f x)) = Ok v)
  \/ (M <- index experts e ;; row <- index M i ;;
      x <- index row j ;; Ok (f x)) = Raise IndexError.
Proof.
  unfold index.
  destruct (nth_error experts e) as [M|]; cbn [bind]; [|now right].
  destruct (nth_error M i) as [row|]; cbn [bind]; [|now right].
  destruct (nth_error row j) as [x|]; cbn [bind]; [left; eauto|now right].
Qed.

(** X22: No expert at all ([self.experts = 0]) is a division by zero; fewer
    matrices than [self.experts] is an index error. *)
Theorem aggregation_bad_expert_count
        (experts : list matrix) (r c E : nat) :
  (1 <= r)%nat -> (1 <= c)%nat ->
  (E = 0%nat -> aggregate_experts r c E experts = Raise ZeroDivisionError)
  /\ ((length experts < E)%nat ->
      aggregate_experts r c E experts = Raise IndexError).
Proof.
  intros Hr Hc. split.
  - intros ->. unfold aggregate_experts.
    rewrite (range_split r 0) by lia. apply mapM_raise; [intros y []|].
    rewrite (range_split c 0) by lia. apply mapM_raise; [intros y []|].
    change (range 0) with (@nil nat). cbn [mapM bind].
    unfold true_div. cbn [INR].
    destruct (Req_dec_T 0 0); [reflexivity|lra].
  - intros HE. unfold aggregate_experts.
    rewrite (range_split r 0) by lia. apply mapM_raise; [intros y []|].
    rewrite (range_split c 0) by lia. apply mapM_raise; [intros y []|].
    rewrite (mapM_some_raise _ (range E) IndexError); [reflexivity| |].
    + intros e _. apply expert_lookup_cases.
    + exists (length experts). split; [now apply in_range|].
      now rewrite index_out.
Qed.

(** ** More on the agreement analysis *)

Lemma round_half_even_ge (x : R) (z : Z) :
  IZR z <= x -> (z <= round_half_even x)%Z.
Proof.
  intros H. unfold round_half_even.
  destruct (base_Int_part x) as [H1 H2].
  assert (Hz : (z <= Int_part x)%Z).
  { apply Z.lt_succ_r, lt_IZR. rewrite succ_IZR. lra. }
  destruct (Rlt_dec (x - IZR (Int_part x)) (1 / 2)); [assumption|].
  destruct (Rlt_dec (1 / 2) (x - IZR (Int_part x))); [lia|].
  destruct (Z.even (Int_part x)); lia.
Qed.

Lemma round_half_even_le (x : R) (z : Z) :
  x <= IZR z -> (round_half_even x <= z)%Z.
Proof.
  intros H. unfold round_half_even.
  destruct (base_Int_part x) as [H1 H2].
  assert (Hz : (Int_part x <= z)%Z) by (apply le_IZR; lra).
  destruct (Rlt_dec (x - IZR (Int_part x)) (1 / 2)) as [|Hge]; [assumption|].
  assert (Hlt : (Int_part x < z)%Z) by (apply lt_IZR; lra).
  destruct (Rlt_dec (1 / 2) (x - IZR (Int_part x))); [lia|].
  destruct (Z.even (Int_part x)); lia.
Qed.

Lemma round4_nonneg (x : R) : 0 <= x -> 0 <= round4 x.
Proof.
  intros H. unfold round4.
  assert (Hz : (0 <= round_half_even (x * 10000))%Z)
    by (apply round_half_even_ge; lra).
  apply IZR_le in Hz. lra.
Qed.

Lemma round4_le_1 (x : R) : x <= 1 -> round4 x <= 1.
Proof.
  intros H. unfold round4.
  assert (Hz : (round_half_even (x * 10000) <= 10000)%Z)
    by (apply round_half_even_le; lra).
  apply IZR_le in Hz. lra.
Qed.

Lemma arithmetic_mean_nonneg (l : list R) :
  Forall (fun x => 0 <= x) l -> 0 <= arithmetic_mean l.
Proof.
  intros H. destruct l as [|a t].
  - unfold arithmetic_mean. rewrite sum_nil. unfold Rdiv. lra.
  - apply (mean_between (a :: t) 0 (Rmax_list (a :: t))); [discriminate|].
    pose proof (Rmax_list_bound (a :: t)) as Hb.
    rewrite Forall_forall in *. intros x Hx. split; [now apply H|now apply Hb].
Qed.

Lemma variance_nonneg (l : list R) : 0 <= variance l.
Proof.
  unfold variance. apply arithmetic_mean_nonneg.
  apply Forall_map, Forall_forall. intros x _. apply pow2_ge_0.
Qed.

Lemma avg_variance_nonneg (experts : list matrix) (r c : nat) :
  0 <= avg_variance_exact r c experts.
Proof.
  unfold avg_variance_exact.
  pose proof (concat_tab_all (fun x => 0 <= x) (cell_variance experts) r c) as H.
  destruct (concat (tab (cell_variance experts) r c)) as [|v vs]; [lra|].
  apply arithmetic_mean_nonneg, H. intros i j. unfold cell_variance.
  pose proof (variance_nonneg (map (fun M => mu (cell M i j)) experts)).
  pose proof (variance_nonneg (map (fun M => nu (cell M i j)) experts)).
  lra.
Qed.

(** The report of experts with matrices of one shape, the default cases
    included. *)
Lemma agreement_report_any (experts : list matrix) (r c : nat) :
  Forall (is_matrix r c) experts ->
  expert_agreement_analysis experts = Ok (mkAgreement 0 1 Yuksek)
  \/ ((1 <= r)%nat /\ experts <> [] /\
      expert_agreement_analysis experts =
      Ok (mkAgreement (round4 (avg_variance_exact r c experts))
                      (round4 (1 - Rmin (avg_variance_exact r c experts) 1))
                      (seviye_of (avg_variance_exact r c experts)))).
Proof.
  intros Hshape.
  destruct experts as [|e0 rest]; [now left|].
  destruct e0 as [|row0 e0']; [now left|].
  right.
  assert (Hr : (1 <= r)%nat).
  { pose proof Hshape as Hshape0. apply Forall_cons_iff in Hshape0.
    destruct Hshape0 as [[Hl _] _]. simpl in Hl. lia. }

  split; [exact Hr|]. split; [discriminate|].
  apply agreement_report; [exact Hr|discriminate|exact Hshape].
Qed.

(** Bounds of the two reported numbers. *)
Lemma agreement_bounds (experts : list matrix) (r c : nat) :
  Forall (is_matrix r c) experts ->
  exists rep,
    expert_agreement_analysis experts = Ok rep
    /\ 0 <= Ortalama_Varyans rep
    /\ 0 <= Uyum_Skoru rep <= 1.
Proof.
  intros Hshape.
  destruct (agreement_report_any experts r c Hshape) as [H|(_ & _ & H)];
    rewrite H; eexists; (split; [reflexivity|]);
    cbn [Ortalama_Varyans Uyum_Skoru].
  - lra.
  - pose proof (avg_variance_nonneg experts r c) as Hv.
    split; [now apply round4_nonneg|].
    assert (Hmin : 0 <= Rmin (avg_variance_exact r c experts) 1 <= 1).
    { split; [apply Rmin_glb; lra|apply Rmin_r]. }
    split; [apply round4_nonneg; lra|apply round4_le_1; lra].
Qed.

(** X23: The reported variance is not negative and the score lies in [[0,1]]. *)
Theorem agreement_report_bounds (experts : list matrix) (r c : nat) :
  Forall (is_matrix r c) experts ->
  exists rep,
    expert_agreement_analysis experts = Ok rep
    /\ 0 <= Ortalama_Varyans rep
    /\ 0 <= Uyum_Skoru rep <= 1.
Proof.
  intros Hshape.
  apply (agreement_bounds experts r c); assumption.
Qed.

Lemma variance_repeat (x : R) (n : nat) : (1 <= n)%nat -> variance (repeat x n) = 0.
Proof.
  intros Hn. unfold variance.
  rewrite arithmetic_mean_repeat by assumption.
  rewrite map_repeat_const, arithmetic_mean_repeat by assumption. ring.
Qed.

(** X24: Experts who all give the same matrix agree completely. *)
Theorem agreement_of_unanimous_experts (M : matrix) (r c E : nat) :
  is_matrix r c M ->
  expert_agreement_analysis (repeat M E) = Ok (mkAgreement 0 1 Yuksek).
Proof.
  intros Hshape.
  destruct (agreement_report_any (repeat M E) r c) as [H|(_ & Hne & H)].
  - apply Forall_forall. intros X HX. apply repeat_spec in HX. now subst X.
  - exact H.
  - rewrite H.
    assert (HE : (1 <= E)%nat) by (destruct E; [now elim Hne|lia]).
    assert (Hz : avg_variance_exact r c (repeat M E) = 0).
    { unfold avg_variance_exact.
      pose proof (concat_tab_all (fun x => x = 0)
                    (cell_variance (repeat M E)) r c) as Hall.
      destruct (concat (tab (cell_variance (repeat M E)) r c)) as [|v vs];
        [reflexivity|].
      unfold arithmetic_mean. rewrite sum_all_zero; [unfold Rdiv; lra|].
      apply Hall. intros i j. unfold cell_variance.
      rewrite !map_repeat_const, !variance_repeat by assumption. lra. }
    rewrite Hz, Rmin_left by lra. rewrite Rminus_0_r.
    now rewrite round4_0, round4_1, seviye_of_0.
Qed.

Lemma variance_perm (l l' : list R) : Permutation l l' -> variance l = variance l'.
Proof.
  intros H. unfold variance. rewrite (arithmetic_mean_perm _ _ H).
  apply arithmetic_mean_perm. now apply Permutation_map.
Qed.

Lemma tab_ext {A : Type} (f g : nat -> nat -> A) (r c : nat) :
  (forall i j, f i j = g i j) -> tab f r c = tab g r c.
Proof.
  intros H. unfold tab. apply map_ext. intros i. apply map_ext. intros j. apply H.
Qed.

(** X25: The report does not depend on the order of the experts. *)
Theorem agreement_expert_order_irrelevant
        (experts experts' : list matrix) (r c : nat) :
  Permutation experts experts' ->
  Forall (is_matrix r c) experts ->
  expert_agreement_analysis experts' = expert_agreement_analysis experts.
Proof.
  intros Hperm Hshape.
  assert (Hshape' : Forall (is_matrix r c) experts')
    by (eapply Permutation_Forall; eassumption).
  assert (Hav : avg_variance_exact r c experts' = avg_variance_exact r c experts).
  { unfold avg_variance_exact.
    rewrite (tab_ext (cell_variance experts') (cell_variance experts));
      [reflexivity|].
    intros i j. unfold cell_variance.
    now rewrite (variance_perm _ _ (Permutation_map (fun M => mu (cell M i j)) Hperm)),
                (variance_perm _ _ (Permutation_map (fun M => nu (cell M i j)) Hperm)). }
  destruct (Nat.eq_dec r 0) as [->|Hr].
  - assert (Hdef : forall xs, Forall (is_matrix 0 c) xs ->
                     expert_agreement_analysis xs = Ok (mkAgreement 0 1 Yuksek)).
    { intros xs Hxs. destruct xs as [|e0 rest]; [reflexivity|].
      apply Forall_cons_iff in Hxs. destruct Hxs as [[Hl _] _].
      destruct e0; [reflexivity|discriminate]. }
    now rewrite (Hdef _ Hshape), (Hdef _ Hshape').
  - destruct experts as [|e0 rest].
    + apply Permutation_nil in Hperm. now subst.
    + rewrite (agreement_report (e0 :: rest) r c); [|lia|discriminate|assumption].
      rewrite (agreement_report experts' r c); [|lia| |assumption].
      * now rewrite Hav.
      * intros ->. apply Permutation_sym, Permutation_nil in Hperm. discriminate.
Qed.

Lemma mapM_length {A B : Type} (f : A -> result B) (l : list A) (vs : list B) :
  mapM f l = Ok vs -> length vs = length l.
Proof.
  revert vs. induction l as [|x t IH]; intros vs H; simpl in H.
  - now injection H as <-.
  - destruct (f x) as [y| |]; try discriminate. cbn [bind] in H.
    destruct (mapM f t) as [ys| |]; try discriminate. cbn [bind] in H.
    injection H as <-. simpl. now rewrite (IH ys eq_refl).
Qed.

Lemma expert_column_cases (f : PFS -> R) (experts : list matrix) (i j : nat) :
  (exists vs,
      mapM (fun e => M <- index experts e ;; row <- index M i ;;
                     x <- index row j ;; Ok (f x)) (range (length experts))
      = Ok vs /\ length vs = length experts)
  \/ mapM (fun e => M <- index experts e ;; row <- index M i ;;
                    x <- index row j ;; Ok (f x)) (range (length experts))
     = Raise IndexError.
Proof.
  destruct (mapM_dichotomy
              (fun e => M <- index experts e ;; row <- index M i ;;
                        x <- index row j ;; Ok (f x))
              (range (length experts)) IndexError) as [[_ [vs Hvs]]|[_ Hr]].
  - intros e _. apply expert_lookup_cases.
  - left. exists vs. split; [exact Hvs|].
    rewrite (mapM_length _ _ _ Hvs). apply length_range.
  - now right.
Qed.

(** X26: An expert whose matrix lacks a cell of the first expert's grid makes the
    analysis fail with [IndexError]. *)
Theorem agreement_mismatched_shapes (experts : list matrix) (e i j : nat) :
  (e < length experts)%nat ->
  (i < length (nth 0 experts []))%nat ->
  (j < length (nth 0 (nth 0 experts []) []))%nat ->
  (length (nth e experts []) <= i)%nat
  \/ (length (nth i (nth e experts []) []) <= j)%nat ->
  expert_agreement_analysis experts = Raise IndexError.
Proof.
  intros He Hi Hj Hbad.
  destruct experts as [|e0 rest]; [simpl in He; lia|].
  destruct e0 as [|row0 e0']; [simpl in Hi; lia|].
  unfold expert_agreement_analysis. lazy iota beta.
  set (experts := @cons matrix (row0 :: e0') rest) in *.
  assert (HE : (1 <= length experts)%nat) by (simpl; lia).
  assert (Hcellbad :
            (M <- index experts e ;; row <- index M i ;;
             x <- index row j ;; Ok (mu x)) = Raise IndexError).
  { rewrite (index_nth experts e []) by assumption. cbn [bind].
    destruct Hbad as [Hb|Hb].
    - now rewrite index_out.
    - destruct (Nat.lt_ge_cases i (length (nth e experts []))) as [Hlt|Hge].
      + rewrite (index_nth _ i []) by assumption. cbn [bind].
        now rewrite index_out.
      + now rewrite index_out. }
  rewrite (index_nth experts 0 []) by lia. cbn [bind].
  rewrite (index_nth (nth 0 experts []) 0 []) by (simpl; lia). cbn [bind].
  change (nth 0 (nth 0 experts []) []) with row0 in *.
  change (nth 0 experts []) with (row0 :: e0') in *.
  match goal with
  | |- bind ?c _ = _ => assert (HS : c = Raise IndexError)
  end.
  { assert (Hcell : forall i' j',
      (exists v,
        (mu_values <- mapM (fun e => M <- index experts e ;; row <- index M i' ;;
                                     c <- index row j' ;; Ok (mu c))
                           (range (length experts)) ;;
         nu_values <- mapM (fun e => M <- index experts e ;; row <- index M i' ;;
                                     c <- index row j' ;; Ok (nu c))
                           (range (length experts)) ;;
         mu_avg <- true_div (sum mu_values) (INR (length mu_values)) ;;
         nu_avg <- true_div (sum nu_values) (INR (length nu_values)) ;;
         vm <- true_div (sum (map (fun x => (x - mu_avg) ^ 2) mu_values))
                        (INR (length mu_values)) ;;
         vn <- true_div (sum (map (fun x => (x - nu_avg) ^ 2) nu_values))
                        (INR (length nu_values)) ;;
         Ok (vm + vn)) = Ok v)
      \/ (mu_values <- mapM (fun e => M <- index experts e ;; row <- index M i' ;;
                                     c <- index row j' ;; Ok (mu c))
                           (range (length experts)) ;;
         nu_values <- mapM (fun e => M <- index experts e ;; row <- index M i' ;;
                                     c <- index row j' ;; Ok (nu c))
                           (range (length experts)) ;;
         mu_avg <- true_div (sum mu_values) (INR (length mu_values)) ;;
         nu_avg <- true_div (sum nu_values) (INR (length nu_values)) ;;
         vm <- true_div (sum (map (fun x => (x - mu_avg) ^ 2) mu_values))
                        (INR (length mu_values)) ;;
         vn <- true_div (sum (map (fun x => (x - nu_avg) ^ 2) nu_values))
                        (INR (length nu_values)) ;;
         Ok (vm + vn)) = Raise IndexError).
    { intros i' j'.
      destruct (expert_column_cases mu experts i' j') as [(ms & Hms & Hlm)|Hr];
        rewrite ?Hms, ?Hr; [|now right].
      cbn [bind].
      destruct (expert_column_cases nu experts i' j') as [(ns & Hns & Hln)|Hr];
        rewrite ?Hns, ?Hr; [|now right].
      cbn [bind]. rewrite Hlm, Hln.
      rewrite !true_div_ok by now apply INR_pos_neq. cbn [bind].
      rewrite !true_div_ok by now apply INR_pos_neq. cbn [bind].
      left. eauto. }
    apply mapM_some_raise.
    - intros i' _.
      match goal with
      | |- (exists v, mapM ?f ?l = Ok v) \/ _ =>
          destruct (mapM_dichotomy f l IndexError) as [[_ [vs Hvs]]|[_ Hr]]
      end.
      + intros j' _. apply Hcell.
      + left. eauto.
      + now right.
    - exists i. split; [now apply in_range|].
      apply mapM_some_raise.
      + intros j' _. apply Hcell.
      + exists j. split; [now apply in_range|].
        rewrite (mapM_some_raise _ (range (length experts)) IndexError);
          [reflexivity| |].
        * intros e' _. apply expert_lookup_cases.
        * exists e. split; [now apply in_range|exact Hcellbad]. }
  now rewrite HS.
Qed.

(** ** The score of a constructed value *)

(** X1: A value that the constructor returns has exactly the components it was given, and its score lies within [1 + 1e-9] of zero on either side (within [1] when both components are in [[0,1]]). *)
Theorem score_of_constructed_value (m n : R) (p : PFS) :
  PFS_new m n = Ok p ->
  mu p = m /\ nu p = n /\ - (1 + 1e-9) <= score p <= 1 + 1e-9
  /\ (0 <= m <= 1 -> 0 <= n <= 1 -> -1 <= score p <= 1).
Proof.
  unfold PFS_new, EPS. intros H.
  destruct (Rlt_dec (1 + 1e-9) (m ^ 2 + n ^ 2)) as [|Hle]; [discriminate|].
  injection H as <-. cbn [mu nu]. unfold score. cbn [mu nu].
  pose proof (pow2_ge_0 m). pose proof (pow2_ge_0 n).
  repeat split; try reflexivity; try lra; intros; nra.
Qed.

(** ** [compute]: reading the frames and the scales *)

Lemma cmapM_ext_in {A B : Type} (f g : A -> compute_result B) (l : list A) :
  (forall x, In x l -> f x = g x) -> cmapM f l = cmapM g l.
Proof.
  induction l as [|x t IH]; intros H; simpl; [reflexivity|].
  rewrite (H x (or_introl eq_refl)), IH; [reflexivity|].
  intros y Hy. apply H. now right.
Qed.

Lemma cmapM_Returned {A B : Type} (f : A -> B) (l : list A) :
  cmapM (fun x => Returned (f x)) l = Returned (map f l).
Proof.
  induction l as [|x t IH]; simpl; [reflexivity|]. now rewrite IH.
Qed.

Lemma cmapM_pure {A B : Type} (f : A -> compute_result B) (g : A -> B)
      (l : list A) :
  (forall x, In x l -> f x = Returned (g x)) -> cmapM f l = Returned (map g l).
Proof.
  intros H. rewrite <- cmapM_Returned. now apply cmapM_ext_in.
Qed.

Lemma cmapM_map {A B C : Type} (f : B -> compute_result C) (g : A -> B)
      (l : list A) :
  cmapM f (map g l) = cmapM (fun x => f (g x)) l.
Proof.
  induction l as [|x t IH]; simpl; [reflexivity|]. now rewrite IH.
Qed.

Lemma widget_at_lookup (f : frames) (e i j : nat) (w : widget) :
  widget_at f e i j = Some w ->
  (fe <-- lift (index f e) ;; row <-- lift (index fe i) ;;
   x <-- lift (index row j) ;; Returned x) = Returned w.
Proof.
  unfold widget_at, index.
  destruct (nth_error f e) as [fe|]; [|discriminate]. cbn [lift cbind].
  destruct (nth_error fe i) as [row|]; [|discriminate]. cbn [lift cbind].
  intros ->. reflexivity.
Qed.

Lemma read_fahp_labels_ok (E : nat) (f : frames) :
  fahp_frames_ok E f ->
  read_fahp_labels E f
  = Returned (map (fun e => tab (fahp_label f e) 5 5) (range E)).
Proof.
  intros Hok. unfold read_fahp_labels.
  apply cmapM_pure. intros e He%in_range.
  apply cmapM_pure. intros i Hi%in_range.
  apply cmapM_pure. intros j Hj%in_range.
  unfold fahp_label.
  destruct (Nat.eqb_spec i j) as [|Hij]; [reflexivity|].
  destruct (Hok e i j He Hi Hj Hij) as (w & Hw & _). rewrite Hw.
  unfold widget_at, index in *.
  destruct (nth_error f e) as [fe|]; [|discriminate]. cbn [lift cbind].
  destruct (nth_error fe i) as [row|]; [|discriminate]. cbn [lift cbind].
  rewrite Hw. cbn [lift cbind]. now destruct w.
Qed.

Lemma read_ftopsis_labels_ok (E : nat) (f : frames) :
  ftopsis_frames_ok E f ->
  read_ftopsis_labels E f
  = Returned (map (fun e => tab (ftopsis_label f e) 5 5) (range E)).
Proof.
  intros Hok. unfold read_ftopsis_labels.
  apply cmapM_pure. intros e He%in_range.
  apply cmapM_pure. intros i Hi%in_range.
  apply cmapM_pure. intros j Hj%in_range.
  unfold ftopsis_label.
  destruct (Hok e i j He Hi Hj) as (v & Hv & _). rewrite Hv.
  unfold widget_at, index in *.
  destruct (nth_error f e) as [fe|]; [|discriminate]. cbn [lift cbind].
  destruct (nth_error fe i) as [row|]; [|discriminate]. cbn [lift cbind].
  rewrite Hv. reflexivity.
Qed.

(** Every entry of the two scales passes the constructor's test, has its
    components in [[0,1]] and a [mu] of at least [0.1]. *)
Lemma AHP_SCALE_values (label : string) (m n : R) :
  AHP_SCALE label = Some (m, n) ->
  PFS_new m n = Ok (mkPFS m n) /\ valid_PFS (mkPFS m n) /\ 0.3 <= m.
Proof.
  unfold AHP_SCALE, PFS_new, valid_PFS, EPS. cbn [mu nu].
  repeat match goal with
         | |- context [String.eqb ?a ?b] => destruct (String.eqb a b)
         end;
    intros H; try discriminate; injection H as <- <-;
    (match goal with
     | |- context [Rlt_dec ?a ?b] => destruct (Rlt_dec a b)
     end; [lra|]); repeat split; lra.
Qed.

Lemma TOPSIS_SCALE_values (label : string) (m n : R) :
  TOPSIS_SCALE label = Some (m, n) ->
  PFS_new m n = Ok (mkPFS m n) /\ valid_PFS (mkPFS m n) /\ 0.1 <= m.
Proof.
  unfold TOPSIS_SCALE, PFS_new, valid_PFS, EPS. cbn [mu nu].
  repeat match goal with
         | |- context [String.eqb ?a ?b] => destruct (String.eqb a b)
         end;
    intros H; try discriminate; injection H as <- <-;
    (match goal with
     | |- context [Rlt_dec ?a ?b] => destruct (Rlt_dec a b)
     end; [lra|]); repeat split; lra.
Qed.

Lemma cmapM_dichotomy {A B : Type} (f : A -> compute_result B) (l : list A)
      (e : compute_exn) :
  (forall x, In x l -> (exists v, f x = Returned v) \/ f x = Raised e) ->
  ((forall x, In x l -> exists v, f x = Returned v)
   /\ exists vs, cmapM f l = Returned vs)
  \/ ((exists x, In x l /\ f x = Raised e) /\ cmapM f l = Raised e).
Proof.
  induction l as [|x t IH]; intros H.
  - left. split; [intros x []|now exists []].
  - destruct (H x (or_introl eq_refl)) as [[v Hv]|Hx].
    + destruct IH as [[Hall [vs Hvs]]|[(y & Hy & Hfy) Hr]].
      * intros y Hy. apply H. now right.
      * left. split.
        -- intros y [<-|Hy]; [eauto|now apply Hall].
        -- exists (v :: vs). simpl. now rewrite Hv, Hvs.
      * right. split; [exists y; split; [now right|assumption]|].
        simpl. now rewrite Hv, Hr.
    + right. split; [exists x; split; [now left|assumption]|].
      simpl. now rewrite Hx.
Qed.

Lemma cmapM_some_raise {A B : Type} (f : A -> compute_result B) (l : list A)
      (e : compute_exn) :
  (forall x, In x l -> (exists v, f x = Returned v) \/ f x = Raised e) ->
  (exists x, In x l /\ f x = Raised e) ->
  cmapM f l = Raised e.
Proof.
  intros H (x & Hx & Hfx).
  destruct (cmapM_dichotomy f l e H) as [[Hall _]|[_ Hr]]; [|exact Hr].
  destruct (Hall x Hx) as [v Hv]. congruence.
Qed.

Lemma label_cell (scale : string -> option (R * R)) (exp : list (list string))
      (i j : nat) :
  (forall label m n, scale label = Some (m, n) ->
                     PFS_new m n = Ok (mkPFS m n)) ->
  is_matrix 5 5 exp -> (i < 5)%nat -> (j < 5)%nat ->
  (row <-- lift (index exp i) ;;
   label <-- lift (index row j) ;;
   mn <-- scale_lookup scale label ;;
   lift (PFS_new (fst mn) (snd mn)))
  = match scale (nth j (nth i exp []) EmptyString) with
    | Some _ => Returned (scale_pfs scale (nth j (nth i exp []) EmptyString))
    | None => Raised KeyError
    end.
Proof.
  intros Hs [Hl Hrows] Hi Hj.
  rewrite (index_nth exp i []) by lia. cbn [lift cbind].
  rewrite (index_nth _ j EmptyString).
  2:{ rewrite Forall_forall in Hrows.
      rewrite (Hrows (nth i exp [])); [assumption|]. apply nth_In. lia. }
  cbn [lift cbind]. unfold scale_lookup, scale_pfs.
  destruct (scale (nth j (nth i exp []) EmptyString)) as [[m n]|] eqn:E;
    [|reflexivity].
  cbn [cbind fst snd]. now rewrite (Hs _ _ _ E).
Qed.

(** The two outcomes of the label loop. *)
Lemma labels_to_pfs_cases
        (scale : string -> option (R * R)) (exp : list (list string)) :
  scale = AHP_SCALE \/ scale = TOPSIS_SCALE ->
  is_matrix 5 5 exp ->
  ((forall i j, (i < 5)%nat -> (j < 5)%nat ->
                scale (nth j (nth i exp []) EmptyString) <> None) ->
   labels_to_pfs scale exp
   = Returned (tab (fun i j => scale_pfs scale (nth j (nth i exp []) EmptyString))
                   5 5))
  /\ ((exists i j, (i < 5)%nat /\ (j < 5)%nat /\
                   scale (nth j (nth i exp []) EmptyString) = None) ->
      labels_to_pfs scale exp = Raised KeyError).
Proof.
  intros Hscale Hshape.
  assert (Hs : forall label m n, scale label = Some (m, n) ->
                                 PFS_new m n = Ok (mkPFS m n)).
  { intros label m n H. destruct Hscale as [-> | ->].
    - apply (AHP_SCALE_values label m n H).
    - apply (TOPSIS_SCALE_values label m n H). }
  split.
  - intros Hknown. unfold labels_to_pfs, tab.
    apply cmapM_pure. intros i Hi%in_range.
    apply cmapM_pure. intros j Hj%in_range.
    rewrite (label_cell scale exp i j Hs Hshape Hi Hj).
    specialize (Hknown i j Hi Hj).
    now destruct (scale (nth j (nth i exp []) EmptyString)).
  - intros (i & j & Hi & Hj & Hnone). unfold labels_to_pfs.
    assert (Hcell : forall i' j', In i' (range 5) -> In j' (range 5) ->
      (exists v,
          (row <-- lift (index exp i') ;;
           label <-- lift (index row j') ;;
           mn <-- scale_lookup scale label ;;
           lift (PFS_new (fst mn) (snd mn))) = Returned v)
      \/ (row <-- lift (index exp i') ;;
          label <-- lift (index row j') ;;
          mn <-- scale_lookup scale label ;;
          lift (PFS_new (fst mn) (snd mn))) = Raised KeyError).
    { intros i' j' Hi'%in_range Hj'%in_range.
      rewrite (label_cell scale exp i' j' Hs Hshape Hi' Hj').
      destruct (scale (nth j' (nth i' exp []) EmptyString));
        [left; eauto|now right]. }
    apply cmapM_some_raise.
    + intros i' Hi'.
      match goal with
      | |- (exists v, cmapM ?f ?l = Returned v) \/ _ =>
          destruct (cmapM_dichotomy f l KeyError) as [[_ [vs Hvs]]|[_ Hr]]
      end.
      * intros j' Hj'. now apply Hcell.
      * left. eauto.
      * now right.
    + exists i. split; [now apply in_range|].
      apply cmapM_some_raise.
      * intros j' Hj'. apply Hcell; [now apply in_range|assumption].
      * exists j. split; [now apply in_range|].
        rewrite (label_cell scale exp i j Hs Hshape Hi Hj). now rewrite Hnone.
Qed.

(** X27: Turning a 5 by 5 grid of labels into PFS values: it succeeds exactly
    when every label is a key of the scale, and a label that is not makes
    it fail with [KeyError]. *)
Theorem labels_to_pfs_known_and_unknown_labels
        (scale : string -> option (R * R)) (exp : list (list string)) :
  scale = AHP_SCALE \/ scale = TOPSIS_SCALE ->
  is_matrix 5 5 exp ->
  ((forall i j, (i < 5)%nat -> (j < 5)%nat ->
                scale (nth j (nth i exp []) EmptyString) <> None) ->
   labels_to_pfs scale exp
   = Returned (tab (fun i j => scale_pfs scale (nth j (nth i exp []) EmptyString))
                   5 5))
  /\ ((exists i j, (i < 5)%nat /\ (j < 5)%nat /\
                   scale (nth j (nth i exp []) EmptyString) = None) ->
      labels_to_pfs scale exp = Raised KeyError).
Proof.
  intros Hscale Hexp.
  apply labels_to_pfs_cases; assumption.
Qed.

(** ** From the weights to the summary *)

Lemma fahp_weights_sum_one (M : matrix) (n : nat) (w : list R) :
  (1 <= n)%nat -> is_matrix n n M ->
  Forall (Forall (fun p => 0 <= mu p)) M ->
  fahp_weights M = Ok w -> sum w = 1 /\ length w = n.
Proof.
  intros Hn Hsq Hmu. rewrite (fahp_weights_nonneg_mu M n Hn Hsq Hmu).
  intros H. injection H as <-.
  destruct (Req_dec_T (sum (fahp_g M)) 0) as [Hz|Hnz].
  - rewrite sum_repeat, repeat_length. split; [|reflexivity].
    field. now apply INR_pos_neq.
  - rewrite sum_map_div. split; [now field|].
    unfold fahp_g. rewrite !length_map. apply Hsq.
Qed.

Lemma statistical_summary_value (w : list R) (df : DataFrame) :
  w <> [] -> df <> [] ->
  statistical_summary w df
  = Ok (mkSummary (np_mean (map CC df)) (np_std (map CC df))
                  (Rmin_list (map CC df)) (Rmax_list (map CC df))
                  (Rmax_list (map CC df) - Rmin_list (map CC df))
                  (sum w / INR (length w)) (Rmax_list w) (Rmin_list w)).
Proof.
  intros Hw Hdf. unfold statistical_summary, np_min, np_max.
  assert (Hcc : map CC df <> []) by (destruct df; [contradiction|discriminate]).
  rewrite (py_min_cons _ Hcc), (py_max_cons _ Hcc). cbn [bind].
  rewrite true_div_ok
    by (apply INR_pos_neq; destruct w; [contradiction|simpl; lia]).
  cbn [bind].
  now rewrite (py_max_cons _ Hw), (py_min_cons _ Hw).
Qed.

(** X17: The weights of a valid matrix always average [1/N], whatever the
    judgments: the "Agirlik Ortalamasi" line of the summary carries no
    information about them. *)
Theorem mean_weight_is_one_over_n (M : matrix) (n : nat) (df : DataFrame) :
  (1 <= n)%nat -> is_matrix n n M -> valid_matrix M -> df <> [] ->
  exists w s,
    fahp_weights M = Ok w
    /\ statistical_summary w df = Ok s
    /\ Agirlik_Ortalamasi s = 1 / INR n
    /\ Min_Agirlik s <= 1 / INR n <= Max_Agirlik s.
Proof.
  intros Hn Hsq Hvalid Hdf.
  pose proof (valid_matrix_nonneg_mu M Hvalid) as Hmu.
  destruct (fahp_weights_nth M n Hn Hsq Hmu) as (w & Hw & Hl & _).
  destruct (fahp_weights_sum_one M n w Hn Hsq Hmu Hw) as [Hs _].
  assert (Hne : w <> []) by (intros ->; simpl in Hl; lia).
  exists w. eexists. split; [exact Hw|].
  split; [now apply statistical_summary_value|].
  cbn [Agirlik_Ortalamasi Min_Agirlik Max_Agirlik].
  rewrite Hs, Hl. split; [reflexivity|].
  pose proof (mean_between w _ _ Hne (list_between_min_max w)) as Hb.
  unfold arithmetic_mean in Hb. now rewrite Hs, Hl in Hb.
Qed.

(** ** [compute] on readable frames *)

Lemma nth_tab {A : Type} (f : nat -> nat -> A) (r c i j : nat) (d : A) :
  (i < r)%nat -> (j < c)%nat -> nth j (nth i (tab f r c) []) d = f i j.
Proof.
  intros Hi Hj. unfold tab.
  rewrite (nth_map_range _ r i []) by assumption.
  now rewrite nth_map_range.
Qed.

Lemma tab_ext_lt {A : Type} (f g : nat -> nat -> A) (r c : nat) :
  (forall i j, (i < r)%nat -> (j < c)%nat -> f i j = g i j) ->
  tab f r c = tab g r c.
Proof.
  intros H. unfold tab. apply map_ext_in. intros i Hi%in_range.
  apply map_ext_in. intros j Hj%in_range. now apply H.
Qed.

Lemma fahp_label_known (E : nat) (ff : frames) (e i j : nat) :
  fahp_frames_ok E ff -> (e < E)%nat -> (i < 5)%nat -> (j < 5)%nat ->
  AHP_SCALE (fahp_label ff e i j) <> None.
Proof.
  intros Hok He Hi Hj. unfold fahp_label.
  destruct (Nat.eqb_spec i j) as [|Hij]; [discriminate|].
  destruct (Hok e i j He Hi Hj Hij) as (w & -> & Hw). exact Hw.
Qed.

Lemma ftopsis_label_known (E : nat) (tf : frames) (e i j : nat) :
  ftopsis_frames_ok E tf -> (e < E)%nat -> (i < 5)%nat -> (j < 5)%nat ->
  TOPSIS_SCALE (ftopsis_label tf e i j) <> None.
Proof.
  intros Hok He Hi Hj. unfold ftopsis_label.
  destruct (Hok e i j He Hi Hj) as (v & -> & Hv). exact Hv.
Qed.

Lemma AHP_pfs_valid (label : string) :
  AHP_SCALE label <> None ->
  valid_PFS (scale_pfs AHP_SCALE label) /\ 0.3 <= mu (scale_pfs AHP_SCALE label).
Proof.
  intros H. unfold scale_pfs.
  destruct (AHP_SCALE label) as [[m n]|] eqn:E; [|contradiction].
  destruct (AHP_SCALE_values label m n E) as (_ & Hv & Hm). now split.
Qed.

Lemma TOPSIS_pfs_valid (label : string) :
  TOPSIS_SCALE label <> None -> valid_PFS (scale_pfs TOPSIS_SCALE label).
Proof.
  intros H. unfold scale_pfs.
  destruct (TOPSIS_SCALE label) as [[m n]|] eqn:E; [|contradiction].
  now destruct (TOPSIS_SCALE_values label m n E) as (_ & Hv & _).
Qed.

Lemma Forall_tab {A : Type} (P : A -> Prop) (f : nat -> nat -> A) (r c : nat) :
  (forall i j, (i < r)%nat -> (j < c)%nat -> P (f i j)) ->
  Forall (Forall P) (tab f r c).
Proof.
  intros H. unfold tab. apply Forall_map, Forall_forall. intros i Hi%in_range.
  apply Forall_map, Forall_forall. intros j Hj%in_range. now apply H.
Qed.

Lemma Forall_map_range {A : Type} (P : A -> Prop) (f : nat -> A) (n : nat) :
  (forall e, (e < n)%nat -> P (f e)) -> Forall P (map f (range n)).
Proof.
  intros H. apply Forall_map, Forall_forall. intros e He%in_range. now apply H.
Qed.

(** The PFS matrices of the experts, as [compute] builds them from frames
    it can read. *)
Lemma experts_from_frames
      (scale : string -> option (R * R)) (L : nat -> nat -> nat -> string)
      (E : nat) :
  scale = AHP_SCALE \/ scale = TOPSIS_SCALE ->
  (forall e i j, (e < E)%nat -> (i < 5)%nat -> (j < 5)%nat ->
                 scale (L e i j) <> None) ->
  cmapM (labels_to_pfs scale) (map (fun e => tab (L e) 5 5) (range E))
  = Returned (map (fun e => tab (fun i j => scale_pfs scale (L e i j)) 5 5)
                  (range E)).
Proof.
  intros Hscale Hknown. rewrite cmapM_map.
  apply cmapM_pure. intros e He%in_range.
  destruct (labels_to_pfs_cases scale (tab (L e) 5 5)
              Hscale (is_matrix_tab _ 5 5)) as [Hok _].
  rewrite Hok.
  - apply f_equal. apply tab_ext_lt. intros i j Hi Hj. now rewrite nth_tab.
  - intros i j Hi Hj. rewrite nth_tab by assumption. now apply Hknown.
Qed.

Lemma consensus_of_valid_experts (experts : list matrix) (E : nat) (lo : R) :
  (1 <= E)%nat -> length experts = E ->
  Forall (is_matrix 5 5) experts -> Forall valid_matrix experts ->
  Forall (Forall (Forall (fun p => lo <= mu p))) experts ->
  exists A,
    aggregate_experts 5 5 E experts = Ok A
    /\ is_matrix 5 5 A /\ valid_matrix A
    /\ Forall (Forall (fun p => lo <= mu p)) A.
Proof.
  intros HE Hlen Hshape Hvalid Hlo. subst E.
  assert (Hne : experts <> []) by (intros ->; simpl in HE; lia).
  assert (Hpy : Forall (Forall (Forall pythagorean)) experts).
  { eapply Forall_impl; [|exact Hvalid]. intros M HM.
    eapply Forall_impl; [|exact HM]. intros row Hrow.
    eapply Forall_impl; [|exact Hrow]. intros p (_ & _ & Hp). exact Hp. }
  destruct (aggregate_constructed experts 5 5 Hne Hshape Hpy)
    as [Hagg _].
  destruct (aggregate_valid experts 5 5 Hne Hshape Hvalid)
    as (A & HA & HshA & HvA).
  exists A. repeat split; try assumption; try apply HshA.
  rewrite Hagg in HA. injection HA as <-.
  apply Forall_tab. intros i j Hi Hj. cbn [mu].
  unfold mean_mu. rewrite (mean_of_cells mu).
  assert (Hcells : Forall (fun x => lo <= x <= 1)
                          (map mu (map (fun M => cell M i j) experts))).
  { apply Forall_map, Forall_map, Forall_forall. intros M HM.
    pose proof (proj1 (Forall_forall _ _) Hshape M HM) as HsM.
    pose proof (proj1 (Forall_forall _ _) Hvalid M HM) as HvM.
    pose proof (proj1 (Forall_forall _ _) Hlo M HM) as HlM.
    split.
    - now apply (cell_in_matrix (fun p => lo <= mu p) M 5 5).
    - now apply (cell_in_matrix valid_PFS M 5 5 i j). }
  apply (mean_between _ lo 1); [|exact Hcells].
  intros E0. apply map_eq_nil, map_eq_nil in E0. contradiction.
Qed.

(** X28: With frames it can read, at least one expert and five alternatives,
    [compute] runs through: five positive weights that sum to 1, every
    alternative ranked once in descending order of [CC], every [CC] in
    [[0,1]], a mean weight of [0.2] and an agreement score in [[0,1]]. *)
Theorem compute_on_readable_frames
        (sort_values : DataFrame -> DataFrame)
        (self_experts : nat) (self_alternatives : list string)
        (fahp_frames ftopsis_frames : frames) :
  sort_values_contract sort_values ->
  (1 <= self_experts)%nat ->
  length self_alternatives = 5%nat ->
  fahp_frames_ok self_experts fahp_frames ->
  ftopsis_frames_ok self_experts ftopsis_frames ->
  exists c,
    compute sort_values self_experts self_alternatives
            fahp_frames ftopsis_frames = Returned c
    /\ length (computed_weights c) = 5%nat
    /\ sum (computed_weights c) = 1
    /\ Forall (fun x => 0 < x) (computed_weights c)
    /\ Permutation self_alternatives (map Alternative (computed_df c))
    /\ StronglySorted CC_desc (computed_df c)
    /\ Forall (fun r => 0 <= CC r <= 1) (computed_df c)
    /\ Agirlik_Ortalamasi (computed_stats c) = 0.2
    /\ 0 <= Uyum_Skoru (computed_agreement c) <= 1.
Proof.
  intros Hsort HE Halts Hff Htf.
  unfold compute.
  (* FAHP side *)
  rewrite (read_fahp_labels_ok _ _ Hff). cbn [cbind].
  rewrite (experts_from_frames AHP_SCALE (fahp_label fahp_frames) self_experts)
    by (auto; intros; now apply (fahp_label_known self_experts)).
  cbn [cbind].
  set (fexp := map (fun e => tab (fun i j => scale_pfs AHP_SCALE
                                              (fahp_label fahp_frames e i j)) 5 5)
                   (range self_experts)).
  assert (Hfshape : Forall (is_matrix 5 5) fexp).
  { apply Forall_map_range. intros e _. apply is_matrix_tab. }
  assert (Hfvalid : Forall valid_matrix fexp).
  { apply Forall_map_range. intros e He. apply Forall_tab. intros i j Hi Hj.
    apply AHP_pfs_valid. now apply (fahp_label_known self_experts). }
  assert (Hflo : Forall (Forall (Forall (fun p => 0.3 <= mu p))) fexp).
  { apply Forall_map_range. intros e He. apply Forall_tab. intros i j Hi Hj.
    apply AHP_pfs_valid. now apply (fahp_label_known self_experts). }
  assert (Hflen : length fexp = self_experts)
    by (unfold fexp; now rewrite length_map, length_range).
  destruct (consensus_of_valid_experts fexp self_experts 0.3 HE Hflen
              Hfshape Hfvalid Hflo) as (Af & HAf & HshAf & HvAf & HloAf).
  unfold pfs_fahp. rewrite HAf. cbn [lift cbind].
  assert (HposAf : Forall (Forall (fun p => 0 < mu p)) Af).
  { eapply Forall_impl; [|exact HloAf]. intros row Hrow.
    eapply Forall_impl; [|exact Hrow]. intros p Hp. cbv beta in Hp. lra. }
  destruct (fahp_weights_pos_entries Af 5 ltac:(lia) HshAf HposAf)
    as (w & Hw & Hwl & Hwpos).
  destruct (fahp_weights_sum_one Af 5 w ltac:(lia) HshAf
              (valid_matrix_nonneg_mu Af HvAf) Hw) as [Hwsum _].
  rewrite Hw. cbn [lift cbind].
  (* FTOPSIS side *)
  rewrite (read_ftopsis_labels_ok _ _ Htf). cbn [cbind].
  rewrite (experts_from_frames TOPSIS_SCALE (ftopsis_label ftopsis_frames)
             self_experts)
    by (auto; intros; now apply (ftopsis_label_known self_experts)).
  cbn [cbind].
  set (texp := map (fun e => tab (fun i j => scale_pfs TOPSIS_SCALE
                                              (ftopsis_label ftopsis_frames e i j))
                                 5 5) (range self_experts)).
  assert (Htshape : Forall (is_matrix 5 5) texp).
  { apply Forall_map_range. intros e _. apply is_matrix_tab. }
  assert (Htvalid : Forall valid_matrix texp).
  { apply Forall_map_range. intros e He. apply Forall_tab. intros i j Hi Hj.
    apply TOPSIS_pfs_valid. now apply (ftopsis_label_known self_experts). }
  assert (Htlo : Forall (Forall (Forall (fun p => 0 <= mu p))) texp).
  { eapply Forall_impl; [|exact Htvalid]. intros M HM.
    eapply Forall_impl; [|exact HM]. intros row Hrow.
    eapply Forall_impl; [|exact Hrow]. intros p (Hp & _). apply Hp. }
  assert (Htlen : length texp = self_experts)
    by (unfold texp; now rewrite length_map, length_range).
  destruct (consensus_of_valid_experts texp self_experts 0 HE Htlen
              Htshape Htvalid Htlo) as (At & HAt & HshAt & _ & _).
  unfold pfs_top. rewrite HAt. cbn [lift cbind].
  destruct (is_matrix_rows_ge 5 5 At HshAt ltac:(lia)) as [Hcols Hrows].
  destruct HshAt as [HlAt _].
  assert (Hft : ftopsis sort_values At w self_alternatives
                = Ok (sort_values (ft_table At w self_alternatives))).
  { apply ftopsis_ok; unfold ft_cols; rewrite ?Hcols; try lia; assumption. }
  rewrite Hft. cbn [lift cbind].
  destruct (Hsort (ft_table At w self_alternatives)) as [Hperm Hsorted].
  set (df := sort_values (ft_table At w self_alternatives)) in *.
  assert (Htl : length (ft_table At w self_alternatives) = 5%nat).
  { rewrite ft_table_length; unfold ft_rows; lia. }
  assert (Hdf : df <> []).
  { intros E0. apply Permutation_length in Hperm. rewrite E0, Htl in Hperm.
    discriminate. }
  assert (Hwne : w <> []) by (intros ->; discriminate).
  rewrite (statistical_summary_value w df Hwne Hdf). cbn [lift cbind].
  destruct (agreement_bounds fexp 5 5 Hfshape) as (rep & Hrep & _ & Hscore).
  rewrite Hrep. cbn [lift cbind].
  eexists. split; [reflexivity|].
  cbn [computed_weights computed_df computed_stats computed_agreement
       Agirlik_Ortalamasi].
  split; [exact Hwl|]. split; [exact Hwsum|]. split; [exact Hwpos|].
  split.
  { rewrite <- (ft_table_labels At w self_alternatives) at 1
      by (unfold ft_rows; lia).
    now apply Permutation_map. }
  split; [apply Sorted_StronglySorted; [exact CC_desc_trans|exact Hsorted]|].
  split.
  { apply Forall_forall. intros r Hr.
    apply (Permutation_in _ (Permutation_sym Hperm)) in Hr.
    destruct (in_ft_table At w self_alternatives r Hr) as (i & _ & _ & _ & ->).
    apply ft_CC_range. }
  split; [|exact Hscore].
  rewrite Hwsum, Hwl. simpl. lra.
Qed.

(* ================================================================== *)
(** * The further properties at sample inputs *)
(* ================================================================== *)

Ltac sample_sizes :=
  cbv [ft_cols ft_rows twins single ragged_2 length nth]; lia.

Ltac sample_values := repeat constructor; unfold EPS; simpl; lra.

Lemma score_of_constructed_value_witness :
  mu (mkPFS 0.5 0.6) = 0.5 /\ nu (mkPFS 0.5 0.6) = 0.6
  /\ - (1 + 1e-9) <= score (mkPFS 0.5 0.6) <= 1 + 1e-9
  /\ (0 <= 0.5 <= 1 -> 0 <= 0.6 <= 1 -> -1 <= score (mkPFS 0.5 0.6) <= 1).
Proof.
  apply (score_of_constructed_value 0.5 0.6 (mkPFS 0.5 0.6)).
  unfold PFS_new, EPS.
  destruct (Rlt_dec (1 + 1e-9) (0.5 ^ 2 + 0.6 ^ 2)); [lra|reflexivity].
Defined.

Lemma fahp_weights_malformed_matrix_witness :
  fahp_weights ragged_2 = Raise IndexError.
Proof.
  apply (proj2 fahp_weights_malformed_matrix ragged_2 [mkPFS 0.70 0.70]).
  - right. left. reflexivity.
  - simpl. lia.
Defined.

Lemma fahp_weights_follow_row_products_witness :
  exists w,
    fahp_weights EQ_HI_LI_EQ = Ok w /\ length w = 2%nat /\
    forall i k, (i < 2)%nat -> (k < 2)%nat ->
      row_product EQ_HI_LI_EQ i <= row_product EQ_HI_LI_EQ k ->
      nth i w 0 <= nth k w 0.
Proof.
  apply (fahp_weights_follow_row_products EQ_HI_LI_EQ 2).
  - lia.
  - split; [reflexivity|]. repeat constructor.
  - sample_values.
Defined.

Lemma fahp_weights_positive_witness :
  exists w,
    fahp_weights EQ_HI_LI_EQ = Ok w /\ length w = 2%nat
    /\ Forall (fun x => 0 < x) w.
Proof.
  apply (fahp_weights_positive EQ_HI_LI_EQ 2).
  - lia.
  - split; [reflexivity|]. repeat constructor.
  - sample_values.
Defined.

Lemma fahp_weights_scale_invariant_witness :
  fahp_weights EQ_2x2_half = fahp_weights EQ_2x2.
Proof.
  apply (fahp_weights_scale_invariant EQ_2x2 EQ_2x2_half 2 0.5).
  - lia.
  - lra.
  - split; [reflexivity|]. repeat constructor.
  - sample_values.
  - repeat constructor.
Defined.

Lemma fahp_weights_row_order_irrelevant_witness :
  fahp_weights HI_EQ_EQ_LI = fahp_weights EQ_HI_LI_EQ.
Proof.
  apply (fahp_weights_row_order_irrelevant EQ_HI_LI_EQ HI_EQ_EQ_LI 2).
  - lia.
  - split; [reflexivity|]. repeat constructor.
  - sample_values.
  - constructor; [apply perm_swap|].
    constructor; [apply perm_swap|constructor].
Defined.

Lemma ftopsis_values_in_range_witness :
  exists out,
    ftopsis sort_ties_in_order twins [1] ["B1"; "B2"]%string = Ok out
    /\ Forall (fun r => 0 <= D_plus r /\ 0 <= D_minus r /\ 0 <= CC r <= 1) out.
Proof.
  apply (ftopsis_values_in_range sort_ties_in_order twins [1]
           ["B1"; "B2"]%string sort_ties_in_order_contract).
  - sample_sizes.
  - repeat constructor.
  - sample_sizes.
  - reflexivity.
Defined.

Lemma ftopsis_ranks_every_alternative_witness :
  exists out,
    ftopsis sort_ties_in_order twins [1] ["B1"; "B2"]%string = Ok out
    /\ length out = 2%nat
    /\ Permutation ["B1"; "B2"]%string (map Alternative out).
Proof.
  apply (ftopsis_ranks_every_alternative sort_ties_in_order twins [1]
           ["B1"; "B2"]%string sort_ties_in_order_contract).
  - sample_sizes.
  - repeat constructor.
  - sample_sizes.
  - reflexivity.
Defined.

(** The stages of [ftopsis] at [low_high] with one weight [k]. *)
Lemma ft_S_low_high :
  ft_S low_high 0 0 = 0.6 /\ ft_S low_high 1 0 = 0.8.
Proof. unfold ft_S, cell, low_high, score; cbn [nth mu nu]. split; lra. Qed.

Lemma ft_denom_low_high : ft_denom low_high 0 = 1.
Proof.
  assert (Hn : ft_norm low_high 0 = 1).
  { unfold ft_norm, ft_rows. change (length low_high) with 2%nat.
    unfold range. cbn [seq map]. destruct ft_S_low_high as [-> ->].
    unfold sum. cbn [fold_left].
    replace (0 + 0.6 ^ 2 + 0.8 ^ 2) with 1 by lra. apply sqrt_1. }
  unfold ft_denom. rewrite Hn. destruct (Req_dec_T 1 0); [lra|reflexivity].
Qed.

Lemma ft_V_low_high (k : R) :
  ft_V low_high [k] 0 0 = 0.6 * k /\ ft_V low_high [k] 1 0 = 0.8 * k.
Proof.
  unfold ft_V, ft_R. rewrite ft_denom_low_high.
  destruct ft_S_low_high as [-> ->]. cbn [nth]. split; lra.
Qed.

Lemma ft_ideal_low_high (k : R) :
  0 <= k ->
  ft_v_plus low_high [k] 0 = 0.8 * k /\ ft_v_minus low_high [k] 0 = 0.6 * k.
Proof.
  intros Hk. unfold ft_v_plus, ft_v_minus, ft_rows.
  change (length low_high) with 2%nat. unfold range. cbn [seq map].
  destruct (ft_V_low_high k) as [-> ->].
  unfold Rmax_list, Rmin_list. cbn [fold_left]. split.
  - apply Rmax_right. lra.
  - apply Rmin_left. lra.
Qed.

Lemma sqrt_square_of (x y : R) : 0 <= y -> x = y ^ 2 -> sqrt x = y.
Proof. intros Hy ->. replace (y ^ 2) with (y * y) by ring. now apply sqrt_square. Qed.

Lemma ft_distances_low_high (k : R) :
  0 <= k ->
  ft_D_plus low_high [k] 0 = 0.2 * k /\ ft_D_minus low_high [k] 0 = 0
  /\ ft_D_plus low_high [k] 1 = 0 /\ ft_D_minus low_high [k] 1 = 0.2 * k.
Proof.
  intros Hk. unfold ft_D_plus, ft_D_minus, ft_cols.
  change (length (nth 0 low_high [])) with 1%nat. unfold range. cbn [seq map].
  destruct (ft_V_low_high k) as [-> ->].
  destruct (ft_ideal_low_high k Hk) as [-> ->].
  unfold sum. cbn [fold_left].
  repeat split; apply sqrt_square_of; lra.
Qed.

Lemma ft_CC_low_high (k : R) :
  0 < k -> ft_CC low_high [k] 0 = 0 /\ ft_CC low_high [k] 1 = 1.
Proof.
  intros Hk. unfold ft_CC.
  destruct (ft_distances_low_high k ltac:(lra)) as (-> & -> & -> & ->).
  destruct (Req_dec_T (0.2 * k + 0) 0); [lra|].
  destruct (Req_dec_T (0 + 0.2 * k) 0); [lra|].
  split; field; lra.
Qed.

Ltac low_high_sizes := cbv [ft_cols ft_rows low_high length nth]; lia.

Lemma ft_row_low_high (k : R) :
  0 < k ->
  ft_row low_high [k] ["B1"; "B2"]%string 0 = mkRow "B1" (0.2 * k) 0 0
  /\ ft_row low_high [k] ["B1"; "B2"]%string 1 = mkRow "B2" 0 (0.2 * k) 1.
Proof.
  intros Hk. unfold ft_row. cbn [nth].
  destruct (ft_distances_low_high k ltac:(lra)) as (-> & -> & -> & ->).
  destruct (ft_CC_low_high k Hk) as [-> ->]. now split.
Qed.

Lemma ftopsis_best_and_worst_alternative_witness :
  (exists out,
     ftopsis sort_ties_in_order low_high [1] ["B1"; "B2"]%string = Ok out
     /\ In (ft_row low_high [1] ["B1"; "B2"]%string 1) out
     /\ D_plus (ft_row low_high [1] ["B1"; "B2"]%string 1) = 0
     /\ D_minus (ft_row low_high [1] ["B1"; "B2"]%string 1) <> 0
     /\ CC (ft_row low_high [1] ["B1"; "B2"]%string 1) = 1
     /\ exists top rest, out = top :: rest /\ CC top = 1)
  /\ (exists out,
        ftopsis sort_ties_in_order low_high [1] ["B1"; "B2"]%string = Ok out
        /\ In (ft_row low_high [1] ["B1"; "B2"]%string 0) out
        /\ D_minus (ft_row low_high [1] ["B1"; "B2"]%string 0) = 0
        /\ CC (ft_row low_high [1] ["B1"; "B2"]%string 0) = 0).
Proof.
  assert (Hscore : forall i j, (i < 2)%nat -> (j < 1)%nat ->
            score (cell low_high 0 j) <= score (cell low_high i j)
            /\ score (cell low_high i j) <= score (cell low_high 1 j)).
  { intros i j Hi Hj. destruct j as [|j]; [|lia].
    destruct ft_S_low_high as [H0 H1]. unfold ft_S in H0, H1.
    destruct i as [|[|i]]; [| |lia]; rewrite ?H0, ?H1; lra. }
  assert (Hdm : D_minus (ft_row low_high [1] ["B1"; "B2"]%string 1) <> 0).
  { destruct (ft_row_low_high 1 ltac:(lra)) as [_ ->]. cbn [D_minus]. lra. }
  split.
  - destruct (ftopsis_best_and_worst_alternative sort_ties_in_order low_high [1]
                ["B1"; "B2"]%string 1 sort_ties_in_order_contract)
      as (out & Hout & Hin & Hbest & _).
    + repeat constructor.
    + low_high_sizes.
    + reflexivity.
    + repeat constructor. lra.
    + low_high_sizes.
    + destruct Hbest as [Hdp Hcc].
      { intros i j Hi Hj. now apply Hscore. }
      destruct (Hcc Hdm) as [Hcc1 Htop].
      exists out. repeat split; assumption.
  - destruct (ftopsis_best_and_worst_alternative sort_ties_in_order low_high [1]
                ["B1"; "B2"]%string 0 sort_ties_in_order_contract)
      as (out & Hout & Hin & _ & Hworst).
    + repeat constructor.
    + low_high_sizes.
    + reflexivity.
    + repeat constructor. lra.
    + low_high_sizes.
    + destruct Hworst as [Hdm0 Hcc0].
      { intros i j Hi Hj. now apply Hscore. }
      exists out. repeat split; assumption.
Defined.

Lemma ftopsis_indistinguishable_alternatives_witness :
  exists out,
    ftopsis sort_ties_in_order twins [1] ["B1"; "B2"]%string = Ok out
    /\ length out = 2%nat
    /\ Forall (fun r => D_plus r = 0 /\ D_minus r = 0 /\ CC r = 0) out.
Proof.
  apply (ftopsis_indistinguishable_alternatives sort_ties_in_order twins [1]
           ["B1"; "B2"]%string sort_ties_in_order_contract).
  - sample_sizes.
  - repeat constructor.
  - sample_sizes.
  - reflexivity.
  - intros i i' j Hi Hi' _.
    destruct i as [|[|i]]; destruct i' as [|[|i']];
      try reflexivity; simpl in Hi, Hi'; lia.
Defined.

Lemma ftopsis_weight_scale_witness :
  exists out out',
    ftopsis sort_ties_in_order low_high [1] ["B1"; "B2"]%string = Ok out
    /\ ftopsis sort_ties_in_order low_high (map (Rmult 2) [1])
               ["B1"; "B2"]%string = Ok out'
    /\ Permutation (map (scale_row 2) out) out'
    /\ In (mkRow "B1" 0.2 0 0) out
    /\ In (mkRow "B1" 0.4 0 0) out'.
Proof.
  destruct (ftopsis_weight_scale sort_ties_in_order low_high [1]
              ["B1"; "B2"]%string 2 sort_ties_in_order_contract)
    as (out & out' & Hout & Hout' & Hperm).
  - lra.
  - low_high_sizes.
  - repeat constructor.
  - low_high_sizes.
  - reflexivity.
  - assert (Hin : In (mkRow "B1" 0.2 0 0) out).
    { assert (Hok : ftopsis sort_ties_in_order low_high [1] ["B1"; "B2"]%string
                    = Ok (sort_ties_in_order
                            (ft_table low_high [1] ["B1"; "B2"]%string))).
      { apply ftopsis_ok;
          [low_high_sizes|repeat constructor|low_high_sizes|reflexivity]. }
      assert (Heq : out = sort_ties_in_order
                            (ft_table low_high [1] ["B1"; "B2"]%string))
        by congruence.
      rewrite Heq.
      eapply Permutation_in; [apply sort_ties_in_order_contract|].
      replace (mkRow "B1" 0.2 0 0)
        with (ft_row low_high [1] ["B1"; "B2"]%string 0).
      - apply in_ft_table_row; [reflexivity|low_high_sizes].
      - destruct (ft_row_low_high 1 ltac:(lra)) as [-> _]. f_equal. lra. }
    exists out, out'. repeat split; try assumption.
    eapply Permutation_in; [exact Hperm|].
    replace (mkRow "B1" 0.4 0 0) with (scale_row 2 (mkRow "B1" 0.2 0 0)).
    + now apply in_map.
    + unfold scale_row. cbn [Alternative D_plus D_minus CC]. f_equal; lra.
Defined.

Lemma ftopsis_malformed_matrix_witness :
  ftopsis sort_ties_in_order ragged_2 [1; 1] ["B1"; "B2"]%string
  = Raise IndexError.
Proof.
  apply (proj2 (ftopsis_malformed_matrix sort_ties_in_order [1; 1]
                  ["B1"; "B2"]%string) ragged_2 [mkPFS 0.70 0.70]).
  - right. left. reflexivity.
  - sample_sizes.
Defined.

Lemma statistical_summary_bounds_witness :
  exists s,
    statistical_summary [0.5; 0.5] four_rows = Ok s
    /\ Min_CC s <= Ortalama_CC s <= Max_CC s
    /\ CC_Araligi s = Max_CC s - Min_CC s
    /\ 0 <= Standart_Sapma s <= CC_Araligi s
    /\ Min_Agirlik s <= Agirlik_Ortalamasi s <= Max_Agirlik s
    /\ Forall (fun r => Min_CC s <= CC r <= Max_CC s) four_rows.
Proof.
  apply (statistical_summary_bounds [0.5; 0.5] four_rows); discriminate.
Defined.

Lemma statistical_summary_without_weights_witness :
  statistical_summary [] four_rows = Raise ZeroDivisionError.
Proof.
  apply (statistical_summary_without_weights four_rows). discriminate.
Defined.

Lemma mean_weight_is_one_over_n_witness :
  exists w s,
    fahp_weights EQ_2x2 = Ok w
    /\ statistical_summary w four_rows = Ok s
    /\ Agirlik_Ortalamasi s = 1 / INR 2
    /\ Min_Agirlik s <= 1 / INR 2 <= Max_Agirlik s.
Proof.
  apply (mean_weight_is_one_over_n EQ_2x2 2 four_rows).
  - lia.
  - split; [reflexivity|]. repeat constructor.
  - sample_values.
  - discriminate.
Defined.

Ltac sample_pythagorean :=
  repeat constructor; unfold pythagorean, EPS; simpl; lra.

Lemma aggregation_of_constructed_values_witness :
  aggregate_experts 1 1 (length VH_VL) VH_VL
  = Ok (tab (fun i j => mkPFS (mean_mu VH_VL i j) (mean_nu VH_VL i j)) 1 1)
  /\ Forall (Forall pythagorean)
       (tab (fun i j => mkPFS (mean_mu VH_VL i j) (mean_nu VH_VL i j)) 1 1).
Proof.
  apply (aggregation_of_constructed_values VH_VL 1 1).
  - discriminate.
  - repeat constructor.
  - sample_pythagorean.
Defined.

Lemma aggregation_keeps_values_valid_witness :
  exists A,
    aggregate_experts 1 1 (length VH_VL) VH_VL = Ok A
    /\ is_matrix 1 1 A /\ valid_matrix A.
Proof.
  apply (aggregation_keeps_values_valid VH_VL 1 1).
  - discriminate.
  - repeat constructor.
  - sample_values.
Defined.

Lemma aggregation_of_unanimous_experts_witness :
  aggregate_experts 1 1 3 (repeat single 3) = Ok single.
Proof.
  apply (aggregation_of_unanimous_experts single 1 1 3).
  - lia.
  - split; [reflexivity|]. repeat constructor.
  - sample_pythagorean.
Defined.

Lemma aggregation_expert_order_irrelevant_witness :
  aggregate_experts 1 1 (length VL_VH) VL_VH
  = aggregate_experts 1 1 (length VH_VL) VH_VL.
Proof.
  apply (aggregation_expert_order_irrelevant VH_VL VL_VH 1 1).
  - discriminate.
  - apply perm_swap.
  - repeat constructor.
Defined.

Lemma aggregation_bad_expert_count_witness :
  aggregate_experts 1 1 3 VH_VL = Raise IndexError.
Proof.
  apply (aggregation_bad_expert_count VH_VL 1 1 3); [lia|lia|simpl; lia].
Defined.

Lemma agreement_report_bounds_witness :
  exists rep,
    expert_agreement_analysis VH_VL = Ok rep
    /\ 0 <= Ortalama_Varyans rep
    /\ 0 <= Uyum_Skoru rep <= 1.
Proof.
  apply (agreement_report_bounds VH_VL 1 1). repeat constructor.
Defined.

Lemma agreement_of_unanimous_experts_witness :
  expert_agreement_analysis (repeat single 3) = Ok (mkAgreement 0 1 Yuksek).
Proof.
  apply (agreement_of_unanimous_experts single 1 1 3).
  split; [reflexivity|]. repeat constructor.
Defined.

Lemma agreement_expert_order_irrelevant_witness :
  expert_agreement_analysis VL_VH = expert_agreement_analysis VH_VL.
Proof.
  apply (agreement_expert_order_irrelevant VH_VL VL_VH 1 1).
  - apply perm_swap.
  - repeat constructor.
Defined.

Lemma agreement_mismatched_shapes_witness :
  expert_agreement_analysis short_expert = Raise IndexError.
Proof.
  apply (agreement_mismatched_shapes short_expert 1 0 0).
  - simpl. lia.
  - simpl. lia.
  - simpl. lia.
  - left. simpl. lia.
Defined.

Lemma labels_to_pfs_known_and_unknown_labels_witness :
  labels_to_pfs AHP_SCALE EQ_labels
  = Returned (tab (fun i j => scale_pfs AHP_SCALE
                                (nth j (nth i EQ_labels []) EmptyString)) 5 5).
Proof.
  apply (labels_to_pfs_known_and_unknown_labels AHP_SCALE EQ_labels).
  - now left.
  - apply is_matrix_tab.
  - intros i j Hi Hj. unfold EQ_labels. rewrite nth_tab by assumption.
    discriminate.
Defined.

(** The frames the program builds can be read, whatever the number of
    experts. *)
Lemma nth_error_map_range {A : Type} (g : nat -> A) (n j : nat) :
  (j < n)%nat -> nth_error (map g (range n)) j = Some (g j).
Proof.
  intros H. unfold range. rewrite nth_error_map, nth_error_seq.
  destruct (Nat.ltb_spec j n); [reflexivity|lia].
Qed.

Lemma widget_at_fresh (g : nat -> nat -> widget) (E e i j : nat) :
  (e < E)%nat -> (i < 5)%nat -> (j < 5)%nat ->
  widget_at (map (fun _ => tab g 5 5) (range E)) e i j = Some (g i j).
Proof.
  intros He Hi Hj. unfold widget_at, tab.
  rewrite nth_error_map_range by assumption.
  rewrite nth_error_map_range by assumption.
  now rewrite nth_error_map_range.
Qed.

Lemma fresh_frames_readable (E : nat) :
  fahp_frames_ok E (fresh_fahp_frames E)
  /\ ftopsis_frames_ok E (fresh_ftopsis_frames E).
Proof.
  split.
  - intros e i j He Hi Hj Hij. unfold fresh_fahp_frames.
    rewrite widget_at_fresh by assumption.
    destruct (Nat.eqb_spec i j) as [|_]; [contradiction|].
    eexists. split; [reflexivity|]. discriminate.
  - intros e i j He Hi Hj. unfold fresh_ftopsis_frames.
    rewrite widget_at_fresh by assumption.
    eexists. split; [reflexivity|]. discriminate.
Qed.

Lemma compute_on_readable_frames_witness :
  exists c,
    compute sort_ties_in_order 4 B1_to_B5
            (fresh_fahp_frames 4) (fresh_ftopsis_frames 4) = Returned c
    /\ length (computed_weights c) = 5%nat
    /\ sum (computed_weights c) = 1
    /\ Forall (fun x => 0 < x) (computed_weights c)
    /\ Permutation B1_to_B5 (map Alternative (computed_df c))
    /\ StronglySorted CC_desc (computed_df c)
    /\ Forall (fun r => 0 <= CC r <= 1) (computed_df c)
    /\ Agirlik_Ortalamasi (computed_stats c) = 0.2
    /\ 0 <= Uyum_Skoru (computed_agreement c) <= 1.
Proof.
  apply (compute_on_readable_frames sort_ties_in_order 4 B1_to_B5
           (fresh_fahp_frames 4) (fresh_ftopsis_frames 4)
           sort_ties_in_order_contract).
  - lia.
  - reflexivity.
  - apply fresh_frames_readable.
  - apply fresh_frames_readable.
Defined.

(* ================================================================== *)
(** * The order of the ranking *)
(* ================================================================== *)

Ltac conjs := repeat match goal with |- _ /\ _ => split end.

Section SortProof.

Local Open Scope bool_scope.
Local Open Scope nat_scope.

(** ** Index arrays *)

Lemma length_set_nth {A : Type} (l : list A) (i : nat) (x : A) :
  length (set_nth l i x) = length l.
Proof.
  revert i. induction l as [|y l IH]; intros [|i]; simpl; auto.
Qed.

Lemma nth_set_nth {A : Type} (l : list A) (i k : nat) (x d : A) :
  nth k (set_nth l i x) d
  = if (k =? i) && (i <? length l) then x else nth k l d.
Proof.
  revert i k. induction l as [|y l IH]; intros i k.
  - destruct i, k; simpl; rewrite ?Bool.andb_false_r; reflexivity.
  - destruct i, k; simpl; try reflexivity. apply IH.
Qed.

Lemma intp_at_set_nth (a : list nat) (i k x : nat) :
  i < length a ->
  intp_at (set_nth a i x) k = if k =? i then x else intp_at a k.
Proof.
  intros Hi. unfold intp_at. rewrite nth_set_nth.
  apply Nat.ltb_lt in Hi. rewrite Hi. now rewrite Bool.andb_true_r.
Qed.

Lemma length_INTP_SWAP (a : list nat) (i j : nat) :
  length (INTP_SWAP a i j) = length a.
Proof. unfold INTP_SWAP. now rewrite !length_set_nth. Qed.

Lemma intp_at_INTP_SWAP (a : list nat) (i j k : nat) :
  i < length a -> j < length a ->
  intp_at (INTP_SWAP a i j) k
  = if k =? j then intp_at a i else if k =? i then intp_at a j else intp_at a k.
Proof.
  intros Hi Hj. unfold INTP_SWAP.
  rewrite intp_at_set_nth by (now rewrite length_set_nth).
  destruct (k =? j); [reflexivity|]. now rewrite intp_at_set_nth.
Qed.

Lemma set_nth_split {A : Type} (l : list A) (i : nat) (x : A) :
  i < length l ->
  set_nth l i x = firstn i l ++ x :: skipn (S i) l.
Proof.
  revert i. induction l as [|y l IH]; intros [|i] Hi; simpl in *;
    try lia; auto.
  f_equal. apply IH. lia.
Qed.

Lemma nth_split_at {A : Type} (l : list A) (i : nat) (d : A) :
  i < length l -> l = firstn i l ++ nth i l d :: skipn (S i) l.
Proof.
  revert i. induction l as [|y l IH]; intros [|i] Hi; simpl in *;
    try lia; auto.
  f_equal. apply IH. lia.
Qed.

Lemma nth_error_if {A : Type} (l : list A) (k : nat) (d : A) :
  nth_error l k = if k <? length l then Some (nth k l d) else None.
Proof.
  destruct (Nat.ltb_spec k (length l)) as [H|H].
  - now apply nth_error_nth'.
  - now apply nth_error_None.
Qed.

(** Exchanging two entries rearranges the array. *)
Lemma INTP_SWAP_perm (a : list nat) (i j : nat) :
  i < length a -> j < length a -> Permutation a (INTP_SWAP a i j).
Proof.
  intros Hi Hj. apply Permutation_nth_error.
  split; [now rewrite length_INTP_SWAP|].
  exists (fun k => if k =? j then i else if k =? i then j else k).
  split.
  - intros x y.
    destruct (Nat.eqb_spec x j), (Nat.eqb_spec x i),
             (Nat.eqb_spec y j), (Nat.eqb_spec y i); lia.
  - intros k. rewrite !(nth_error_if _ _ 0), length_INTP_SWAP.
    fold (intp_at (INTP_SWAP a i j) k).
    rewrite intp_at_INTP_SWAP by assumption. unfold intp_at.
    destruct (Nat.eqb_spec k j) as [->|]; [|destruct (Nat.eqb_spec k i) as [->|]].
    + apply Nat.ltb_lt in Hi, Hj. now rewrite Hi, Hj.
    + apply Nat.ltb_lt in Hi, Hj. now rewrite Hi, Hj.
    + reflexivity.
Qed.

Lemma intp_ext (a b : list nat) :
  length a = length b -> (forall k, intp_at a k = intp_at b k) -> a = b.
Proof.
  intros Hl H. apply nth_ext with (d := 0) (d' := 0); [exact Hl|].
  intros k _. apply H.
Qed.


Lemma seg_perm_refl (lo hi : nat) (a : list nat) : seg_perm lo hi a a.
Proof. repeat split; auto. Qed.

Lemma seg_perm_trans (lo hi : nat) (a b c : list nat) :
  seg_perm lo hi a b -> seg_perm lo hi b c -> seg_perm lo hi a c.
Proof.
  intros (Hl1 & Hp1 & Ho1) (Hl2 & Hp2 & Ho2). repeat split.
  - congruence.
  - eapply perm_trans; eassumption.
  - intros k Hk. rewrite Ho2, Ho1; auto.
Qed.

Lemma seg_perm_weaken (lo hi lo' hi' : nat) (a b : list nat) :
  lo' <= lo -> hi <= hi' -> seg_perm lo hi a b -> seg_perm lo' hi' a b.
Proof.
  intros H1 H2 (Hl & Hp & Ho). repeat split; auto.
  intros k Hk. apply Ho. lia.
Qed.

Lemma seg_perm_swap (lo hi : nat) (a : list nat) (i j : nat) :
  lo <= i <= hi -> lo <= j <= hi -> i < length a -> j < length a ->
  seg_perm lo hi a (INTP_SWAP a i j).
Proof.
  intros Hi Hj Hil Hjl. repeat split.
  - apply length_INTP_SWAP.
  - now apply INTP_SWAP_perm.
  - intros k Hk. rewrite intp_at_INTP_SWAP by assumption.
    destruct (Nat.eqb_spec k j); [lia|]. destruct (Nat.eqb_spec k i); [lia|].
    reflexivity.
Qed.

Lemma intp_at_in (a : list nat) (k : nat) :
  k < length a -> In (intp_at a k) a.
Proof. intros H. now apply nth_In. Qed.

(** With distinct entries, what is in the slice stays in the slice. *)
Lemma seg_perm_inside (lo hi : nat) (a a' : list nat) (k : nat) :
  NoDup a -> seg_perm lo hi a a' -> lo <= k <= hi -> k < length a ->
  exists k', lo <= k' <= hi /\ k' < length a /\ intp_at a' k = intp_at a k'.
Proof.
  intros Hnd (Hl & Hp & Ho) Hk Hkl.
  assert (Hin : In (intp_at a' k) a).
  { apply (Permutation_in _ (Permutation_sym Hp)), intp_at_in. lia. }
  destruct (In_nth _ _ 0 Hin) as (k' & Hk' & E). fold (intp_at a k') in E.
  exists k'. split; [|now split].
  destruct (Nat.lt_ge_cases k' lo) as [H1|H1];
    [|destruct (Nat.lt_ge_cases hi k') as [H2|H2]; [|lia]].
  - exfalso. assert (Hnd' : NoDup a') by (eapply Permutation_NoDup; eassumption).
    rewrite <- (Ho k') in E by lia.
    apply (proj1 (NoDup_nth a' 0) Hnd') in E; lia.
  - exfalso. assert (Hnd' : NoDup a') by (eapply Permutation_NoDup; eassumption).
    rewrite <- (Ho k') in E by lia.
    apply (proj1 (NoDup_nth a' 0) Hnd') in E; lia.
Qed.

Lemma seg_perm_forall (P : nat -> Prop) (lo hi : nat) (a a' : list nat) :
  NoDup a -> seg_perm lo hi a a' -> hi < length a ->
  (forall k, lo <= k <= hi -> P (intp_at a k)) ->
  forall k, lo <= k <= hi -> P (intp_at a' k).
Proof.
  intros Hnd Hsp Hhi HP k Hk.
  destruct (seg_perm_inside lo hi a a' k Hnd Hsp Hk ltac:(lia))
    as (k' & Hk' & _ & ->).
  now apply HP.
Qed.

Lemma seg_perm_NoDup (lo hi : nat) (a a' : list nat) :
  NoDup a -> seg_perm lo hi a a' -> NoDup a'.
Proof. intros Hnd (_ & Hp & _). eapply Permutation_NoDup; eassumption. Qed.

Lemma set_nth_same (a : list nat) (i : nat) :
  set_nth a i (intp_at a i) = a.
Proof.
  apply intp_ext; [apply length_set_nth|]. intros k.
  unfold intp_at. rewrite nth_set_nth.
  destruct (Nat.eqb_spec k i) as [->|]; simpl; [|reflexivity].
  destruct (i <? length a); reflexivity.
Qed.

Lemma set_nth_twice (a : list nat) (i x y : nat) :
  set_nth (set_nth a i x) i y = set_nth a i y.
Proof.
  apply intp_ext; [now rewrite !length_set_nth|]. intros k.
  unfold intp_at. rewrite !nth_set_nth, length_set_nth.
  destruct ((k =? i) && (i <? length a)); reflexivity.
Qed.

(** ** The library's quicksort sorts *)

Section Keys.

Variable key : nat -> R.
Variable less : nat -> nat -> bool.
Hypothesis less_spec : forall x y, less x y = true <-> (key x < key y)%R.

Local Notation K := (key_at key).
Local Notation sorted_on := (sorted_on key).

Lemma less_false (x y : nat) : less x y = false <-> (key y <= key x)%R.
Proof.
  destruct (less x y) eqn:E.
  - apply less_spec in E. split; [discriminate|lra].
  - split; [|reflexivity]. intros _.
    destruct (Rle_dec (key y) (key x)) as [H|H]; [exact H|].
    assert (Hlt : (key x < key y)%R) by lra.
    apply less_spec in Hlt. congruence.
Qed.

Lemma shift_right_spec (vi pl : nat) :
  forall fuel a pj,
    pl <= pj -> pj < length a -> pj - pl <= fuel ->
    let b := set_nth a pj vi in
    let a' := fst (shift_right less fuel a vi pl pj) in
    let pj' := snd (shift_right less fuel a vi pl pj) in
    let b' := set_nth a' pj' vi in
    pl <= pj' <= pj
    /\ length a' = length a
    /\ seg_perm pj' pj b b'
    /\ (forall k, pj' < k <= pj -> intp_at b' k = intp_at b (k - 1))
    /\ intp_at b' pj' = vi
    /\ (forall k, pj' <= k < pj -> (key vi < K b k)%R)
    /\ (pj' = pl \/ (K b (pj' - 1) <= key vi)%R).
Proof.
  induction fuel as [|fuel IH]; intros a pj Hpl Hpj Hfuel; cbn zeta.
  - assert (pj = pl) as -> by lia. cbn [shift_right fst snd].
    conjs; try lia; try apply seg_perm_refl.
    now rewrite intp_at_set_nth, Nat.eqb_refl.
  - cbn [shift_right].
    destruct ((pl <? pj) && less vi (intp_at a (pj - 1))) eqn:Etest.
    + apply Bool.andb_true_iff in Etest. destruct Etest as [Hlt Hless].
      apply Nat.ltb_lt in Hlt. apply less_spec in Hless.
      set (a1 := set_nth a pj (intp_at a (pj - 1))).
      assert (Hl1 : length a1 = length a) by apply length_set_nth.
      specialize (IH a1 (pj - 1) ltac:(lia) ltac:(lia) ltac:(lia)).
      cbn zeta in IH.
      destruct (shift_right less fuel a1 vi pl (pj - 1)) as [a' pj'] eqn:Esh.
      cbn [fst snd] in *.
      destruct IH as (Hr & Hl & Hsp & Hshift & Hvi & Hgt & Hstop).
      set (b := set_nth a pj vi) in *.
      set (b1 := set_nth a1 (pj - 1) vi) in *.
      set (b' := set_nth a' pj' vi) in *.
      assert (Hb1 : forall k, intp_at b1 k
                = if k =? pj - 1 then vi
                  else if k =? pj then intp_at a (pj - 1) else intp_at a k).
      { intros k. unfold b1, a1.
        rewrite intp_at_set_nth by (rewrite length_set_nth; lia).
        destruct (k =? pj - 1); [reflexivity|].
        now rewrite intp_at_set_nth by lia. }
      assert (Hb : forall k, intp_at b k = if k =? pj then vi else intp_at a k).
      { intros k. unfold b. now rewrite intp_at_set_nth by lia. }
      assert (Eb1 : b1 = INTP_SWAP b (pj - 1) pj).
      { apply intp_ext.
        - unfold b1, b. now rewrite length_INTP_SWAP, !length_set_nth.
        - intros k. rewrite intp_at_INTP_SWAP
            by (unfold b; rewrite length_set_nth; lia).
          rewrite Hb1, !Hb.
          destruct (Nat.eqb_spec k pj) as [->|];
            destruct (Nat.eqb_spec (pj - 1) pj); try lia.
          + destruct (Nat.eqb_spec pj (pj - 1)); [lia|reflexivity].
          + destruct (Nat.eqb_spec k (pj - 1)); [|reflexivity].
            now rewrite Nat.eqb_refl. }
      assert (Hlb : length b = length a) by apply length_set_nth.
      conjs; try lia.
      * apply seg_perm_trans with (b := b1).
        -- rewrite Eb1.
           apply (seg_perm_swap pj' pj b (pj - 1) pj); lia.
        -- eapply seg_perm_weaken; [| |exact Hsp]; lia.
      * intros k Hk. destruct (Nat.eq_dec k pj) as [->|Hne].
        -- destruct Hsp as (_ & _ & Ho). rewrite Ho by lia.
           rewrite Hb1, Hb.
           destruct (Nat.eqb_spec pj (pj - 1)); [lia|].
           rewrite Nat.eqb_refl.
           destruct (Nat.eqb_spec (pj - 1) pj); [lia|reflexivity].
        -- rewrite Hshift by lia. rewrite Hb1, Hb.
           destruct (Nat.eqb_spec (k - 1) (pj - 1)); [lia|].
           destruct (Nat.eqb_spec (k - 1) pj); [lia|reflexivity].
      * intros k Hk. destruct (Nat.eq_dec k (pj - 1)) as [->|Hne].
        -- unfold K. rewrite Hb.
           destruct (Nat.eqb_spec (pj - 1) pj); [lia|exact Hless].
        -- specialize (Hgt k ltac:(lia)). unfold K in *.
           rewrite Hb1 in Hgt. rewrite Hb.
           destruct (Nat.eqb_spec k (pj - 1)); [lia|].
           destruct (Nat.eqb_spec k pj); [lia|exact Hgt].
      * destruct Hstop as [Hs|Hs]; [now left|].
        destruct (Nat.eq_dec pj' pl) as [E|E]; [now left|right].
        unfold K in *. rewrite Hb1 in Hs. rewrite Hb.
        destruct (Nat.eqb_spec (pj' - 1) (pj - 1)); [lia|].
        destruct (Nat.eqb_spec (pj' - 1) pj); [lia|exact Hs].
    + cbn [fst snd].
      assert (Hb : forall k, intp_at (set_nth a pj vi) k
                             = if k =? pj then vi else intp_at a k).
      { intros k. now rewrite intp_at_set_nth by lia. }
      conjs; try lia.
      * apply seg_perm_refl.
      * now rewrite Hb, Nat.eqb_refl.
      * apply Bool.andb_false_iff in Etest. destruct Etest as [E|E].
        -- apply Nat.ltb_ge in E. left. lia.
        -- destruct (Nat.eq_dec pj pl) as [E'|E']; [now left|right].
           unfold K. rewrite Hb.
           destruct (Nat.eqb_spec (pj - 1) pj); [lia|].
           now apply less_false.
Qed.

Lemma insertion_step (a : list nat) (pl pi : nat) :
  pl < pi -> pi < length a -> sorted_on a pl (pi - 1) ->
  let vi := intp_at a pi in
  let a2 := set_nth (fst (shift_right less (length a) a vi pl pi))
                    (snd (shift_right less (length a) a vi pl pi)) vi in
  length a2 = length a /\ seg_perm pl pi a a2 /\ sorted_on a2 pl pi.
Proof.
  intros Hpl Hpi Hsorted. cbn zeta.
  pose proof (shift_right_spec (intp_at a pi) pl (length a) a pi
                ltac:(lia) Hpi ltac:(lia)) as H.
  cbn zeta in H. rewrite set_nth_same in H.
  destruct (shift_right less (length a) a (intp_at a pi) pl pi) as [a1 pj].
  cbn [fst snd] in *.
  destruct H as (Hr & Hl & Hsp & Hshift & Hvi & Hgt & Hstop).
  set (a2 := set_nth a1 pj (intp_at a pi)) in *.
  assert (Hout : forall k, k < pj -> intp_at a2 k = intp_at a k).
  { intros k Hk. destruct Hsp as (_ & _ & Ho). apply Ho. lia. }
  split; [unfold a2; rewrite length_set_nth; exact Hl|].
  split; [eapply seg_perm_weaken; [| |exact Hsp]; lia|].
  intros i j Hi Hij Hj. unfold K.
  destruct (Nat.lt_trichotomy j pj) as [Hjp|[->|Hjp]].
  - rewrite !Hout by lia. apply Hsorted; lia.
  - rewrite Hvi. destruct (Nat.eq_dec i pj) as [->|Hne].
    + rewrite Hvi. lra.
    + rewrite Hout by lia. destruct Hstop as [->|Hs]; [lia|].
      apply Rle_trans with (K a (pj - 1)); [|exact Hs].
      apply Hsorted; lia.
  - rewrite (Hshift j) by lia.
    destruct (Nat.lt_trichotomy i pj) as [Hip|[->|Hip]].
    + rewrite Hout by lia. apply Hsorted; lia.
    + rewrite Hvi. left. apply Hgt. lia.
    + rewrite (Hshift i) by lia. apply Hsorted; lia.
Qed.

Lemma insertion_loop (pl : nat) :
  forall n a pi,
    pl < pi -> pi + n <= length a -> sorted_on a pl (pi - 1) ->
    let a' :=
      fold_left
        (fun a pi =>
           let vi := intp_at a pi in
           let '(a', pj) := shift_right less (length a) a vi pl pi in
           set_nth a' pj vi)
        (seq pi n) a in
    length a' = length a
    /\ seg_perm pl (pi + n - 1) a a' /\ sorted_on a' pl (pi + n - 1).
Proof.
  induction n as [|n IH]; intros a pi Hpl Hlen Hsorted; cbn zeta.
  - cbn [seq fold_left]. rewrite Nat.add_0_r.
    split; [reflexivity|]. split; [apply seg_perm_refl|exact Hsorted].
  - cbn [seq fold_left].
    destruct (insertion_step a pl pi Hpl ltac:(lia) Hsorted) as (Hl & Hsp & Hs).
    cbn zeta in Hl, Hsp, Hs.
    destruct (shift_right less (length a) a (intp_at a pi) pl pi) as [a1 pj].
    cbn [fst snd] in *.
    set (a2 := set_nth a1 pj (intp_at a pi)) in *.
    specialize (IH a2 (S pi) ltac:(lia) ltac:(lia)).
    replace (S pi - 1) with pi in IH by lia.
    specialize (IH Hs). cbn zeta in IH.
    destruct IH as (Hl' & Hsp' & Hs').
    replace (S pi + n - 1) with (pi + S n - 1) in * by lia.
    split; [congruence|]. split; [|exact Hs'].
    eapply seg_perm_trans; [|exact Hsp'].
    eapply seg_perm_weaken; [| |exact Hsp]; lia.
Qed.

Lemma insertion_spec (a : list nat) (pl pr : nat) :
  pl <= pr -> pr < length a ->
  length (insertion less a pl pr) = length a
  /\ seg_perm pl pr a (insertion less a pl pr)
  /\ sorted_on (insertion less a pl pr) pl pr.
Proof.
  intros Hpl Hpr. unfold insertion.
  assert (Hs0 : sorted_on a pl (S pl - 1)).
  { intros i j Hi Hij Hj. assert (i = j) as -> by lia. lra. }
  pose proof (insertion_loop pl (pr - pl) a (S pl) ltac:(lia) ltac:(lia) Hs0)
    as H.
  cbn zeta in H. replace (S pl + (pr - pl) - 1) with pr in H by lia.
  exact H.
Qed.

Lemma scan_up_spec (a : list nat) (vp : nat) :
  forall fuel pi s,
    pi <= s -> s - pi < fuel -> less (intp_at a s) vp = false ->
    let r := scan_up less fuel a vp pi in
    pi <= r <= s /\ less (intp_at a r) vp = false
    /\ forall k, pi <= k < r -> less (intp_at a k) vp = true.
Proof.
  induction fuel as [|fuel IH]; intros pi s Hs Hfuel Hsent; [lia|].
  cbn [scan_up]. destruct (less (intp_at a pi) vp) eqn:E.
  - destruct (Nat.eq_dec pi s) as [->|Hne]; [congruence|].
    destruct (IH (S pi) s ltac:(lia) ltac:(lia) Hsent) as (Hr & Hstop & Hall).
    split; [lia|]. split; [exact Hstop|].
    intros k Hk. destruct (Nat.eq_dec k pi) as [->|]; [exact E|].
    apply Hall. lia.
  - split; [lia|]. split; [exact E|]. intros k Hk. lia.
Qed.

Lemma scan_down_spec (a : list nat) (vp : nat) :
  forall fuel pj s,
    s <= pj -> pj - s < fuel -> less vp (intp_at a s) = false ->
    let r := scan_down less fuel a vp pj in
    s <= r <= pj /\ less vp (intp_at a r) = false
    /\ forall k, r < k <= pj -> less vp (intp_at a k) = true.
Proof.
  induction fuel as [|fuel IH]; intros pj s Hs Hfuel Hsent; [lia|].
  cbn [scan_down]. destruct (less vp (intp_at a pj)) eqn:E.
  - destruct (Nat.eq_dec pj s) as [->|Hne]; [congruence|].
    destruct (IH (pred pj) s ltac:(lia) ltac:(lia) Hsent) as (Hr & Hstop & Hall).
    split; [lia|]. split; [exact Hstop|].
    intros k Hk. destruct (Nat.eq_dec k pj) as [->|]; [exact E|].
    apply Hall. lia.
  - split; [lia|]. split; [exact E|]. intros k Hk. lia.
Qed.

Lemma exchange_spec (vp pl pr : nat) :
  forall fuel a pi pj,
    pl <= pi -> pi < pj -> pj < pr -> pr < length a -> pj - pi <= fuel ->
    (forall k, pl <= k <= pi -> (K a k <= key vp)%R) ->
    (forall k, pj <= k <= pr -> (key vp <= K a k)%R) ->
    let a' := fst (exchange less fuel a vp pi pj) in
    let pi' := snd (exchange less fuel a vp pi pj) in
    pi < pi' <= pj /\ length a' = length a
    /\ seg_perm (S pi) (pj - 1) a a'
    /\ (forall k, pl <= k < pi' -> (K a' k <= key vp)%R)
    /\ (forall k, pi' <= k <= pr -> (key vp <= K a' k)%R).
Proof.
  induction fuel as [|fuel IH]; intros a pi pj Hpl Hij Hpj Hpr Hfuel Hlow Hhigh;
    [lia|].
  cbn [exchange].
  destruct (scan_up_spec a vp (length a) (S pi) pj ltac:(lia) ltac:(lia))
    as (Hr1 & Hstop1 & Hall1).
  { apply less_false. apply Hhigh. lia. }
  destruct (scan_down_spec a vp (length a) (pred pj) pi ltac:(lia) ltac:(lia))
    as (Hr2 & Hstop2 & Hall2).
  { apply less_false. apply Hlow. lia. }
  set (pi1 := scan_up less (length a) a vp (S pi)) in *.
  set (pj1 := scan_down less (length a) a vp (pred pj)) in *.
  apply less_false in Hstop1, Hstop2.
  assert (Hlt1 : forall k, S pi <= k < pi1 -> (K a k < key vp)%R).
  { intros k Hk. apply less_spec. now apply Hall1. }
  assert (Hgt2 : forall k, pj1 < k <= pred pj -> (key vp < K a k)%R).
  { intros k Hk. apply less_spec. now apply Hall2. }
  destruct (Nat.leb_spec pj1 pi1) as [Hbreak|Hgo]; cbn zeta.
  - cbn [fst snd]. split; [lia|]. split; [reflexivity|].
    split; [apply seg_perm_refl|]. split.
    + intros k Hk. destruct (Nat.le_gt_cases k pi); [apply Hlow; lia|].
      left. apply Hlt1. lia.
    + intros k Hk. destruct (Nat.le_gt_cases pj k); [apply Hhigh; lia|].
      destruct (Nat.le_gt_cases k pj1).
      * assert (k = pi1) as -> by lia. exact Hstop1.
      * left. apply Hgt2. lia.
  - set (a1 := INTP_SWAP a pi1 pj1).
    assert (Ha1 : forall k, intp_at a1 k
              = if k =? pj1 then intp_at a pi1
                else if k =? pi1 then intp_at a pj1 else intp_at a k).
    { intros k. unfold a1. apply intp_at_INTP_SWAP; lia. }
    assert (Hl1 : length a1 = length a) by apply length_INTP_SWAP.
    specialize (IH a1 pi1 pj1 ltac:(lia) Hgo ltac:(lia) ltac:(lia) ltac:(lia)).
    cbn zeta in IH.
    destruct (exchange less fuel a1 vp pi1 pj1) as [a' pi'].
    cbn [fst snd] in *.
    destruct IH as (Hr & Hl & Hsp & Hlow' & Hhigh').
    + intros k Hk. unfold K. rewrite Ha1.
      destruct (Nat.eqb_spec k pj1); [lia|].
      destruct (Nat.eqb_spec k pi1); [exact Hstop2|].
      destruct (Nat.le_gt_cases k pi); [apply Hlow; lia|].
      left. apply Hlt1. lia.
    + intros k Hk. unfold K. rewrite Ha1.
      destruct (Nat.eqb_spec k pj1); [exact Hstop1|].
      destruct (Nat.eqb_spec k pi1); [lia|].
      destruct (Nat.le_gt_cases pj k); [apply Hhigh; lia|].
      left. apply Hgt2. lia.
    + split; [lia|]. split; [congruence|]. split; [|split; assumption].
      apply seg_perm_trans with (b := a1).
      * apply seg_perm_swap; lia.
      * eapply seg_perm_weaken; [| |exact Hsp]; lia.
Qed.

(** Two entries are exchanged when they are out of order. *)
Lemma cond_swap_spec (lo hi : nat) (a : list nat) (i j : nat) :
  lo <= i <= hi -> lo <= j <= hi -> i < length a -> j < length a ->
  let a' := if less (intp_at a i) (intp_at a j) then INTP_SWAP a i j else a in
  length a' = length a /\ seg_perm lo hi a a'
  /\ (K a' j <= K a' i)%R
  /\ (forall k, k <> i -> k <> j -> intp_at a' k = intp_at a k)
  /\ ((intp_at a' i = intp_at a i /\ intp_at a' j = intp_at a j)
      \/ (intp_at a' i = intp_at a j /\ intp_at a' j = intp_at a i)).
Proof.
  intros Hi Hj Hil Hjl. cbn zeta.
  destruct (less (intp_at a i) (intp_at a j)) eqn:E.
  - apply less_spec in E.
    assert (Hs : forall k, intp_at (INTP_SWAP a i j) k
              = if k =? j then intp_at a i
                else if k =? i then intp_at a j else intp_at a k).
    { intros k. now apply intp_at_INTP_SWAP. }
    split; [apply length_INTP_SWAP|]. split; [now apply seg_perm_swap|].
    split; [|split].
    + unfold K. rewrite !Hs, !Nat.eqb_refl.
      destruct (Nat.eqb_spec i j) as [->|]; lra.
    + intros k Hki Hkj. rewrite Hs.
      destruct (Nat.eqb_spec k j); [contradiction|].
      destruct (Nat.eqb_spec k i); [contradiction|reflexivity].
    + right. rewrite !Hs, !Nat.eqb_refl.
      destruct (Nat.eqb_spec i j) as [->|]; auto.
  - apply less_false in E.
    split; [reflexivity|]. split; [apply seg_perm_refl|].
    split; [exact E|]. split; [reflexivity|]. now left.
Qed.

Lemma div2_bounds (d : nat) : 2 <= d -> 1 <= Nat.div2 d < d.
Proof.
  intros H. rewrite Nat.div2_div.
  pose proof (Nat.div_mod_eq d 2) as E.
  pose proof (Nat.mod_upper_bound d 2 ltac:(lia)). lia.
Qed.

Lemma median_partition_spec (a : list nat) (pl pr : nat) :
  pl + 2 <= pr -> pr < length a ->
  let a' := fst (median_partition less a pl pr) in
  let pi := snd (median_partition less a pl pr) in
  pl < pi < pr /\ length a' = length a /\ seg_perm pl pr a a'
  /\ (forall k, pl <= k < pi -> (K a' k <= K a' pi)%R)
  /\ (forall k, pi < k <= pr -> (K a' pi <= K a' k)%R).
Proof.
  intros Hpl Hpr. unfold median_partition.
  pose proof (div2_bounds (pr - pl) ltac:(lia)) as Hd.
  set (pm := pl + Nat.div2 (pr - pl)).
  assert (Hpm : pl < pm < pr) by (unfold pm; lia).
  destruct (cond_swap_spec pl pr a pm pl) as (Hl1 & Hsp1 & Ho1 & Hk1 & Hc1);
    try lia.
  set (a1 := if less (intp_at a pm) (intp_at a pl) then INTP_SWAP a pm pl else a)
    in *.
  destruct (cond_swap_spec pl pr a1 pr pm) as (Hl2 & Hsp2 & Ho2 & Hk2 & Hc2);
    try lia.
  set (a2 := if less (intp_at a1 pr) (intp_at a1 pm) then INTP_SWAP a1 pr pm
             else a1) in *.
  destruct (cond_swap_spec pl pr a2 pm pl) as (Hl3 & Hsp3 & Ho3 & Hk3 & Hc3);
    try lia.
  set (a3 := if less (intp_at a2 pm) (intp_at a2 pl) then INTP_SWAP a2 pm pl
             else a2) in *.
  assert (Hmed : (K a3 pl <= K a3 pm <= K a3 pr)%R).
  { split; [exact Ho3|]. unfold K in *.
    rewrite (Hk3 pr) by lia.
    assert (Hplpr : (key (intp_at a2 pl) <= key (intp_at a2 pr))%R).
    { rewrite (Hk2 pl) by lia.
      destruct Hc2 as [[E1 E2]|[E1 E2]]; rewrite E1; [|exact Ho1].
      rewrite E1, E2 in Ho2. lra. }
    destruct Hc3 as [[E1 E2]|[E1 E2]]; rewrite E1; [exact Ho2|exact Hplpr]. }
  set (vp := intp_at a3 pm).
  set (a4 := INTP_SWAP a3 pm (pr - 1)).
  assert (Hl4 : length a4 = length a3) by apply length_INTP_SWAP.
  assert (Ha4 : forall k, intp_at a4 k
            = if k =? pr - 1 then intp_at a3 pm
              else if k =? pm then intp_at a3 (pr - 1) else intp_at a3 k).
  { intros k. unfold a4. apply intp_at_INTP_SWAP; lia. }
  assert (Hsp4 : seg_perm pl pr a3 a4) by (apply seg_perm_swap; lia).
  pose proof (exchange_spec vp pl pr (length a4) a4 pl (pr - 1)
                ltac:(lia) ltac:(lia) ltac:(lia) ltac:(lia) ltac:(lia))
    as Hex.
  cbn zeta in Hex.
  destruct (exchange less (length a4) a4 vp pl (pr - 1)) as [a5 pi].
  cbn [fst snd] in *.
  destruct Hex as (Hr & Hl5 & Hsp5 & Hlow & Hhigh).
  - intros k Hk. assert (k = pl) as -> by lia. unfold K. rewrite Ha4.
    destruct (Nat.eqb_spec pl (pr - 1)); [lia|].
    destruct (Nat.eqb_spec pl pm); [lia|]. apply Hmed.
  - intros k Hk. unfold K. rewrite Ha4.
    destruct (Nat.eqb_spec k (pr - 1)); [unfold vp; lra|].
    assert (k = pr) as -> by lia.
    destruct (Nat.eqb_spec pr pm); [lia|]. apply Hmed.
  - assert (Hq : intp_at a5 (pr - 1) = vp).
    { destruct Hsp5 as (_ & _ & Ho). rewrite Ho by lia.
      rewrite Ha4, Nat.eqb_refl. reflexivity. }
    assert (Ha6 : forall k, intp_at (INTP_SWAP a5 pi (pr - 1)) k
              = if k =? pr - 1 then intp_at a5 pi
                else if k =? pi then vp else intp_at a5 k).
    { intros k. rewrite intp_at_INTP_SWAP by lia. now rewrite Hq. }
    assert (Hpiv : K (INTP_SWAP a5 pi (pr - 1)) pi = key vp).
    { unfold K. rewrite Ha6. destruct (Nat.eqb_spec pi (pr - 1)) as [E|E].
      - rewrite E, Hq. reflexivity.
      - now rewrite Nat.eqb_refl. }
    split; [lia|]. split; [rewrite length_INTP_SWAP; congruence|].
    split; [|split].
    + apply seg_perm_trans with (b := a3).
      { apply seg_perm_trans with (b := a2); [|exact Hsp3].
        apply seg_perm_trans with (b := a1); assumption. }
      apply seg_perm_trans with (b := a4); [exact Hsp4|].
      apply seg_perm_trans with (b := a5).
      * eapply seg_perm_weaken; [| |exact Hsp5]; lia.
      * apply seg_perm_swap; lia.
    + intros k Hk. rewrite Hpiv. unfold K. rewrite Ha6.
      destruct (Nat.eqb_spec k (pr - 1)); [lia|].
      destruct (Nat.eqb_spec k pi); [lia|]. apply Hlow. lia.
    + intros k Hk. rewrite Hpiv. unfold K. rewrite Ha6.
      destruct (Nat.eqb_spec k (pr - 1)); [apply Hhigh; lia|].
      destruct (Nat.eqb_spec k pi); [lia|]. apply Hhigh. lia.
Qed.

Section Heap.

Variable b : nat.

Local Notation H := (heap_key key b).
Local Notation heap_from := (heap_from key b).
Local Notation heap_but := (heap_but key b).

Lemma sift_down_spec (lo n tmp : nat) :
  forall fuel a i j,
    1 <= lo -> lo <= i -> i <= n -> b + n <= length a -> j = 2 * i ->
    n - i < fuel ->
    heap_but (set_nth a (b + i - 1) tmp) lo n i ->
    let v := set_nth a (b + i - 1) tmp in
    let v' := sift_down less fuel b n tmp a i j in
    length v' = length a
    /\ seg_perm (b + i - 1) (b + n - 1) v v'
    /\ heap_from v' lo n.
Proof.
  induction fuel as [|fuel IH]; intros a i j Hlo Hi Hin Hlen Hj Hfuel Hheap;
    [lia|].
  cbn zeta. cbn [sift_down].
  set (v := set_nth a (b + i - 1) tmp) in *.
  assert (Hv : forall k, intp_at v k
             = if k =? b + i - 1 then tmp else intp_at a k).
  { intros k. unfold v. apply intp_at_set_nth. lia. }
  assert (Hlv : length v = length a) by apply length_set_nth.
  assert (HvH : forall k, 1 <= k -> k <> i -> H v k = key (intp_at a (b + k - 1))).
  { intros k Hk Hne. unfold H. rewrite Hv.
    destruct (Nat.eqb_spec (b + k - 1) (b + i - 1)); [lia|reflexivity]. }
  assert (Hvi : H v i = key tmp).
  { unfold H. now rewrite Hv, Nat.eqb_refl. }
  destruct Hheap as [Hothers Hgp].
  destruct (Nat.leb_spec j n) as [Hjn|Hjn].
  - set (j' := if (j <? n) && less (intp_at a (b + j - 1))
                                   (intp_at a (b + (j + 1) - 1))
               then j + 1 else j).
    assert (Hj' : (j' = j \/ (j' = j + 1 /\ j + 1 <= n))
                  /\ (H v j <= H v j')%R
                  /\ (j + 1 <= n -> (H v (j + 1) <= H v j')%R)).
    { unfold j'.
      destruct (Nat.ltb_spec j n) as [Hlt|Hge]; cbn [andb].
      - destruct (less _ _) eqn:E.
        + apply less_spec in E. split; [right; lia|].
          rewrite !HvH by lia. lra.
        + apply less_false in E. split; [now left|].
          rewrite !HvH by lia. lra.
      - split; [now left|]. split; [lra|]. intros. lia. }
    destruct Hj' as (Hj'c & Hjle & Hj1le).
    assert (Hj'r : 2 * i <= j' <= n /\ (j' = 2 * i \/ j' = 2 * i + 1)) by lia.
    destruct (less tmp (intp_at a (b + j' - 1))) eqn:Eless.
    + apply less_spec in Eless.
      set (a1 := set_nth a (b + i - 1) (intp_at a (b + j' - 1))).
      set (v1 := set_nth a1 (b + j' - 1) tmp).
      assert (Hl1 : length a1 = length a) by apply length_set_nth.
      assert (Hv1 : forall k, intp_at v1 k
                  = if k =? b + j' - 1 then tmp
                    else if k =? b + i - 1 then intp_at a (b + j' - 1)
                    else intp_at a k).
      { intros k. unfold v1, a1.
        rewrite intp_at_set_nth by (rewrite length_set_nth; lia).
        destruct (k =? b + j' - 1); [reflexivity|].
        apply intp_at_set_nth. lia. }
      assert (Ev1 : v1 = INTP_SWAP v (b + i - 1) (b + j' - 1)).
      { apply intp_ext.
        - unfold v1. now rewrite length_INTP_SWAP, length_set_nth, Hl1, Hlv.
        - intros k. rewrite intp_at_INTP_SWAP by lia. rewrite Hv1, !Hv.
          rewrite Nat.eqb_refl.
          destruct (Nat.eqb_spec (b + j' - 1) (b + i - 1)); [lia|].
          destruct (Nat.eqb_spec k (b + j' - 1)); [reflexivity|].
          destruct (Nat.eqb_spec k (b + i - 1)); reflexivity. }
      assert (Hv1H : forall k, 1 <= k -> k <> i -> k <> j' -> H v1 k = H v k).
      { intros k Hk Hne Hne'. unfold H. rewrite Hv1, Hv.
        destruct (Nat.eqb_spec (b + k - 1) (b + j' - 1)); [lia|].
        destruct (Nat.eqb_spec (b + k - 1) (b + i - 1)); [lia|reflexivity]. }
      assert (Hv1i : H v1 i = H v j').
      { unfold H. rewrite Hv1, Hv.
        destruct (Nat.eqb_spec (b + i - 1) (b + j' - 1)); [lia|].
        rewrite Nat.eqb_refl.
        destruct (Nat.eqb_spec (b + j' - 1) (b + i - 1)); [lia|reflexivity]. }
      assert (Hv1j : H v1 j' = key tmp).
      { unfold H. now rewrite Hv1, Nat.eqb_refl. }
      assert (Hvj' : H v j' = key (intp_at a (b + j' - 1))) by (apply HvH; lia).
      specialize (IH a1 j' (j' + j') Hlo ltac:(lia) ltac:(lia) ltac:(lia)
                     ltac:(lia) ltac:(lia)).
      fold v1 in IH. cbn zeta in IH.
      destruct IH as (Hl' & Hsp' & Hheap').
      { split.
        - intros p c Hp Hne Hc Hcn.
          destruct (Nat.eq_dec p i) as [->|Hpi].
          + rewrite Hv1i.
            destruct (Nat.eq_dec c j') as [->|Hcj]; [rewrite Hv1j; lra|].
            rewrite Hv1H by lia.
            assert (c = j \/ c = j + 1) as [->| ->] by lia; [lra|].
            apply Hj1le. lia.
          + rewrite (Hv1H p) by lia.
            destruct (Nat.eq_dec c i) as [->|Hci].
            * rewrite Hv1i. apply (Hgp p j'); lia.
            * rewrite Hv1H by lia. apply Hothers; lia.
        - intros p c Hp Hpar Hc Hcn.
          assert (p = i) as -> by lia.
          rewrite Hv1i, Hv1H by lia. apply Hothers; lia. }
      split; [congruence|]. split; [|exact Hheap'].
      apply seg_perm_trans with (b := v1).
      * rewrite Ev1. apply seg_perm_swap; lia.
      * eapply seg_perm_weaken; [| |exact Hsp']; lia.
    + apply less_false in Eless.
      fold v. split; [exact Hlv|]. split; [apply seg_perm_refl|].
      intros p c Hp Hc Hcn.
      destruct (Nat.eq_dec p i) as [->|Hpi]; [|now apply Hothers].
      rewrite Hvi.
      assert (Hvj' : H v j' = key (intp_at a (b + j' - 1))) by (apply HvH; lia).
      assert (c = j \/ c = j + 1) as [->| ->] by lia.
      * lra.
      * specialize (Hj1le ltac:(lia)). lra.
  - fold v. split; [exact Hlv|]. split; [apply seg_perm_refl|].
    intros p c Hp Hc Hcn.
    destruct (Nat.eq_dec p i) as [->|Hpi]; [lia|now apply Hothers].
Qed.

Lemma heap_root_max (a : list nat) (m : nat) :
  heap_from a 1 m -> forall k, 1 <= k <= m -> (H a k <= H a 1)%R.
Proof.
  intros Hh k. induction k as [k IH] using lt_wf_ind. intros Hk.
  destruct (Nat.eq_dec k 1) as [->|Hne]; [lra|].
  pose proof (Nat.div_mod_eq k 2) as E.
  pose proof (Nat.mod_upper_bound k 2 ltac:(lia)) as Hm.
  apply Rle_trans with (H a (k / 2)).
  - apply Hh; lia.
  - apply IH; lia.
Qed.

Lemma build_heap (n : nat) :
  forall t a,
    2 * t <= n -> b + n <= length a -> heap_from a (S t) n ->
    let a' :=
      fold_left
        (fun a l => sift_down less n b n (intp_at a (b + l - 1)) a l (2 * l))
        (rev (seq 1 t)) a in
    length a' = length a /\ seg_perm b (b + n - 1) a a' /\ heap_from a' 1 n.
Proof.
  induction t as [|t IH]; intros a Ht Hlen Hheap; cbn zeta.
  - cbn [seq rev fold_left]. split; [reflexivity|].
    split; [apply seg_perm_refl|exact Hheap].
  - rewrite seq_S, rev_app_distr. cbn [rev app fold_left].
    replace (1 + t) with (S t) by lia.
    pose proof (sift_down_spec (S t) n (intp_at a (b + S t - 1)) n a (S t)
                  (2 * S t) ltac:(lia) ltac:(lia) ltac:(lia) Hlen eq_refl
                  ltac:(lia)) as Hs.
    rewrite set_nth_same in Hs. cbn zeta in Hs.
    destruct Hs as (Hl1 & Hsp1 & Hh1).
    { split.
      - intros p c Hp Hne Hc Hcn. apply Hheap; lia.
      - intros p c Hp Hpar Hc Hcn. lia. }
    set (a1 := sift_down less n b n (intp_at a (b + S t - 1)) a (S t) (2 * S t))
      in *.
    destruct (IH a1 ltac:(lia) ltac:(lia) Hh1) as (Hl & Hsp & Hh).
    split; [congruence|]. split; [|exact Hh].
    apply seg_perm_trans with (b := a1); [|exact Hsp].
    eapply seg_perm_weaken; [| |exact Hsp1]; lia.
Qed.

Lemma extract_max (n : nat) :
  forall t a,
    S t <= n -> b + n <= length a -> NoDup a ->
    heap_from a 1 (S t) ->
    sorted_on a (b + S t) (b + n - 1) ->
    (forall k u, 1 <= k <= S t -> S t < u <= n -> (H a k <= H a u)%R) ->
    let a' :=
      fold_left
        (fun a m =>
           let tmp := intp_at a (b + m - 1) in
           let a' := set_nth a (b + m - 1) (intp_at a (b + 1 - 1)) in
           sift_down less n b (m - 1) tmp a' 1 2)
        (rev (seq 2 t)) a in
    length a' = length a /\ seg_perm b (b + n - 1) a a'
    /\ sorted_on a' b (b + n - 1).
Proof.
  induction t as [|t IH]; intros a Ht Hlen Hnd Hheap Htail Hle; cbn zeta.
  - cbn [seq rev fold_left]. split; [reflexivity|].
    split; [apply seg_perm_refl|].
    intros i j Hi Hij Hj.
    destruct (Nat.eq_dec i j) as [->|Hne]; [lra|].
    destruct (Nat.eq_dec i b) as [->|Hib].
    + specialize (Hle 1 (j - b + 1) ltac:(lia) ltac:(lia)).
      unfold H in Hle. unfold K.
      replace (b + 1 - 1) with b in Hle by lia.
      replace (b + (j - b + 1) - 1) with j in Hle by lia. exact Hle.
    + apply Htail; lia.
  - rewrite seq_S, rev_app_distr. cbn [rev app fold_left].
    replace (2 + t) with (S (S t)) by lia.
    set (m := S (S t)) in *.
    set (tmp := intp_at a (b + m - 1)).
    set (a1 := set_nth a (b + m - 1) (intp_at a (b + 1 - 1))).
    set (v := set_nth a1 (b + 1 - 1) tmp).
    assert (Hl1 : length a1 = length a) by apply length_set_nth.
    assert (Hlv : length v = length a)
      by (unfold v; now rewrite length_set_nth).
    assert (Hv : forall k, intp_at v k
              = if k =? b + 1 - 1 then intp_at a (b + m - 1)
                else if k =? b + m - 1 then intp_at a (b + 1 - 1)
                else intp_at a k).
    { intros k. unfold v, a1, tmp.
      rewrite intp_at_set_nth by (rewrite length_set_nth; lia).
      destruct (k =? b + 1 - 1); [reflexivity|].
      apply intp_at_set_nth. unfold m. lia. }
    assert (Ev : v = INTP_SWAP a (b + m - 1) (b + 1 - 1)).
    { apply intp_ext; [now rewrite length_INTP_SWAP|].
      intros k. rewrite intp_at_INTP_SWAP by (unfold m; lia). apply Hv. }
    assert (Hspv : seg_perm b (b + n - 1) a v).
    { rewrite Ev. apply seg_perm_swap; unfold m; lia. }
    assert (Hndv : NoDup v) by (eapply seg_perm_NoDup; eassumption).
    assert (HvH : forall k, 1 <= k -> k <> 1 -> k <> m -> H v k = H a k).
    { intros k Hk H1 Hm. unfold H. rewrite Hv.
      destruct (Nat.eqb_spec (b + k - 1) (b + 1 - 1)); [lia|].
      destruct (Nat.eqb_spec (b + k - 1) (b + m - 1)); [lia|reflexivity]. }
    assert (Hvm : H v m = H a 1).
    { unfold H. rewrite Hv.
      destruct (Nat.eqb_spec (b + m - 1) (b + 1 - 1)); [unfold m in *; lia|].
      now rewrite Nat.eqb_refl. }
    assert (Hv1 : H v 1 = H a m).
    { unfold H. now rewrite Hv, Nat.eqb_refl. }
    pose proof (heap_root_max a m Hheap) as Hroot.
    pose proof (sift_down_spec 1 (m - 1) tmp n a1 1 2 ltac:(lia) ltac:(lia)
                  ltac:(unfold m; lia) ltac:(unfold m; lia) eq_refl
                  ltac:(unfold m; lia)) as Hs.
    fold v in Hs. cbn zeta in Hs.
    destruct Hs as (Hl2 & Hsp2 & Hh2).
    { split.
      - intros p c Hp Hne Hc Hcn. rewrite !HvH by (unfold m in *; lia).
        apply Hheap; unfold m in *; lia.
      - intros p c Hp Hpar Hc Hcn. lia. }
    set (a2 := sift_down less n b (m - 1) tmp a1 1 2) in *.
    replace (m - 1) with (S t) in * by (unfold m; lia).
    assert (Hout : forall k, k < b + 1 - 1 \/ b + S t - 1 < k ->
                             intp_at a2 k = intp_at v k).
    { destruct Hsp2 as (_ & _ & Ho). exact Ho. }
    assert (Hin : forall k, 1 <= k <= S t ->
              (H a2 k <= H a 1)%R
              /\ forall u, m < u <= n -> (H a2 k <= H a u)%R).
    { intros k Hk.
      apply (seg_perm_forall
               (fun x => (key x <= H a 1)%R
                         /\ forall u, m < u <= n -> (key x <= H a u)%R)
               (b + 1 - 1) (b + S t - 1) v a2 Hndv Hsp2);
        [lia| |lia].
      intros k' Hk'.
      assert (Hk'' : intp_at v k' = intp_at v (b + (k' - b + 1) - 1))
        by (f_equal; lia).
      rewrite Hk''. fold (H v (k' - b + 1)).
      destruct (Nat.eq_dec (k' - b + 1) 1) as [E|E].
      - rewrite E, Hv1. split; [apply Hroot; unfold m; lia|].
        intros u Hu. apply Hle; unfold m in *; lia.
      - rewrite HvH by (unfold m; lia).
        split; [apply Hroot; unfold m; lia|].
        intros u Hu. apply Hle; unfold m in *; lia. }
    assert (Htl : forall u, m <= u -> H a2 u = H v u).
    { intros u Hu. unfold H. apply f_equal, Hout. unfold m in *. lia. }
    destruct (IH a2 ltac:(lia) ltac:(lia)) as (Hl & Hsp & Hsorted).
    + eapply seg_perm_NoDup; eassumption.
    + exact Hh2.
    + intros i j Hi Hij Hj. unfold K.
      replace i with (b + (i - b + 1) - 1) by lia.
      replace j with (b + (j - b + 1) - 1) by lia.
      fold (H a2 (i - b + 1)). fold (H a2 (j - b + 1)).
      rewrite !Htl by (unfold m; lia).
      destruct (Nat.eq_dec i j) as [->|Hne]; [lra|].
      destruct (Nat.eq_dec (i - b + 1) m) as [E|E].
      * rewrite E, Hvm, HvH by (unfold m in *; lia).
        apply Hle; unfold m in *; lia.
      * rewrite !HvH by (unfold m in *; lia).
        specialize (Htail i j ltac:(unfold m in *; lia) ltac:(lia) ltac:(lia)).
        unfold K in Htail. unfold H.
        replace (b + (i - b + 1) - 1) with i by lia.
        replace (b + (j - b + 1) - 1) with j by lia. exact Htail.
    + intros k u Hk Hu. destruct (Hin k Hk) as [Hk1 Hk2].
      rewrite (Htl u) by (unfold m; lia).
      destruct (Nat.eq_dec u m) as [->|Hne]; [now rewrite Hvm|].
      rewrite HvH by (unfold m in *; lia). apply Hk2. lia.
    + split; [etransitivity; [exact Hl|congruence]|]. split; [|exact Hsorted].
      apply seg_perm_trans with (b := a2); [|exact Hsp].
      apply seg_perm_trans with (b := v); [exact Hspv|].
      eapply seg_perm_weaken; [| |exact Hsp2]; lia.
Qed.

Lemma aheapsort_spec (a : list nat) (n : nat) :
  1 <= n -> b + n <= length a -> NoDup a ->
  length (aheapsort less a b n) = length a
  /\ seg_perm b (b + n - 1) a (aheapsort less a b n)
  /\ sorted_on (aheapsort less a b n) b (b + n - 1).
Proof.
  intros Hn Hlen Hnd. unfold aheapsort.
  pose proof (Nat.div_mod_eq n 2) as E.
  pose proof (Nat.mod_upper_bound n 2 ltac:(lia)) as Hm.
  destruct (build_heap n (n / 2) a ltac:(lia) Hlen) as (Hl1 & Hsp1 & Hh1).
  { intros p c Hp Hc Hcn. lia. }
  set (a1 := fold_left _ (rev (seq 1 (n / 2))) a) in *.
  destruct (extract_max n (n - 1) a1 ltac:(lia) ltac:(lia)) as (Hl & Hsp & Hs).
  - eapply seg_perm_NoDup; eassumption.
  - replace (S (n - 1)) with n by lia. exact Hh1.
  - intros i j Hi Hij Hj. lia.
  - intros k u Hk Hu. lia.
  - split; [etransitivity; [exact Hl|exact Hl1]|]. split; [|exact Hs].
    apply seg_perm_trans with (b := a1); [exact Hsp1|exact Hsp].
Qed.

End Heap.

Local Notation ordered := (ordered key).
Local Notation qs_inv := (qs_inv key).

(** The slice at hand is rearranged so that what is left to do is in the
    slices [news], parts of it. *)
Lemma qs_inv_refine (a a' : list nat) (s : nat * nat)
      (news rest : list (nat * nat)) :
  qs_inv a (s :: rest) ->
  seg_perm (fst s) (snd s) a a' ->
  Forall (fun x => fst x <= snd x /\ fst s <= fst x /\ snd x <= snd s) news ->
  all_disjoint news ->
  (forall i j, i < j -> in_seg s i -> in_seg s j -> ~ same_seg news i j ->
               (K a' i <= K a' j)%R) ->
  qs_inv a' (news ++ rest).
Proof.
  intros (Hnd & Hok & Hdisj & Hord) Hsp Hnews Hnd' Hin.
  pose proof Hsp as (Hl & Hp & Ho).
  inversion Hok as [|? ? Hs Hrest]; subst.
  cbn [all_disjoint] in Hdisj. destruct Hdisj as [Hds Hdr].
  rewrite Forall_forall in Hds, Hrest, Hnews.
  assert (Hsub : forall x k, In x news -> in_seg x k -> in_seg s k).
  { intros x k Hx Hk. destruct (Hnews x Hx) as (_ & H1 & H2).
    unfold in_seg in *. lia. }
  assert (Hnot : forall t k, In t rest -> in_seg s k -> ~ in_seg t k).
  { intros t k Ht Hk Hk'. destruct (Hds t Ht); unfold in_seg in *; lia. }
  split; [eapply seg_perm_NoDup; eassumption|]. split; [|split].
  - apply Forall_app. split.
    + apply Forall_forall. intros x Hx. destruct (Hnews x Hx) as (H1 & H2 & H3).
      destruct Hs as [Hs1 Hs2]. split; [exact H1|]. rewrite Hl. lia.
    + apply Forall_forall. intros t Ht. rewrite Hl. now apply Hrest.
  - clear Hin. induction news as [|x news IH]; [exact Hdr|].
    cbn [app all_disjoint]. destruct Hnd' as [Hx Hnd'].
    split.
    + apply Forall_app. split; [exact Hx|].
      apply Forall_forall. intros t Ht.
      destruct (Hnews x (or_introl eq_refl)) as (H1 & H2 & H3).
      destruct (Hds t Ht) as [H|H]; [left|right]; lia.
    + apply IH; [|exact Hnd'|].
      * intros y Hy. apply Hnews. now right.
      * intros y k Hy. apply Hsub. now right.
  - intros i j Hij Hj Hns. rewrite Hl in Hj.
    destruct (Nat.le_gt_cases (fst s) i) as [Hi1|Hi1];
      [destruct (Nat.le_gt_cases i (snd s)) as [Hi2|Hi2]|];
      (destruct (Nat.le_gt_cases (fst s) j) as [Hj1|Hj1];
       [destruct (Nat.le_gt_cases j (snd s)) as [Hj2|Hj2]|]); try lia.
    + apply Hin; try (unfold in_seg; lia).
      intros (x & Hx & Hxi & Hxj). apply Hns. exists x.
      split; [apply in_or_app; now left|now split].
    + (* i inside, j after *)
      unfold K. rewrite (Ho j) by lia.
      apply (seg_perm_forall (fun x => (key x <= key (intp_at a j))%R)
               (fst s) (snd s) a a' Hnd Hsp); [destruct Hs; lia| |lia].
      intros k Hk. apply Hord; [lia|lia|].
      intros (t & [<-|Ht] & Hti & Htj); [unfold in_seg in *; lia|].
      apply (Hnot t k Ht); [unfold in_seg; lia|exact Hti].
    + unfold K. rewrite (Ho i), (Ho j) by lia. apply Hord; [lia|lia|].
      intros (t & [<-|Ht] & Hti & Htj); [unfold in_seg in *; lia|].
      apply Hns. exists t. split; [apply in_or_app; now right|now split].
    + (* i before, j inside *)
      unfold K. rewrite (Ho i) by lia.
      apply (seg_perm_forall (fun x => (key (intp_at a i) <= key x)%R)
               (fst s) (snd s) a a' Hnd Hsp); [destruct Hs; lia| |lia].
      intros k Hk. apply Hord; [lia|destruct Hs; lia|].
      intros (t & [<-|Ht] & Hti & Htj); [unfold in_seg in *; lia|].
      apply (Hnot t k Ht); [unfold in_seg; lia|exact Htj].
    + unfold K. rewrite (Ho i), (Ho j) by lia. apply Hord; [lia|lia|].
      intros (t & [<-|Ht] & Hti & Htj); [unfold in_seg in *; lia|].
      apply Hns. exists t. split; [apply in_or_app; now right|now split].
    + unfold K. rewrite (Ho i), (Ho j) by lia. apply Hord; [lia|lia|].
      intros (t & [<-|Ht] & Hti & Htj); [unfold in_seg in *; lia|].
      apply Hns. exists t. split; [apply in_or_app; now right|now split].
Qed.

Lemma qs_inv_perm (a : list nat) (segs : list (nat * nat)) :
  qs_inv a segs -> NoDup a.
Proof. now intros (H & _). Qed.

Lemma partitions_spec :
  forall fuel a pl pr cdepth stack depth,
    qs_inv a ((pl, pr) :: stack) -> length stack = length depth ->
    pr - pl <= fuel ->
    let s1 := partitions less fuel (mkQs a pl pr cdepth stack depth) in
    qs_inv (qs_tosort s1) ((qs_pl s1, qs_pr s1) :: qs_stack s1)
    /\ length (qs_tosort s1) = length a
    /\ Permutation a (qs_tosort s1)
    /\ length (qs_stack s1) = length (qs_psdepth s1)
    /\ qs_pr s1 - qs_pl s1 <= SMALL_QUICKSORT
    /\ pending ((qs_pl s1, qs_pr s1) :: qs_stack s1)
       <= pending ((pl, pr) :: stack).
Proof.
  induction fuel as [|fuel IH]; intros a pl pr cdepth stack depth Hinv Hlen Hfuel;
    cbn zeta.
  - cbn [partitions qs_tosort qs_pl qs_pr qs_stack qs_psdepth].
    split; [exact Hinv|]. split; [reflexivity|]. split; [apply Permutation_refl|].
    split; [exact Hlen|]. split; [lia|reflexivity].
  - cbn [partitions].
    destruct (Nat.ltb_spec SMALL_QUICKSORT (pr - pl)) as [Hbig|Hsmall].
    2:{ cbn [qs_tosort qs_pl qs_pr qs_stack qs_psdepth].
        split; [exact Hinv|]. split; [reflexivity|].
        split; [apply Permutation_refl|].
        split; [exact Hlen|]. split; [exact Hsmall|reflexivity]. }
    unfold SMALL_QUICKSORT in Hbig.
    assert (Hok : pl <= pr /\ pr < length a).
    { destruct Hinv as (_ & Hok & _). inversion Hok; subst. assumption. }
    pose proof (median_partition_spec a pl pr ltac:(lia)
                  ltac:(lia)) as Hp.
    cbn zeta in Hp.
    destruct (median_partition less a pl pr) as [a' pi].
    cbn [fst snd] in Hp.
    destruct Hp as (Hpi & Hl' & Hsp & Hlow & Hhigh).
    assert (Hin : forall x y,
              (x = (pl, pi - 1) /\ y = (pi + 1, pr))
              \/ (x = (pi + 1, pr) /\ y = (pl, pi - 1)) ->
              qs_inv a' (x :: y :: stack)).
    { intros x y Hxy.
      apply (qs_inv_refine a a' (pl, pr) [x; y] stack Hinv Hsp).
      - destruct Hxy as [[-> ->]|[-> ->]]; repeat constructor; cbn [fst snd]; lia.
      - cbn [all_disjoint]. split; [|split; [constructor|exact I]].
        constructor; [|constructor].
        destruct Hxy as [[-> ->]|[-> ->]]; unfold disjoint; cbn [fst snd]; lia.
      - intros i j Hij Hi Hj Hns. unfold in_seg in Hi, Hj. cbn [fst snd] in Hi, Hj.
        assert (Hcase : (i < pi /\ pi <= j) \/ (i = pi /\ pi < j)).
        { destruct (Nat.lt_trichotomy i pi) as [H1|[H1|H1]];
            destruct (Nat.lt_trichotomy j pi) as [H2|[H2|H2]]; try lia.
          - exfalso. apply Hns.
            exists (pl, pi - 1). split.
            + destruct Hxy as [[-> ->]|[-> ->]]; cbn [In]; auto.
            + unfold in_seg. cbn [fst snd]. lia.
          - exfalso. apply Hns.
            exists (pi + 1, pr). split.
            + destruct Hxy as [[-> ->]|[-> ->]]; cbn [In]; auto.
            + unfold in_seg. cbn [fst snd]. lia. }
        destruct Hcase as [[H1 H2]|[-> H2]].
        + apply Rle_trans with (K a' pi); [apply Hlow; lia|].
          destruct (Nat.eq_dec j pi) as [->|]; [lra|apply Hhigh; lia].
        + apply Hhigh. lia. }
    destruct (Nat.ltb_spec (pi - pl) (pr - pi)) as [Hleft|Hright].
    + specialize (IH a' pl (pi - 1) (cdepth - 1)%Z ((pi + 1, pr) :: stack)
                     ((cdepth - 1)%Z :: depth)
                     (Hin _ _ (or_introl (conj eq_refl eq_refl)))
                     ltac:(cbn [length]; lia) ltac:(lia)).
      cbn zeta in IH. destruct IH as (H1 & H2 & H3 & H4 & H6 & H5).
      split; [exact H1|]. split; [congruence|].
      split; [eapply perm_trans; [apply Hsp|exact H3]|].
      split; [exact H4|]. split; [exact H6|].
      eapply Nat.le_trans; [exact H5|]. cbn [pending fst snd]. lia.
    + specialize (IH a' (pi + 1) pr (cdepth - 1)%Z ((pl, pi - 1) :: stack)
                     ((cdepth - 1)%Z :: depth)
                     (Hin _ _ (or_intror (conj eq_refl eq_refl)))
                     ltac:(cbn [length]; lia) ltac:(lia)).
      cbn zeta in IH. destruct IH as (H1 & H2 & H3 & H4 & H6 & H5).
      split; [exact H1|]. split; [congruence|].
      split; [eapply perm_trans; [apply Hsp|exact H3]|].
      split; [exact H4|]. split; [exact H6|].
      eapply Nat.le_trans; [exact H5|]. cbn [pending fst snd]. lia.
Qed.

Lemma qs_inv_done (a a' : list nat) (pl pr : nat) (stack : list (nat * nat)) :
  qs_inv a ((pl, pr) :: stack) ->
  seg_perm pl pr a a' -> sorted_on a' pl pr ->
  qs_inv a' stack.
Proof.
  intros Hinv Hsp Hsorted.
  apply (qs_inv_refine a a' (pl, pr) [] stack Hinv Hsp).
  - constructor.
  - exact I.
  - intros i j Hij Hi Hj _. unfold in_seg in *. cbn [fst snd] in *.
    apply Hsorted; lia.
Qed.

Lemma aquicksort_loop_spec :
  forall fuel s,
    qs_inv (qs_tosort s) ((qs_pl s, qs_pr s) :: qs_stack s) ->
    length (qs_stack s) = length (qs_psdepth s) ->
    pending ((qs_pl s, qs_pr s) :: qs_stack s) <= fuel ->
    let a' := aquicksort_loop less fuel s in
    length a' = length (qs_tosort s)
    /\ Permutation (qs_tosort s) a' /\ ordered a' [].
Proof.
  induction fuel as [|fuel IH]; intros [a pl pr cdepth stack depth];
    cbn [qs_tosort qs_pl qs_pr qs_stack qs_psdepth]; intros Hinv Hlen Hfuel;
    [cbn [pending fst snd] in Hfuel; lia|].
  cbn zeta. cbn [aquicksort_loop qs_tosort qs_pl qs_pr qs_cdepth qs_stack qs_psdepth].
  assert (Hok : pl <= pr /\ pr < length a).
  { destruct Hinv as (_ & Hok & _). inversion Hok; subst. assumption. }
  assert (Hnext : forall a1 stack1 depth1,
            qs_inv a1 stack1 -> length a1 = length a -> Permutation a a1 ->
            length stack1 = length depth1 -> pending stack1 <= fuel ->
            let r := match stack1, depth1 with
                     | (pl', pr') :: stack', cdepth' :: depth' =>
                         aquicksort_loop less fuel
                           (mkQs a1 pl' pr' cdepth' stack' depth')
                     | _, _ => a1
                     end in
            length r = length a /\ Permutation a r /\ ordered r []).
  { intros a1 stack1 depth1 Hinv1 Hl1 Hp1 Hlen1 Hpend1. cbn zeta.
    destruct stack1 as [|[pl' pr'] stack'].
    - split; [exact Hl1|]. split; [exact Hp1|]. apply Hinv1.
    - destruct depth1 as [|cdepth' depth']; [discriminate|].
      specialize (IH (mkQs a1 pl' pr' cdepth' stack' depth')).
      cbn [qs_tosort qs_pl qs_pr qs_stack qs_psdepth] in IH.
      specialize (IH Hinv1 ltac:(cbn [length] in Hlen1; lia) Hpend1).
      cbn zeta in IH. destruct IH as (H1 & H2 & H3).
      split; [congruence|]. split; [|exact H3].
      eapply perm_trans; eassumption. }
  destruct (Z.ltb_spec cdepth 0) as [Hdeep|Hshallow];
    cbn [qs_tosort qs_pl qs_pr qs_cdepth qs_stack qs_psdepth].
  - destruct (aheapsort_spec pl a (pr - pl + 1)
                ltac:(lia) ltac:(lia) (qs_inv_perm _ _ Hinv))
      as (Hl1 & Hsp1 & Hs1).
    replace (pl + (pr - pl + 1) - 1) with pr in Hsp1, Hs1 by lia.
    apply Hnext.
    + eapply qs_inv_done; eassumption.
    + exact Hl1.
    + apply Hsp1.
    + exact Hlen.
    + cbn [pending fst snd] in Hfuel. lia.
  - pose proof (partitions_spec (length a) a pl pr cdepth stack depth Hinv Hlen
                  ltac:(lia)) as Hp.
    cbn zeta in Hp.
    destruct (partitions less (length a) (mkQs a pl pr cdepth stack depth))
      as [a1 pl1 pr1 cdepth1 stack1 depth1].
    cbn [qs_tosort qs_pl qs_pr qs_cdepth qs_stack qs_psdepth] in *.
    destruct Hp as (Hinv1 & Hl1 & Hp1 & Hlen1 & _ & Hpend1).
    assert (Hok1 : pl1 <= pr1 /\ pr1 < length a1).
    { destruct Hinv1 as (_ & Hok1 & _). inversion Hok1; subst. assumption. }
    destruct (insertion_spec a1 pl1 pr1 ltac:(lia) ltac:(lia))
      as (Hl2 & Hsp2 & Hs2).
    apply Hnext.
    + eapply qs_inv_done; eassumption.
    + congruence.
    + eapply perm_trans; [exact Hp1|apply Hsp2].
    + exact Hlen1.
    + cbn [pending fst snd] in Hfuel, Hpend1. lia.
Qed.

(** numpy's generic quicksort argsort returns the indices that sort the
    array: a rearrangement of [0 .. num - 1] along which the keys do not
    decrease. *)
Theorem aquicksort_sorts (num : nat) :
  Permutation (seq 0 num) (aquicksort less num)
  /\ forall i j, i < j -> j < num ->
       (K (aquicksort less num) i <= K (aquicksort less num) j)%R.
Proof.
  destruct num as [|n].
  - cbn. split; [constructor|]. intros i j _ Hj. lia.
  - unfold aquicksort.
    pose proof (aquicksort_loop_spec (S (S n))
                  (mkQs (seq 0 (S n)) 0 (S n - 1)
                        (2 * Z.of_nat (Nat.log2 (S n))) [] [])) as H.
    cbn [qs_tosort qs_pl qs_pr qs_stack qs_psdepth] in H.
    destruct H as (Hl & Hp & Hord).
    + split; [apply seq_NoDup|]. split; [|split].
      * constructor; [|constructor]. rewrite length_seq.
        unfold seg_ok. cbn [fst snd]. lia.
      * cbn [all_disjoint]. split; [constructor|exact I].
      * intros i j Hij Hj Hns. exfalso. apply Hns.
        rewrite length_seq in Hj.
        exists (0, S n - 1). split; [now left|].
        unfold in_seg. cbn [fst snd]. lia.
    + reflexivity.
    + cbn [pending fst snd]. lia.
    + split; [exact Hp|]. intros i j Hij Hj.
      apply Hord; [exact Hij| |].
      * rewrite Hl, length_seq. exact Hj.
      * intros (s & [] & _).
Qed.

End Keys.

(** ** The library's sort meets its contract *)

Lemma float_less_spec (v : list R) (x y : nat) :
  float_less v x y = true <-> (nth x v 0 < nth y v 0)%R.
Proof.
  unfold float_less. destruct (Rlt_dec _ _); split; auto; discriminate.
Qed.

(** [np.argsort]: the indices that sort the array. *)
Lemma np_argsort_sorts (v : list R) :
  Permutation (range (length v)) (np_argsort v)
  /\ forall i j, i < j -> j < length v ->
       (nth (nth i (np_argsort v) 0%nat) v 0 <= nth (nth j (np_argsort v) 0%nat) v 0)%R.
Proof.
  exact (aquicksort_sorts (fun x => nth x v 0%R) (float_less v)
           (float_less_spec v) (length v)).
Qed.

Lemma strongly_sorted_nth {A : Type} (R : A -> A -> Prop) (d : A) (l : list A) :
  (forall i j, i < j -> j < length l -> R (nth i l d) (nth j l d)) ->
  StronglySorted R l.
Proof.
  induction l as [|x l IH]; intros H; constructor.
  - apply IH. intros i j Hij Hj. apply (H (S i) (S j)); simpl; lia.
  - apply Forall_forall. intros y Hy.
    destruct (In_nth _ _ d Hy) as (k & Hk & <-).
    apply (H 0 (S k)); simpl; lia.
Qed.

Lemma nth_rev_range (n k : nat) :
  k < n -> nth k (rev (range n)) 0 = n - 1 - k.
Proof.
  intros Hk. unfold range. rewrite rev_nth by (rewrite length_seq; lia).
  rewrite length_seq, seq_nth by lia. lia.
Qed.

Lemma perm_range_bound (n : nat) (s : list nat) :
  Permutation (range n) s -> length s = n /\ Forall (fun k => k < n) s.
Proof.
  intros Hp. split.
  - rewrite <- (Permutation_length Hp). apply length_range.
  - apply Forall_forall. intros k Hk. apply in_range.
    now apply (Permutation_in _ (Permutation_sym Hp)).
Qed.

(** [nargsort(..., ascending=False)]: a rearrangement of the positions along
    which the items do not increase. *)
Lemma nargsort_sorts (items : list R) :
  Permutation (range (length items)) (nargsort items)
  /\ forall i j, i < j -> j < length items ->
       (nth (nth j (nargsort items) 0%nat) items 0
        <= nth (nth i (nargsort items) 0%nat) items 0)%R.
Proof.
  set (n := length items).
  destruct (np_argsort_sorts (rev items)) as [Hp Hs].
  rewrite length_rev in Hp, Hs. fold n in Hp, Hs.
  destruct (perm_range_bound n _ Hp) as [Hl Hb].
  unfold nargsort. cbv zeta. fold n.
  set (s := np_argsort (rev items)) in *.
  set (f := fun k => nth k (rev (range n)) 0).
  assert (Hlr : length (rev (map f s)) = n)
    by (now rewrite length_rev, length_map).
  split.
  - eapply perm_trans; [|apply Permutation_rev].
    eapply perm_trans; [|apply Permutation_map, Hp].
    assert (E : map f (range n) = rev (range n)).
    { unfold f.
      pose proof (map_nth_range (rev (range n)) 0) as E.
      now rewrite length_rev, length_range in E. }
    rewrite E. apply Permutation_rev.
  - intros i j Hij Hj.
    assert (Hnth : forall k, k < n ->
              nth (nth k (rev (map f s)) 0) items 0%R
              = nth (nth (n - 1 - k) s 0) (rev items) 0%R).
    { intros k Hk.
      rewrite rev_nth by (rewrite length_map; lia).
      rewrite length_map, Hl.
      replace (n - S k) with (n - 1 - k) by lia.
      assert (Hin : nth (n - 1 - k) s 0 < n).
      { rewrite Forall_forall in Hb. apply Hb, nth_In. lia. }
      rewrite (nth_indep (map f s) 0 (f 0)) by (rewrite length_map; lia).
      rewrite (map_nth f s 0). unfold f. rewrite nth_rev_range by exact Hin.
      rewrite (rev_nth items) by (fold n; lia). fold n.
      f_equal. lia. }
    rewrite !Hnth by lia. apply Hs; lia.
Qed.

Lemma CC_nth (df : DataFrame) (i : nat) :
  CC (nth i df (mkRow EmptyString 0 0 0)) = nth i (map CC df) 0%R.
Proof.
  revert i. induction df as [|r df IH]; intros [|i]; simpl; auto.
Qed.

(** The library's sort does what pandas documents. *)
Lemma pandas_sort_values_contract : sort_values_contract pandas_sort_values.
Proof.
  intros df. unfold pandas_sort_values, DataFrame_take.
  destruct (nargsort_sorts (map CC df)) as [Hp Hs].
  rewrite length_map in Hp, Hs.
  destruct (perm_range_bound _ _ Hp) as [Hl Hb].
  set (ix := nargsort (map CC df)) in *.
  set (d := mkRow EmptyString 0 0 0).
  split.
  - rewrite <- (map_nth_range df d) at 1. now apply Permutation_map.
  - apply StronglySorted_Sorted.
    apply (strongly_sorted_nth CC_desc d).
    rewrite length_map, Hl. intros i j Hij Hj. unfold CC_desc.
    set (g := fun i => nth i df d).
    assert (E : forall k, k < length df ->
              CC (nth k (map g ix) d) = nth (nth k ix 0) (map CC df) 0%R).
    { intros k Hk.
      rewrite (nth_indep (map g ix) d (g 0)) by (rewrite length_map; lia).
      rewrite (map_nth g ix 0). unfold g. apply CC_nth. }
    rewrite !E by lia. now apply Hs.
Qed.

End SortProof.

(** ** The library's sort on eighteen alternatives *)

Lemma float_less_INR (ks : list nat) :
  float_less (map INR ks) = nat_key_less ks.
Proof.
  apply functional_extensionality; intros x.
  apply functional_extensionality; intros y.
  unfold float_less, nat_key_less.
  change 0 with (INR 0). rewrite !map_nth.
  destruct (Rlt_dec _ _) as [H|H]; symmetry.
  - apply Nat.ltb_lt. now apply INR_lt.
  - apply Nat.ltb_ge. apply INR_le. lra.
Qed.

(** One criterion, two levels of score: the alternatives on the higher level
    get [CC = 1], those on the lower level [CC = 0]. *)
Lemma ft_CC_two_levels (M : matrix) (w : list R) (lo hi : R) (i_lo i_hi : nat) :
  ft_cols M = 1%nat -> 0 < nth 0 w 0 -> lo < hi ->
  (i_lo < ft_rows M)%nat -> ft_S M i_lo 0 = lo ->
  (i_hi < ft_rows M)%nat -> ft_S M i_hi 0 = hi ->
  (forall i, (i < ft_rows M)%nat -> ft_S M i 0 = lo \/ ft_S M i 0 = hi) ->
  forall i, (i < ft_rows M)%nat ->
    (ft_S M i 0 = hi -> ft_CC M w i = 1)
    /\ (ft_S M i 0 = lo -> ft_CC M w i = 0).
Proof.
  intros Hc Hw Hlt Hilo Hlo Hihi Hhi Hall i Hi.
  assert (Hmono : forall a b, ft_S M a 0 <= ft_S M b 0 ->
                              ft_V M w a 0 <= ft_V M w b 0).
  { intros a b Hab. apply ft_V_mono; [lra|exact Hab]. }
  assert (Hstrict : ft_V M w i_lo 0 < ft_V M w i_hi 0).
  { unfold ft_V, ft_R. rewrite Hlo, Hhi.
    apply Rmult_lt_compat_r; [exact Hw|].
    apply Rmult_lt_compat_r; [|exact Hlt].
    apply Rinv_0_lt_compat, ft_denom_pos. }
  assert (Hrange : forall a, (a < ft_rows M)%nat -> lo <= ft_S M a 0 <= hi).
  { intros a Ha. destruct (Hall a Ha) as [-> | ->]; lra. }
  split.
  - intros Hs.
    assert (Hp : ft_D_plus M w i = 0).
    { apply ft_D_plus_of_best; [exact Hi|].
      intros i' j Hi' Hj. rewrite Hc in Hj.
      assert (j = 0%nat) as -> by lia.
      apply Hmono. rewrite Hs. now apply Hrange. }
    assert (Hm : 0 < ft_D_minus M w i).
    { unfold ft_D_minus. rewrite Hc. unfold range. cbn [seq map].
      unfold sum. cbn [fold_left]. apply sqrt_lt_R0.
      assert (Hmin : ft_v_minus M w 0 = ft_V M w i_lo 0).
      { unfold ft_v_minus. apply Rmin_list_is_min.
        - apply (in_map (fun i' => ft_V M w i' 0)). now apply in_range.
        - apply Forall_map, Forall_forall. intros a Ha%in_range.
          apply Hmono. rewrite Hlo. now apply Hrange. }
      rewrite Hmin.
      assert (HV : ft_V M w i 0 = ft_V M w i_hi 0).
      { unfold ft_V, ft_R. now rewrite Hs, Hhi. }
      rewrite HV.
      assert (0 < (ft_V M w i_hi 0 - ft_V M w i_lo 0) ^ 2); [|lra].
      apply pow_lt. lra. }
    unfold ft_CC. rewrite Hp.
    destruct (Req_dec_T (0 + ft_D_minus M w i) 0); [lra|]. field. lra.
  - intros Hs.
    assert (Hm : ft_D_minus M w i = 0).
    { apply ft_D_minus_of_worst; [exact Hi|].
      intros i' j Hi' Hj. rewrite Hc in Hj.
      assert (j = 0%nat) as -> by lia.
      apply Hmono. rewrite Hs. now apply Hrange. }
    unfold ft_CC. rewrite Hm.
    destruct (Req_dec_T (ft_D_plus M w i + 0) 0); [reflexivity|].
    unfold Rdiv. lra.
Qed.

Lemma ft_S_eighteen (i : nat) :
  (i < 18)%nat ->
  ft_S eighteen i 0 = if Nat.even i then 0.8 else 0.6.
Proof.
  intros Hi. unfold ft_S, cell, eighteen.
  rewrite (nth_map_range (fun i => [if Nat.even i then HI else LO]) 18 i [])
    by exact Hi.
  cbn [nth]. destruct (Nat.even i); unfold score, HI, LO; cbn [mu nu]; lra.
Qed.

Lemma ft_CC_eighteen (i : nat) :
  (i < 18)%nat ->
  ft_CC eighteen [1] i = INR (if Nat.even i then 1 else 0).
Proof.
  intros Hi.
  assert (Hrows : ft_rows eighteen = 18%nat).
  { unfold ft_rows, eighteen. now rewrite length_map, length_range. }
  destruct (ft_CC_two_levels eighteen [1] 0.6 0.8 1 0) with (i := i)
    as [Hhi Hlo].
  - reflexivity.
  - cbn [nth]. lra.
  - lra.
  - rewrite Hrows. lia.
  - now rewrite ft_S_eighteen by lia.
  - rewrite Hrows. lia.
  - now rewrite ft_S_eighteen by lia.
  - intros a Ha. rewrite Hrows in Ha. rewrite ft_S_eighteen by exact Ha.
    destruct (Nat.even a); [now right|now left].
  - now rewrite Hrows.
  - pose proof (ft_S_eighteen i Hi) as Hs.
    destruct (Nat.even i); [rewrite (Hhi Hs)|rewrite (Hlo Hs)]; simpl; lra.
Qed.

Lemma ft_table_eighteen :
  ft_table eighteen [1] B1_to_B18
  = map (ft_row eighteen [1] B1_to_B18) (range 18).
Proof. now rewrite ft_table_rows. Qed.

Lemma CC_column_eighteen :
  map CC (ft_table eighteen [1] B1_to_B18) = map INR eighteen_keys.
Proof.
  rewrite ft_table_eighteen. unfold eighteen_keys. rewrite !map_map.
  apply map_ext_in. intros i Hi%in_range. cbn [ft_row CC].
  now apply ft_CC_eighteen.
Qed.

Lemma nargsort_eighteen :
  nargsort (map INR eighteen_keys)
  = [0; 12; 2; 16; 4; 6; 14; 8; 10; 15; 13; 9; 11; 1; 7; 5; 3; 17]%nat.
Proof.
  unfold nargsort, np_argsort. cbv zeta.
  rewrite <- (map_rev INR), float_less_INR, !length_map, length_rev.
  vm_compute. reflexivity.
Qed.

Lemma DataFrame_take_map_range {A : Type} (f : nat -> RankingRow) (n : nat) (ix : list nat) :
  Forall (fun i => (i < n)%nat) ix ->
  DataFrame_take (map f (range n)) ix = map f ix.
Proof.
  intros H. unfold DataFrame_take. apply map_ext_in. intros i Hi.
  rewrite Forall_forall in H.
  now rewrite (nth_map_range f n i _) by (now apply H).
Qed.

Lemma sort_values_eighteen :
  pandas_sort_values (ft_table eighteen [1] B1_to_B18)
  = map (ft_row eighteen [1] B1_to_B18)
        [0; 12; 2; 16; 4; 6; 14; 8; 10; 15; 13; 9; 11; 1; 7; 5; 3; 17]%nat.
Proof.
  unfold pandas_sort_values.
  rewrite CC_column_eighteen, nargsort_eighteen, ft_table_eighteen.
  apply (DataFrame_take_map_range (A := nat)).
  repeat constructor.
Qed.

Lemma rows_with_CC_1_eighteen (ix : list nat) :
  Forall (fun i => (i < 18)%nat) ix ->
  rows_with_CC 1 (map (ft_row eighteen [1] B1_to_B18) ix)
  = map (ft_row eighteen [1] B1_to_B18) (filter Nat.even ix).
Proof.
  induction 1 as [|i ix Hi _ IH]; [reflexivity|].
  unfold rows_with_CC in *. cbn [map filter]. rewrite IH.
  cbn [ft_row CC]. rewrite (ft_CC_eighteen i Hi).
  destruct (Nat.even i); simpl INR;
    destruct (Req_dec_T _ 1); try lra; reflexivity.
Qed.

Lemma ftopsis_eighteen :
  ftopsis pandas_sort_values eighteen [1] B1_to_B18
  = Ok (map (ft_row eighteen [1] B1_to_B18)
            [0; 12; 2; 16; 4; 6; 14; 8; 10; 15; 13; 9; 11; 1; 7; 5; 3; 17]%nat).
Proof.
  rewrite <- sort_values_eighteen. apply ftopsis_ok.
  - unfold eighteen. rewrite length_map, length_range. lia.
  - change (ft_cols eighteen) with 1%nat.
    unfold eighteen. apply Forall_map, Forall_forall. intros i _.
    cbn [length]. lia.
  - change (ft_cols eighteen) with 1%nat. cbn [length]. lia.
  - unfold eighteen. now rewrite length_map, length_range.
Qed.

(** C2, as stated, fails: the order of rows with equal [CC] is that of the
    library's sort, and the program asks for the default [kind].  With
    eighteen alternatives, alternately on a higher and a lower level of
    score, the nine on the higher level all get [CC = 1]; the sort hands
    them back in the order B1, B13, B3, B17, B5, B7, B15, B9, B11 and not
    in input order. *)
Lemma C2_tie_order_is_not_fixed :
  ~ (forall M w alts out,
       ftopsis pandas_sort_values M w alts = Ok out ->
       StronglySorted CC_desc out
       /\ keeps_tie_order (ft_table M w alts) out).
Proof.
  intros H.
  destruct (H _ _ _ _ ftopsis_eighteen) as [_ Hk].
  specialize (Hk 1).
  rewrite ft_table_eighteen in Hk.
  rewrite !rows_with_CC_1_eighteen in Hk by (unfold range; repeat constructor).
  apply (f_equal (map Alternative)) in Hk.
  rewrite !map_map in Hk. cbn [ft_row Alternative] in Hk.
  vm_compute in Hk. discriminate Hk.
Qed.

(** ** C2: the output is sorted, ties in the order of the library's sort *)

(** C2, amended: whenever [ftopsis] returns, its output is in descending
    order of [CC]; on a well-shaped input (at least one row, no row shorter
    than the first, a weight for every column, one label per row) it does
    return, and the output is a rearrangement of the table that has one row
    per alternative in input order.  The relative order of alternatives
    with equal [CC] is the one the library's default sort produces; the
    program does not ask for a stable one. *)
Theorem C2_rank_output_is_sorted_by_CC :
  (forall M w alts out,
     ftopsis pandas_sort_values M w alts = Ok out -> StronglySorted CC_desc out)
  /\ (forall M w alts,
        (0 < length M)%nat ->
        Forall (fun r => (ft_cols M <= length r)%nat) M ->
        (ft_cols M <= length w)%nat ->
        length alts = length M ->
        exists out,
          ftopsis pandas_sort_values M w alts = Ok out
          /\ StronglySorted CC_desc out
          /\ Permutation (ft_table M w alts) out).
Proof.
  pose proof pandas_sort_values_contract as Hsort. split.
  - intros M w alts out Hout.
    destruct (ftopsis_returns_sorted_frame _ _ _ _ _ Hout) as [df ->].
    apply Sorted_StronglySorted; [exact CC_desc_trans|apply Hsort].
  - intros M w alts Hm Hrows Hw Halts.
    exists (pandas_sort_values (ft_table M w alts)).
    split; [now apply ftopsis_ok|].
    split; [|apply Hsort].
    apply Sorted_StronglySorted; [exact CC_desc_trans|apply Hsort].
Qed.

(** At [low_high] the second alternative has the higher [CC] and comes
    first. *)
Lemma pandas_sort_values_low_high :
  pandas_sort_values (ft_table low_high [1] ["B1"; "B2"]%string)
  = map (ft_row low_high [1] ["B1"; "B2"]%string) [1; 0]%nat.
Proof.
  assert (Ht : ft_table low_high [1] ["B1"; "B2"]%string
               = map (ft_row low_high [1] ["B1"; "B2"]%string) (range 2))
    by now rewrite ft_table_rows.
  assert (Hcc : map CC (ft_table low_high [1] ["B1"; "B2"]%string)
                = map INR [0; 1]%nat).
  { rewrite Ht. unfold range. cbn [seq map ft_row CC].
    destruct (ft_CC_low_high 1 ltac:(lra)) as [-> ->]. cbn [INR]. 
    repeat f_equal; lra. }
  unfold pandas_sort_values. rewrite Hcc.
  assert (Hix : nargsort (map INR [0; 1]%nat) = [1; 0]%nat).
  { unfold nargsort, np_argsort. cbv zeta.
    rewrite <- (map_rev INR), float_less_INR, !length_map, length_rev.
    vm_compute. reflexivity. }
  rewrite Hix, Ht. apply (DataFrame_take_map_range (A := nat)).
  repeat constructor.
Qed.

Lemma C2_rank_output_is_sorted_by_CC_witness :
  exists out,
    ftopsis pandas_sort_values low_high [1] ["B1"; "B2"]%string = Ok out
    /\ StronglySorted CC_desc out
    /\ Permutation (ft_table low_high [1] ["B1"; "B2"]%string) out
    /\ map Alternative out = ["B2"; "B1"]%string.
Proof.
  destruct (proj2 C2_rank_output_is_sorted_by_CC low_high [1]
              ["B1"; "B2"]%string)
    as (out & Hout & Hs & Hp).
  - low_high_sizes.
  - repeat constructor.
  - low_high_sizes.
  - reflexivity.
  - exists out. split; [exact Hout|]. split; [exact Hs|]. split; [exact Hp|].
    assert (Hok : ftopsis pandas_sort_values low_high [1] ["B1"; "B2"]%string
                  = Ok (pandas_sort_values
                          (ft_table low_high [1] ["B1"; "B2"]%string))).
    { apply ftopsis_ok;
        [low_high_sizes|repeat constructor|low_high_sizes|reflexivity]. }
    assert (Heq : out = pandas_sort_values
                          (ft_table low_high [1] ["B1"; "B2"]%string))
      by congruence.
    rewrite Heq, pandas_sort_values_low_high. reflexivity.
Defined.
